(** * Who'd they play for? -- the quiz engine of [Whod_they_play_for.py]

    A shallow embedding of the data-access queries, of [render_level] and of
    the game part of [create_streamlit_app], followed by the properties of the
    quiz that the specification states.

    Conventions of the embedding.
    - Python [int] is [Z]; [str] is [string]; a Python list of strings is
      [list string]; a Python [set] of strings is [gset string].
    - [st.session_state] is a finite map from string keys to tagged values.
    - A function that can raise returns in [res]; code that also reads and
      writes the session state, shows messages or calls [st.rerun()] lives in
      the monad [M].
    - What the Streamlit widgets hand back during one pass of the script (the
      value of the multiselect, whether a button was pressed) and the draws of
      [random.choice] are inputs of that pass.
    - The entries that Streamlit itself keeps in the session state for the
      keyed widgets ([multiselect_level_k], [reveal_button_k]) are not part of
      the map: the script never reads them, it only deletes the first during
      a reset (lines 305-306), and their values are lists and booleans, which
      the filter of line 170 never takes for a player. *)

From stdpp Require Import gmap strings list fin_maps pretty sorting.
From Stdlib Require Import ZArith Lia.

Local Open Scope Z_scope.
Set Warnings "-clear-no-such-hyp".

(** ** Exceptions and results *)

Inductive exn := TypeError | IndexError | KeyError | AttributeError.

Inductive res (A : Type) :=
| Ok (a : A)
| Err (e : exn).
Arguments Ok {A} a.
Arguments Err {A} e.

Global Instance res_ret : MRet res := λ A a, Ok a.
Global Instance res_bind : MBind res := λ A B f r,
  match r with
  | Ok a => f a
  | Err e => Err e
  end.

(** [random.choice(seq)]: raises [IndexError] on an empty sequence, otherwise
    returns one of its elements; [draw] is the random source. *)
Definition choice {A} (draw : nat) (l : list A) : res A :=
  match l !! (draw `mod` length l)%nat with
  | Some x => Ok x
  | None => Err IndexError
  end.

(** [d[k]] on a dict: [KeyError] when the key is missing. *)
Definition dict_get {V} (d : gmap string V) (k : string) : res V :=
  match d !! k with
  | Some v => Ok v
  | None => Err KeyError
  end.

(** Binding of the keyword arguments of a call against the parameter names of
    the callee: a keyword that names no parameter is a [TypeError]. *)
Definition bind_keywords (params : list string) (kwargs : list (string * string)) : res unit :=
  if forallb (λ kw, bool_decide (kw.1 ∈ params)) kwargs then Ok () else Err TypeError.

(** [sorted] on a list of strings. *)
Definition sorted (l : list string) : list string := merge_sort String.le l.

(** ** The data-access layer *)

(** One row of [streamlit.Fbref_Appearances]. *)
Record row := Row {
  player_name : string;
  team_name : string;
  competition_name : string;
  number_of_seasons : Z;
  game_date : Z
}.

Definition database := list row.

Record engine := Engine { tables : database }.

Definition champions_league (r : row) : bool :=
  bool_decide (competition_name r = "Champions League").

(** [SELECT MAX(game_date)]: [None] (SQL NULL) when no row qualifies. *)
Definition max_date (l : list Z) : option Z :=
  match l with
  | [] => None
  | d :: ds => Some (foldr Z.max d ds)
  end.

(** Number of occurrences of [x] in [l]. *)
Definition occurrences (x : Z) (l : list Z) : nat :=
  length (filter (λ y, y = x) l).

(** [Series.mode()] of pandas: the values that occur most often, in sorted
    (ascending) order, as the library documents it. *)
Definition series_mode (l : list Z) : list Z :=
  let best := foldr Nat.max 0%nat ((λ x, occurrences x l) <$> l) in
  merge_sort Z.le (remove_dups (filter (λ x, occurrences x l = best) l)).

(** The tie-break in the words of the specification: the first value, in the
    positional order of the rows, among those that occur most often. *)
Definition first_mode_encountered (l : list Z) : option Z :=
  let best := foldr Nat.max 0%nat ((λ x, occurrences x l) <$> l) in
  head (filter (λ x, occurrences x l = best) l).

(** [Series.iat[0]]: [IndexError] on an empty series. *)
Definition iat0 {A} (l : list A) : res A :=
  match l with
  | [] => Err IndexError
  | x :: _ => Ok x
  end.

Module Main.

(** [def connect_to_sql_alchemy_server():] takes no parameter. *)
Definition connect_to_sql_alchemy_server (db : database) (kwargs : list (string * string)) : res engine :=
  _ ← bind_keywords [] kwargs; Ok (Engine db).

Definition load_latest_game_date (db : database) : res (option Z) :=
  sql_engine ← connect_to_sql_alchemy_server db [];
  Ok (max_date (game_date <$> filter (λ r, champions_league r = true) (tables sql_engine))).

Definition load_players (db : database) (minimum_seasons : Z) : res (list string) :=
  sql_engine ← connect_to_sql_alchemy_server db [];
  let df := remove_dups (player_name <$>
    filter (λ r, champions_league r = true ∧ minimum_seasons ≤ number_of_seasons r)
           (tables sql_engine)) in
  Ok (sorted df).

Definition load_players_data (db : database) (player : string) : res (list string * Z) :=
  sql_engine ← connect_to_sql_alchemy_server db [];
  let df := remove_dups ((λ r, (team_name r, number_of_seasons r)) <$>
    filter (λ r, champions_league r = true ∧ player_name r = player)
           (tables sql_engine)) in
  let teams := sorted (df.*1) in
  number_of_seasons ← iat0 (series_mode (df.*2));
  Ok (teams, number_of_seasons).

Definition load_unique_teams (db : database) : res (list string) :=
  sql_engine ← connect_to_sql_alchemy_server db [];
  Ok (sorted (remove_dups (team_name <$> tables sql_engine))).

End Main.

(** The variant of the script (part_000): the same four loaders, each of which
    calls the connection function with the keyword [server_type="prod"]. The
    [st.cache_data] decorator only stores what a call returns, so a loader
    that raises is run again at every call. *)
Module Variant.

(** [def connect_to_sql_alchemy_server():] takes no parameter here either. *)
Definition connect_to_sql_alchemy_server (db : database) (kwargs : list (string * string)) : res engine :=
  _ ← bind_keywords [] kwargs; Ok (Engine db).

Definition load_latest_game_date (db : database) : res (option Z) :=
  sql_engine ← connect_to_sql_alchemy_server db [("server_type", "prod")];
  Ok (max_date (game_date <$> filter (λ r, champions_league r = true) (tables sql_engine))).

Definition load_players (db : database) (minimum_seasons : Z) : res (list string) :=
  sql_engine ← connect_to_sql_alchemy_server db [("server_type", "prod")];
  let df := remove_dups (player_name <$>
    filter (λ r, champions_league r = true ∧ minimum_seasons ≤ number_of_seasons r)
           (tables sql_engine)) in
  Ok (sorted df).

Definition load_players_data (db : database) (player : string) : res (list string * Z) :=
  sql_engine ← connect_to_sql_alchemy_server db [("server_type", "prod")];
  let df := remove_dups ((λ r, (team_name r, number_of_seasons r)) <$>
    filter (λ r, champions_league r = true ∧ player_name r = player)
           (tables sql_engine)) in
  let teams := sorted (df.*1) in
  number_of_seasons ← iat0 (series_mode (df.*2));
  Ok (teams, number_of_seasons).

Definition load_unique_teams (db : database) : res (list string) :=
  sql_engine ← connect_to_sql_alchemy_server db [("server_type", "prod")];
  Ok (sorted (remove_dups (team_name <$> tables sql_engine))).

End Variant.

(** ** Session state and the script monad *)

(** A value stored in [st.session_state]: a player name or difficulty name, a
    list of selected clubs, or the reveal counter. *)
Inductive value :=
| VStr (s : string)
| VList (l : list string)
| VInt (n : Z).

Global Instance value_eq_dec : EqDecision value.
Proof. solve_decision. Defined.

Abbreviation session := (gmap string value).

(** What one pass of the script shows to the user. *)
Inductive event :=
| LatestGameDate (d : Z)
| PleaseSelectDifficulty
| LevelTitle (level min_seasons number_level_players : Z)
| YourPlayer (name : string) (seasons : Z)
| AskOneTeam
| AskTeams (n : nat)
| Revealed (team : string)
| NoRevealsRemaining
| ThatIsCorrect
| GameCompleted
| Unlucky (n_correct n_answers : nat) (wrong : gset string)
| Restarting.

(** How a piece of the script ends: it completes with a value, it calls
    [st.rerun()] (the pass stops there), or it raises. *)
Inductive result (A : Type) :=
| Done (a : A)
| Rerun
| Raise (e : exn).
Arguments Done {A} a.
Arguments Rerun {A}.
Arguments Raise {A} e.

Record run (A : Type) := Run {
  outcome : result A;
  state : session;
  shown : list event
}.
Arguments Run {A} outcome state shown.
Arguments outcome {A} r.
Arguments state {A} r.
Arguments shown {A} r.

Definition M (A : Type) : Type := session → run A.

Global Instance M_ret : MRet M := λ A a s, Run (Done a) s [].
Global Instance M_bind : MBind M := λ A B f m s,
  let r := m s in
  match outcome r with
  | Done a => let r' := f a (state r) in Run (outcome r') (state r') (shown r ++ shown r')
  | Rerun => Run Rerun (state r) (shown r)
  | Raise e => Run (Raise e) (state r) (shown r)
  end.

Definition lift {A} (r : res A) : M A := λ s,
  match r with
  | Ok a => Run (Done a) s []
  | Err e => Run (Raise e) s []
  end.

Definition rerun {A} : M A := λ s, Run Rerun s [].
Definition emit (e : event) : M unit := λ s, Run (Done ()) s [e].

(** [key in st.session_state] *)
Definition has (k : string) : M bool := λ s, Run (Done (bool_decide (is_Some (s !! k)))) s [].

(** [st.session_state[key]] *)
Definition get (k : string) : M value := λ s, lift (dict_get s k) s.

(** [st.session_state[key] = v] *)
Definition put (k : string) (v : value) : M unit := λ s, Run (Done ()) (<[k:=v]> s) [].

(** [del st.session_state[key]] *)
Definition del (k : string) : M unit := λ s,
  match s !! k with
  | Some _ => Run (Done ()) (delete k s) []
  | None => Run (Raise KeyError) s []
  end.

(** [st.session_state.pop(key, None)] *)
Definition pop (k : string) : M unit := λ s, Run (Done ()) (delete k s) [].

(** [st.session_state.values()] *)
Definition session_values (s : session) : list value := (map_to_list s).*2.
Definition values : M (list value) := λ s, Run (Done (session_values s)) s [].

(** [list(st.session_state.keys())] *)
Definition keys : M (list string) := λ s, Run (Done ((map_to_list s).*1)) s [].

(** Reading a stored value at the type the script uses it at. *)
Definition as_str (v : value) : res string :=
  match v with VStr p => Ok p | _ => Err TypeError end.
Definition as_list (v : value) : res (list string) :=
  match v with VList l => Ok l | _ => Err TypeError end.
Definition as_int (v : value) : res Z :=
  match v with VInt n => Ok n | _ => Err TypeError end.

(** [for x in xs: body(x)] *)
Fixpoint for_each {A} (xs : list A) (body : A → M unit) : M unit :=
  match xs with
  | [] => mret ()
  | x :: rest => body x ;; for_each rest body
  end.

(** [if c: body] *)
Definition when (c : bool) (body : M unit) : M unit :=
  if c then body else mret ().

(** ** Keys of the session state *)

Definition player_key (level : Z) : string := "level_" +:+ pretty level +:+ "_player".
Definition selection_key (level : Z) : string := "level_" +:+ pretty level +:+ "_selection".
Definition multiselect_key (level : Z) : string := "multiselect_level_" +:+ pretty level.

(** ** The level engine *)

(** What the widgets of one level hand back during one pass, and the random
    draws taken while rendering it. *)
Record level_input := LevelInput {
  picked : list string;          (* value of [st.multiselect] *)
  reveal_pressed : bool;         (* [st.button("Reveal 1 Team ...")] *)
  play_again_pressed : bool;     (* [st.button("Play Again")] *)
  player_draw : nat;             (* [random.choice(level_players)] *)
  reveal_draw : nat;             (* [random.choice(level_answers)] *)
  restart_draw : nat             (* [random.choice(load_players(...))] *)
}.

Module Level.
Section WithDatabase.

Variable db : database.

(** Lines 163-190: the pool of the level and the assignment of its player. *)
Definition draw_player (inp : level_input) (level min_seasons : Z) : M unit :=
  level_players ← lift (Main.load_players db min_seasons);
  let number_level_players :=
    if decide (level ≠ 1) then Z.of_nat (length level_players) - level
    else Z.of_nat (length level_players) in
  used ← values;
  let level_players := filter (λ p, VStr p ∉ used) level_players in
  emit (LevelTitle level min_seasons number_level_players) ;;
  assigned ← has (player_key level);
  when (negb assigned)
    (p ← lift (choice (player_draw inp) level_players);
     put (player_key level) (VStr p)).

(** Lines 192-194. *)
Definition init_selection (level : Z) : M unit :=
  stored ← has (selection_key level);
  when (negb stored) (put (selection_key level) (VList [])).

(** Lines 196-223: the player and the answers of the level. *)
Definition show_player (level : Z) : M (list string) :=
  v ← get (player_key level);
  level_player ← lift (as_str v);
  '(level_answers, number_of_seasons) ← lift (Main.load_players_data db level_player);
  emit (YourPlayer level_player number_of_seasons) ;;
  (if decide (length level_answers = 1%nat) then emit AskOneTeam
   else emit (AskTeams (length level_answers))) ;;
  mret level_answers.

(** Lines 225-230: the stored selection is replaced by the picker's value. *)
Definition read_selection (inp : level_input) (level : Z) : M unit :=
  _ ← lift (Main.load_unique_teams db);
  put (selection_key level) (VList (picked inp)).

(** Lines 232-244: the reveal button. *)
Definition reveal (inp : level_input) (level : Z) (level_answers : list string) : M unit :=
  v ← get "remaining_reveals";
  remaining ← lift (as_int v);
  if decide (0 < remaining) then
    when (reveal_pressed inp)
      (revealed_team ← lift (choice (reveal_draw inp) level_answers);
       v ← get (selection_key level);
       selection ← lift (as_list v);
       put (selection_key level) (VList (selection ++ [revealed_team])) ;;
       v ← get "remaining_reveals";
       remaining ← lift (as_int v);
       put "remaining_reveals" (VInt (remaining - 1)) ;;
       emit (Revealed revealed_team) ;;
       rerun)
  else emit NoRevealsRemaining.

(** Lines 266-272: the Play Again button clears the whole session state. *)
Definition play_again (inp : level_input) : M unit :=
  when (play_again_pressed inp)
    (ks ← keys;
     for_each ks del ;;
     rerun).

(** Lines 298-318: the run is reset after a wrong answer. *)
Definition restart_level (inp : level_input) (starting_min_seasons : Z) (lvl : Z) : M unit :=
  stored ← has (selection_key lvl);
  when stored (del (selection_key lvl)) ;;
  stored ← has (multiselect_key lvl);
  when stored (del (multiselect_key lvl)) ;;
  if decide (lvl = 1) then
    pool ← lift (Main.load_players db starting_min_seasons);
    p ← lift (choice (restart_draw inp) pool);
    put (player_key lvl) (VStr p)
  else
    assigned ← has (player_key lvl);
    when assigned (del (player_key lvl)).

Definition restart_game (inp : level_input) (starting_min_seasons : Z) : M unit :=
  for_each (seqZ 1 10) (restart_level inp starting_min_seasons) ;;
  rerun.

(** Lines 246-320: the answers are checked once the selection is complete. *)
Definition check_answers (inp : level_input) (level starting_min_seasons : Z)
    (level_answers : list string) : M bool :=
  v ← get (selection_key level);
  selection ← lift (as_list v);
  if decide (length selection = length level_answers) then
    if decide (list_to_set selection =@{gset string} list_to_set level_answers) then
      emit ThatIsCorrect ;;
      when (bool_decide (level = 10)) (emit GameCompleted ;; play_again inp) ;;
      mret true
    else
      let wrong_answers : gset string := list_to_set selection ∖ list_to_set level_answers in
      let correct_answers : gset string := list_to_set selection ∩ list_to_set level_answers in
      emit (Unlucky (size correct_answers) (length level_answers) wrong_answers) ;;
      emit Restarting ;;
      restart_game inp starting_min_seasons ;;
      mret false
  else mret false.

Definition render_level (inp : level_input) (level min_seasons starting_min_seasons : Z) : M bool :=
  draw_player inp level min_seasons ;;
  init_selection level ;;
  level_answers ← show_player level;
  read_selection inp level ;;
  reveal inp level level_answers ;;
  check_answers inp level starting_min_seasons level_answers.

End WithDatabase.
End Level.

(** ** The application *)

(** What the widgets of the page hand back during one pass. *)
Record app_input := AppInput {
  check_updates_pressed : bool;       (* [st.button("Check for updates.")] *)
  difficulty_selection : string;      (* [st.selectbox(...)] *)
  level_inputs : Z → level_input
}.

Module App.

(** Starting minimum number of seasons of each difficulty. *)
Definition game_difficulty : gmap string Z :=
  list_to_map [("Select a difficulty level", 0); ("Easy", 17); ("Normal", 14); ("Hard", 10)].

(** Allowed team reveals of each difficulty. *)
Definition reveals_per_difficulty : gmap string Z :=
  list_to_map [("Easy", 3); ("Normal", 2); ("Hard", 1)].

(** Line 482: the minimum number of seasons of a level. *)
Definition level_min_seasons (difficulty : string) (level : Z) : res Z :=
  start ← dict_get game_difficulty difficulty;
  Ok (start + 1 - level).

Section WithDatabase.

Variable db : database.

(** Header 1 (line 374). *)
Definition show_latest_game_date : M unit :=
  d ← lift (Main.load_latest_game_date db);
  match d with
  | Some d => emit (LatestGameDate d)
  | None => lift (Err AttributeError)
  end.

(** Lines 450-455: the reveal counter is set when it is missing or when the
    difficulty changed. *)
Definition init_reveals (difficulty : string) : M unit :=
  has_reveals ← has "remaining_reveals";
  has_previous ← has "previous_difficulty";
  changed ← (if negb has_reveals || negb has_previous then mret true
             else previous ← get "previous_difficulty";
                  mret (bool_decide (previous ≠ VStr difficulty)));
  when changed
    (put "remaining_reveals" (VInt (default 0 (reveals_per_difficulty !! difficulty))) ;;
     put "previous_difficulty" (VStr difficulty)).

(** Lines 463-477: every level is forgotten when the difficulty changed. *)
Definition change_difficulty (difficulty : string) : M unit :=
  current ← get "current_difficulty";
  when (bool_decide (current ≠ VStr difficulty))
    (for_each (seqZ 1 10) (λ lvl,
       pop (selection_key lvl) ;;
       pop (multiselect_key lvl) ;;
       pop (player_key lvl)) ;;
     put "current_difficulty" (VStr difficulty) ;;
     rerun).

(** Lines 479-489: the levels are rendered until one is not passed. *)
Fixpoint play_levels (inp : app_input) (difficulty : string) (levels : list Z) : M unit :=
  match levels with
  | [] => mret ()
  | level :: rest =>
      min_seasons ← lift (level_min_seasons difficulty level);
      start ← lift (dict_get game_difficulty difficulty);
      passed ← Level.render_level db (level_inputs inp level) level min_seasons start;
      if passed : bool then play_levels inp difficulty rest else mret ()
  end.

Definition create_streamlit_app (inp : app_input) : M unit :=
  show_latest_game_date ;;
  when (check_updates_pressed inp) rerun ;;
  let difficulty := difficulty_selection inp in
  init_reveals difficulty ;;
  if bool_decide (difficulty ≠ "Select a difficulty level") then
    tracked ← has "current_difficulty";
    when (negb tracked) (put "current_difficulty" (VStr difficulty)) ;;
    change_difficulty difficulty ;;
    play_levels inp difficulty (seqZ 1 10)
  else emit PleaseSelectDifficulty.

(** Successive passes of the script over one session. *)
Definition passes (inps : list app_input) (s : session) : session :=
  foldl (λ s inp, state (create_streamlit_app inp s)) s inps.

End WithDatabase.
End App.

(** * Properties *)

(** ** Strings and keys *)

Lemma string_app_cons a s t : String a s +:+ t = String a (s +:+ t).
Proof. reflexivity. Qed.

Lemma string_length_app s t :
  String.length (s +:+ t) = (String.length s + String.length t)%nat.
Proof. induction s as [|a s IH]; [done|]. rewrite string_app_cons. cbn. by rewrite IH. Qed.

Lemma string_app_inj_r s1 s2 t : s1 +:+ t = s2 +:+ t → s1 = s2.
Proof.
  revert s2. induction s1 as [|a s1 IH]; intros [|b s2] H; [done| | |].
  - apply (f_equal String.length) in H.
    rewrite !string_length_app in H. cbn in H. lia.
  - apply (f_equal String.length) in H.
    rewrite !string_length_app in H. cbn in H. lia.
  - rewrite !string_app_cons in H. injection H as -> H. f_equal. by apply IH.
Qed.

(** The last character of a string tells a player key from a selection key. *)
Fixpoint last_char (s : string) : option Ascii.ascii :=
  match s with
  | "" => None
  | String a "" => Some a
  | String _ t => last_char t
  end.

Lemma last_char_app s a t : last_char (s +:+ String a t) = last_char (String a t).
Proof.
  induction s as [|b s IH]; [done|].
  rewrite string_app_cons. destruct s as [|c s]; [done|].
  rewrite <- IH. reflexivity.
Qed.

Global Instance player_key_inj : Inj (=) (=) player_key.
Proof.
  intros a b H. unfold player_key in H.
  apply String.app_inj, string_app_inj_r in H. by apply (inj pretty).
Qed.

Global Instance selection_key_inj : Inj (=) (=) selection_key.
Proof.
  intros a b H. unfold selection_key in H.
  apply String.app_inj, string_app_inj_r in H. by apply (inj pretty).
Qed.

Global Instance multiselect_key_inj : Inj (=) (=) multiselect_key.
Proof.
  intros a b H. unfold multiselect_key in H.
  apply String.app_inj in H. by apply (inj pretty).
Qed.

Lemma player_key_ne_selection_key a b : player_key a ≠ selection_key b.
Proof.
  intros H. unfold player_key, selection_key in H.
  apply String.app_inj, (f_equal last_char) in H.
  rewrite !last_char_app in H. discriminate H.
Qed.

Lemma selection_key_ne_player_key a b : selection_key a ≠ player_key b.
Proof. intros H. by apply (player_key_ne_selection_key b a). Qed.

Lemma player_key_ne_multiselect_key a b : player_key a ≠ multiselect_key b.
Proof. discriminate. Qed.

Lemma multiselect_key_ne_player_key a b : multiselect_key a ≠ player_key b.
Proof. discriminate. Qed.

Lemma selection_key_ne_multiselect_key a b : selection_key a ≠ multiselect_key b.
Proof. discriminate. Qed.

Lemma multiselect_key_ne_selection_key a b : multiselect_key a ≠ selection_key b.
Proof. discriminate. Qed.

Lemma player_key_ne a b : a ≠ b → player_key a ≠ player_key b.
Proof. intros Hab H. by apply Hab, (inj player_key). Qed.

Lemma selection_key_ne a b : a ≠ b → selection_key a ≠ selection_key b.
Proof. intros Hab H. by apply Hab, (inj selection_key). Qed.

Create HintDb keys discriminated.
#[export] Hint Resolve player_key_ne_selection_key selection_key_ne_player_key
  player_key_ne_multiselect_key multiselect_key_ne_player_key
  selection_key_ne_multiselect_key multiselect_key_ne_selection_key
  player_key_ne selection_key_ne : keys.

(** Two keys of the session state are different. *)
Ltac key_ne :=
  solve [ discriminate
        | eauto with keys
        | apply player_key_ne; lia
        | apply selection_key_ne; lia
        | intros ?; simplify_eq; lia ].

(** ** Running the script monad *)

Lemma bind_run {A B} (m : M A) (f : A → M B) s :
  (m ≫= f) s =
  match outcome (m s) with
  | Done a =>
      Run (outcome (f a (state (m s)))) (state (f a (state (m s))))
          (shown (m s) ++ shown (f a (state (m s))))
  | Rerun => Run Rerun (state (m s)) (shown (m s))
  | Raise e => Run (Raise e) (state (m s)) (shown (m s))
  end.
Proof. reflexivity. Qed.

Lemma bind_done_inv {A B} (m : M A) (f : A → M B) s b s' log :
  (m ≫= f) s = Run (Done b) s' log →
  ∃ a s1 l1 l2,
    m s = Run (Done a) s1 l1 ∧ f a s1 = Run (Done b) s' l2 ∧ log = l1 ++ l2.
Proof.
  rewrite bind_run. destruct (m s) as [[a| |e] s1 l1]; cbn; [|done..].
  destruct (f a s1) as [o2 s2 l2] eqn:Hf; cbn. intros [= -> -> <-].
  by exists a, s1, l1, l2.
Qed.

Lemma bind_assoc {A B C} (m : M A) (f : A → M B) (g : B → M C) s :
  ((m ≫= f) ≫= g) s = (m ≫= λ a, f a ≫= g) s.
Proof.
  rewrite !bind_run. destruct (m s) as [[a| |e] s1 l1]; cbn; [|done..].
  rewrite !bind_run. destruct (f a s1) as [[b| |e] s2 l2]; cbn; [|done..].
  by rewrite (assoc_L (++)).
Qed.

Lemma bind_ret_run {A} (m : M A) s : (m ≫= mret) s = m s.
Proof.
  rewrite bind_run. destruct (m s) as [[a| |e] s1 l1]; cbn; [|done..].
  by rewrite (right_id_L [] (++)).
Qed.

(** A script that ends with [st.rerun()] never completes. *)
Lemma then_rerun_not_done {A B} (m : M A) s (b : B) :
  outcome ((m ;; rerun) s) ≠ Done b.
Proof. rewrite bind_run. by destruct (outcome (m s)). Qed.

(** [if key in st.session_state: del st.session_state[key]] *)
Lemma del_if_present k s :
  (stored ← has k; when stored (del k)) s = Run (Done ()) (delete k s) [].
Proof.
  rewrite bind_run. unfold has, when, del; cbn.
  destruct (s !! k) as [v|] eqn:Hk.
  - rewrite bool_decide_eq_true_2 by eauto. by rewrite Hk.
  - rewrite bool_decide_eq_false_2 by (by intros [??]). cbn.
    f_equal. symmetry. by apply delete_id.
Qed.


Lemma choice_elem {A} draw (l : list A) x : choice draw l = Ok x → x ∈ l.
Proof.
  unfold choice. destruct (l !! _) as [y|] eqn:Hy; [|done].
  intros [= <-]. by eapply list_elem_of_lookup_2.
Qed.

Lemma choice_empty {A} draw : choice draw (@nil A) = Err IndexError.
Proof. reflexivity. Qed.

Lemma choice_nonempty {A} draw (l : list A) : l ≠ [] → ∃ x, choice draw l = Ok x.
Proof.
  intros Hl. unfold choice.
  destruct (lookup_lt_is_Some_2 l (draw `mod` length l)%nat) as [x ->]; [|eauto].
  apply Nat.mod_upper_bound. by destruct l.
Qed.

Lemma choice_ok_or_empty {A} draw (l : list A) :
  (∃ x, choice draw l = Ok x) ∨ (l = [] ∧ choice draw l = Err IndexError).
Proof.
  destruct l as [|y l]; [by right|]. left. by apply choice_nonempty.
Qed.

(** ** Invariants of the session state

    [preserves I J m]: started in a state that satisfies [I], the script [m]
    ends in a state that satisfies [I] when it completes, and [J] when it
    stops with [st.rerun()] or an exception. *)

Section Preserves.

Variables I J : session → Prop.
Hypothesis IJ : ∀ s, I s → J s.

Definition preserves {A} (m : M A) : Prop :=
  ∀ s, I s →
    match outcome (m s) with
    | Done _ => I (state (m s))
    | _ => J (state (m s))
    end.

Lemma preserves_ret {A} (a : A) : preserves (mret a).
Proof. by intros s Hs. Qed.

Lemma preserves_lift {A} (r : res A) : preserves (lift r).
Proof. intros s Hs. destruct r; cbn; auto. Qed.

Lemma preserves_rerun {A} : preserves (@rerun A).
Proof. intros s Hs. cbn. auto. Qed.

Lemma preserves_emit e : preserves (emit e).
Proof. by intros s Hs. Qed.

Lemma preserves_has k : preserves (has k).
Proof. by intros s Hs. Qed.

Lemma preserves_get k : preserves (get k).
Proof. intros s Hs. unfold get, dict_get. destruct (s !! k); cbn; auto. Qed.

Lemma preserves_values : preserves values.
Proof. by intros s Hs. Qed.

Lemma preserves_keys : preserves keys.
Proof. by intros s Hs. Qed.

Lemma preserves_put k v :
  (∀ s, I s → I (<[k:=v]> s)) → preserves (put k v).
Proof. intros H s Hs. cbn. auto. Qed.

Lemma preserves_pop k :
  (∀ s, I s → I (delete k s)) → preserves (pop k).
Proof. intros H s Hs. cbn. auto. Qed.

Lemma preserves_del k :
  (∀ s, I s → I (delete k s)) → preserves (del k).
Proof. intros H s Hs. unfold del. destruct (s !! k); cbn; auto. Qed.

Lemma preserves_bind {A B} (m : M A) (f : A → M B) :
  preserves m → (∀ a, preserves (f a)) → preserves (m ≫= f).
Proof.
  intros Hm Hf s Hs. rewrite bind_run. specialize (Hm s Hs).
  destruct (outcome (m s)) as [a| |e]; cbn; [|done..].
  apply (Hf a), Hm.
Qed.

Lemma preserves_when (c : bool) m : preserves m → preserves (when c m).
Proof. intros Hm. destruct c; [done|]. apply preserves_ret. Qed.

Lemma preserves_for_each {A} (xs : list A) (body : A → M unit) :
  (∀ x, x ∈ xs → preserves (body x)) → preserves (for_each xs body).
Proof.
  induction xs as [|x xs IH]; intros H; cbn; [apply preserves_ret|].
  apply preserves_bind; [apply H; left|].
  intros _. apply IH. intros y Hy. apply H. by right.
Qed.

(** A script that never completes only has to establish [J]. *)
Lemma preserves_then_rerun {A} (m : M A) :
  (∀ s, I s → J (state (m s))) → preserves (m ;; @rerun unit).
Proof.
  intros H s Hs. rewrite bind_run. specialize (H s Hs).
  by destruct (outcome (m s)).
Qed.

End Preserves.

(** One step of a proof that a script preserves an invariant. *)
Ltac preserving :=
  repeat lazymatch goal with
    | |- preserves _ _ (mret _) => apply preserves_ret
    | |- preserves _ _ (lift _) => apply preserves_lift; solve [auto]
    | |- preserves _ _ rerun => apply preserves_rerun; solve [auto]
    | |- preserves _ _ (emit _) => apply preserves_emit
    | |- preserves _ _ (has _) => apply preserves_has
    | |- preserves _ _ (get _) => apply preserves_get; solve [auto]
    | |- preserves _ _ values => apply preserves_values
    | |- preserves _ _ keys => apply preserves_keys
    | |- preserves _ _ (when _ _) => apply preserves_when
    | |- preserves _ _ (_ ≫= _) => apply preserves_bind; [|intros ?]
    | |- preserves _ _ (if ?c then _ else _) => destruct c
    | |- preserves _ _ (match ?x with (_, _) => _ end) => destruct x
    | |- preserves _ _ (match ?x with Some _ => _ | None => _ end) => destruct x
    end.

(** ** What a script shows

    [shows E m]: every message that [m] shows satisfies [E]. *)

Section Shows.

Variable E : event → Prop.

Definition shows {A} (m : M A) : Prop := ∀ s, Forall E (shown (m s)).

Lemma shows_ret {A} (a : A) : shows (mret a).
Proof. intros s. constructor. Qed.

Lemma shows_lift {A} (r : res A) : shows (lift r).
Proof. intros s. destruct r; constructor. Qed.

Lemma shows_rerun {A} : shows (@rerun A).
Proof. intros s. constructor. Qed.

Lemma shows_emit e : E e → shows (emit e).
Proof. intros He s. by repeat constructor. Qed.

Lemma shows_has k : shows (has k).
Proof. intros s. constructor. Qed.

Lemma shows_get k : shows (get k).
Proof. intros s. unfold get, dict_get. destruct (s !! k); constructor. Qed.

Lemma shows_values : shows values.
Proof. intros s. constructor. Qed.

Lemma shows_keys : shows keys.
Proof. intros s. constructor. Qed.

Lemma shows_put k v : shows (put k v).
Proof. intros s. constructor. Qed.

Lemma shows_pop k : shows (pop k).
Proof. intros s. constructor. Qed.

Lemma shows_del k : shows (del k).
Proof. intros s. unfold del. destruct (s !! k); constructor. Qed.

Lemma shows_bind {A B} (m : M A) (f : A → M B) :
  shows m → (∀ a, shows (f a)) → shows (m ≫= f).
Proof.
  intros Hm Hf s. rewrite bind_run. specialize (Hm s).
  destruct (outcome (m s)) as [a| |e]; cbn; [|done..].
  apply Forall_app. split; [done|]. apply Hf.
Qed.

Lemma shows_when (c : bool) m : shows m → shows (when c m).
Proof. intros Hm. destruct c; [done|]. apply shows_ret. Qed.

Lemma shows_for_each {A} (xs : list A) (body : A → M unit) :
  (∀ x, x ∈ xs → shows (body x)) → shows (for_each xs body).
Proof.
  induction xs as [|x xs IH]; intros H; cbn; [apply shows_ret|].
  apply shows_bind; [apply H; left|].
  intros _. apply IH. intros y Hy. apply H. by right.
Qed.

End Shows.

(** One step of a proof about the messages of a script. *)
Ltac showing :=
  repeat lazymatch goal with
    | |- shows _ (mret _) => apply shows_ret
    | |- shows _ (lift _) => apply shows_lift
    | |- shows _ rerun => apply shows_rerun
    | |- shows _ (has _) => apply shows_has
    | |- shows _ (get _) => apply shows_get
    | |- shows _ values => apply shows_values
    | |- shows _ keys => apply shows_keys
    | |- shows _ (put _ _) => apply shows_put
    | |- shows _ (pop _) => apply shows_pop
    | |- shows _ (del _) => apply shows_del
    | |- shows _ (when _ _) => apply shows_when
    | |- shows _ (for_each _ _) => apply shows_for_each; intros ? ?
    | |- shows _ (_ ≫= _) => apply shows_bind; [|intros ?]
    | |- shows _ (emit _) => apply shows_emit
    | |- shows _ (if ?c then _ else _) => destruct c
    | |- shows _ (match ?x with (_, _) => _ end) => destruct x
    | |- shows _ (match ?x with Some _ => _ | None => _ end) => destruct x
    end.

(** ** The variant's loaders *)

(** C10. In the variant source every data-access operation passes the keyword
    [server_type] to a connection function that has no parameter: each of
    [load_latest_game_date], [load_players], [load_players_data] and
    [load_unique_teams] raises [TypeError], whatever the database and the
    argument, and so never returns a result. *)
Theorem variant_loaders_raise_type_error (db : database) (minimum_seasons : Z) (player : string) :
  Variant.load_latest_game_date db = Err TypeError
  ∧ Variant.load_players db minimum_seasons = Err TypeError
  ∧ Variant.load_players_data db player = Err TypeError
  ∧ Variant.load_unique_teams db = Err TypeError.
Proof. repeat split. Qed.

(** By contrast the call without keyword of the main script connects. *)
Lemma main_loaders_connect (db : database) (minimum_seasons : Z) :
  ∃ players teams, Main.load_players db minimum_seasons = Ok players
    ∧ Main.load_unique_teams db = Ok teams.
Proof. by eexists _, _. Qed.

(** ** Thresholds of the levels *)

(** The difficulties with their starting threshold and reveal budget. *)
Definition difficulties : list (string * Z * Z) :=
  [("Easy", 17, 3); ("Normal", 14, 2); ("Hard", 10, 1)].

(** The title of a level names that level and its threshold. *)
Definition titled (level min_seasons : Z) (e : event) : Prop :=
  ∀ k m n, e = LevelTitle k m n → k = level ∧ m = min_seasons.

Lemma shows_mono (E E' : event → Prop) {A} (m : M A) :
  (∀ e, E e → E' e) → shows E m → shows E' m.
Proof. intros H Hm s. eapply Forall_impl; [apply Hm|done]. Qed.

Lemma render_level_titled db inp level min_seasons start :
  shows (titled level min_seasons) (Level.render_level db inp level min_seasons start).
Proof.
  unfold Level.render_level, Level.draw_player, Level.init_selection, Level.show_player,
    Level.read_selection, Level.reveal, Level.check_answers, Level.restart_game,
    Level.restart_level, Level.play_again.
  showing; by intros ??? [= <- <-].
Qed.

Lemma play_levels_titled db inp difficulty levels :
  shows (λ e, ∀ k m n, e = LevelTitle k m n →
           k ∈ levels ∧ App.level_min_seasons difficulty k = Ok m)
        (App.play_levels db inp difficulty levels).
Proof.
  induction levels as [|level levels IH]; cbn; [apply shows_ret|].
  intros s. rewrite bind_run.
  destruct (App.level_min_seasons difficulty level) as [m0|e0] eqn:Hmin; [|constructor].
  cbn. rewrite bind_run. destruct (dict_get _ _) as [start|]; [|constructor].
  cbn. rewrite bind_run.
  pose proof (render_level_titled db (level_inputs inp level) level m0 start s) as Ht.
  assert (Forall (λ e, ∀ k m n, e = LevelTitle k m n →
            k ∈ level :: levels ∧ App.level_min_seasons difficulty k = Ok m)
          (shown (Level.render_level db (level_inputs inp level) level m0 start s)))
    as Ht'.
  { eapply Forall_impl; [apply Ht|]. intros e He k m n ->.
    destruct (He k m n eq_refl) as [-> ->]. split; [left|done]. }
  destruct (Level.render_level _ _ _ _ _ s) as [[passed| |e] s1 l1]; cbn in *; [|done..].
  apply Forall_app. split; [done|].
  destruct passed; [|constructor].
  eapply Forall_impl; [apply IH|]. intros e He k m n ->.
  destruct (He k m n eq_refl) as [? ?]. split; [by right|done].
Qed.

Lemma create_streamlit_app_titled db inp :
  shows (λ e, ∀ k m n, e = LevelTitle k m n →
           1 ≤ k ≤ 10 ∧ App.level_min_seasons (difficulty_selection inp) k = Ok m)
        (App.create_streamlit_app db inp).
Proof.
  unfold App.create_streamlit_app, App.show_latest_game_date, App.init_reveals,
    App.change_difficulty.
  showing; try done.
  eapply shows_mono; [|apply play_levels_titled].
  intros e He k m n ->. destruct (He k m n eq_refl) as [Hk ?]. split; [|done].
  apply elem_of_seqZ in Hk. lia.
Qed.

(** C6, as the script computes it. For every difficulty, with the starting
    threshold and the reveal budget of its table entry, the threshold of
    level [k] in 1..10 is [start + 1 - k]: [start] at level 1, one less at
    each level, and [start - 9] at level 10; these are the thresholds under
    which a pass of the application renders its levels. *)
Theorem level_thresholds (D : string) (start budget : Z) :
  (D, start, budget) ∈ difficulties →
  App.game_difficulty !! D = Some start
  ∧ App.reveals_per_difficulty !! D = Some budget
  ∧ (∀ k, 1 ≤ k ≤ 10 → App.level_min_seasons D k = Ok (start + 1 - k))
  ∧ App.level_min_seasons D 1 = Ok start
  ∧ App.level_min_seasons D 10 = Ok (start - 9)
  ∧ (∀ db inp s k m n,
       difficulty_selection inp = D →
       LevelTitle k m n ∈ shown (App.create_streamlit_app db inp s) →
       1 ≤ k ≤ 10 ∧ m = start + 1 - k).
Proof.
  intros HD.
  assert (App.game_difficulty !! D = Some start
          ∧ App.reveals_per_difficulty !! D = Some budget) as [Hstart Hbudget].
  { unfold difficulties in HD. rewrite !elem_of_cons, elem_of_nil in HD.
    destruct HD as [[= -> -> ->]|[[= -> -> ->]|[[= -> -> ->]|[]]]]; by vm_compute. }
  assert (∀ k, App.level_min_seasons D k = Ok (start + 1 - k)) as Hmin.
  { intros k. unfold App.level_min_seasons, dict_get. by rewrite Hstart. }
  split; [done|]. split; [done|]. split; [auto|].
  split; [rewrite Hmin; f_equal; lia|]. split; [rewrite Hmin; f_equal; lia|].
  intros db inp s k m n Hinp Hshown.
  pose proof (create_streamlit_app_titled db inp s) as Hs.
  rewrite Forall_forall in Hs. destruct (Hs _ Hshown k m n eq_refl) as [Hk Hm].
  split; [done|]. rewrite Hinp, Hmin in Hm. by injection Hm.
Qed.

Lemma level_thresholds_witness :
  App.level_min_seasons "Hard" 10 = Ok (10 - 9).
Proof.
  apply (level_thresholds "Hard" 10 1). unfold difficulties. set_solver.
Defined.

(** The threshold of level 10 is not [start - 8]: on Easy it is 8, not 9. *)
Lemma level_10_threshold_is_not_start_minus_8 :
  (17 : Z) - 8 = 9
  ∧ App.level_min_seasons "Easy" 10 = Ok 8
  ∧ App.level_min_seasons "Easy" 10 ≠ Ok (17 - 8).
Proof. repeat split. discriminate. Qed.

(** ** The season count of a player *)

(** The rows that [load_players_data] reads for a player. *)
Definition rows_of (db : database) (player : string) : list (string * Z) :=
  remove_dups ((λ r, (team_name r, number_of_seasons r)) <$>
    filter (λ r, champions_league r = true ∧ player_name r = player) db).

(** [x] is a statistical mode of [l]: no value of [l] occurs more often. *)
Definition is_mode (x : Z) (l : list Z) : Prop :=
  x ∈ l ∧ ∀ y, y ∈ l → (occurrences y l ≤ occurrences x l)%nat.

Section Mode.

Variable l : list Z.

Let best := foldr Nat.max 0%nat ((λ x, occurrences x l) <$> l).

Lemma occurrences_le_best_of (f : Z → nat) (xs : list Z) y :
  y ∈ xs → (f y ≤ foldr Nat.max 0%nat (f <$> xs))%nat.
Proof.
  induction xs as [|x xs IH]; [by intros ?%elem_of_nil|].
  intros [->|Hy]%elem_of_cons; cbn; [lia|]. specialize (IH Hy). lia.
Qed.

Lemma best_attained_of (f : Z → nat) (xs : list Z) :
  xs ≠ [] → ∃ x, x ∈ xs ∧ f x = foldr Nat.max 0%nat (f <$> xs).
Proof.
  induction xs as [|x xs IH]; [done|]. intros _. cbn.
  destruct xs as [|x' xs].
  - exists x. split; [left|]. cbn. lia.
  - destruct IH as (z & Hz & Hfz); [done|].
    destruct (decide (f z ≤ f x)%nat).
    + exists x. split; [left|]. rewrite <- Hfz. lia.
    + exists z. split; [by right|]. rewrite <- Hfz. lia.
Qed.

Lemma is_mode_best x : is_mode x l ↔ x ∈ l ∧ occurrences x l = best.
Proof.
  split.
  - intros [Hx Hmax]. split; [done|].
    destruct (best_attained_of (λ x, occurrences x l) l) as (z & Hz & Hfz).
    { intros ->. by apply elem_of_nil in Hx. }
    pose proof (occurrences_le_best_of (λ x, occurrences x l) l x Hx).
    specialize (Hmax z Hz). unfold best. cbn in *. lia.
  - intros [Hx Hbest]. split; [done|]. intros y Hy.
    pose proof (occurrences_le_best_of (λ x, occurrences x l) l y Hy).
    unfold best in Hbest. cbn in *. lia.
Qed.

Lemma elem_of_series_mode x : x ∈ series_mode l ↔ is_mode x l.
Proof.
  unfold series_mode. rewrite merge_sort_Permutation, elem_of_remove_dups,
    list_elem_of_filter, is_mode_best. tauto.
Qed.

Lemma series_mode_sorted : StronglySorted Z.le (series_mode l).
Proof. apply StronglySorted_merge_sort; apply _. Qed.

Lemma series_mode_nonempty : l ≠ [] → series_mode l ≠ [].
Proof.
  intros Hl Hnil.
  destruct (best_attained_of (λ x, occurrences x l) l Hl) as (z & Hz & Hfz).
  assert (z ∈ series_mode l) as Hin by (by apply elem_of_series_mode, is_mode_best).
  rewrite Hnil in Hin. by apply elem_of_nil in Hin.
Qed.

(** The first of the modes is the smallest one. *)
Lemma iat0_series_mode n :
  iat0 (series_mode l) = Ok n → is_mode n l ∧ ∀ m, is_mode m l → n ≤ m.
Proof.
  pose proof series_mode_sorted as Hsorted.
  pose proof elem_of_series_mode as Hmode.
  destruct (series_mode l) as [|x xs]; [done|]. intros [= ->]. split.
  - apply Hmode. left.
  - intros m Hm. apply Hmode in Hm. apply StronglySorted_inv in Hsorted as [_ Hall].
    apply elem_of_cons in Hm as [->|Hm]; [done|].
    rewrite Forall_forall in Hall. by apply Hall.
Qed.

End Mode.

Definition db0 : database :=
  [ Row "A" "X" "Champions League" 5 100;
    Row "A" "Y" "Champions League" 3 120;
    Row "B" "X" "Champions League" 5 90;
    Row "B" "X" "Europa League" 5 130 ].

Lemma load_players_data_rows db player :
  Main.load_players_data db player =
  (n ← iat0 (series_mode ((rows_of db player).*2));
   Ok (sorted ((rows_of db player).*1), n)).
Proof. reflexivity. Qed.

(** C7, as the script computes it. For every player with at least one row,
    [load_players_data] returns a season count; the count it returns is a
    statistical mode of the per-row [number_of_seasons] values, and when
    several values are tied for most frequent it is the smallest of them
    ([Series.mode()] lists the modes in ascending order and the script takes
    the first), whatever the order of the rows. *)
Theorem season_count_is_smallest_mode (db : database) (player : string) :
  (rows_of db player ≠ [] →
     ∃ teams n, Main.load_players_data db player = Ok (teams, n))
  ∧ (∀ teams n,
       Main.load_players_data db player = Ok (teams, n) →
       is_mode n ((rows_of db player).*2)
       ∧ ∀ m, is_mode m ((rows_of db player).*2) → n ≤ m).
Proof.
  rewrite load_players_data_rows. split.
  - intros Hrows.
    destruct (series_mode ((rows_of db player).*2)) as [|n ns] eqn:Hmode.
    + exfalso. eapply series_mode_nonempty; [|exact Hmode].
      destruct (rows_of db player); [done|discriminate].
    + by eexists _, n.
  - intros teams n.
    destruct (iat0 _) as [n'|] eqn:Hn; [|done]. cbn. intros [= _ ->].
    by apply iat0_series_mode.
Qed.

Lemma season_count_is_smallest_mode_witness :
  rows_of db0 "A" ≠ [] ∧
  ∃ teams n, Main.load_players_data db0 "A" = Ok (teams, n).
Proof.
  split; [by vm_compute|].
  apply (season_count_is_smallest_mode db0 "A"). by vm_compute.
Defined.

(** The first mode met in the order of the rows is not what is returned: for
    a player with the season counts 5 and 3 on two rows, in this order, both
    are modes, the first one met is 5 and the script returns 3. *)
Lemma first_mode_encountered_is_not_returned :
  (rows_of db0 "A").*2 = [5; 3]
  ∧ first_mode_encountered ((rows_of db0 "A").*2) = Some 5
  ∧ Main.load_players_data db0 "A" = Ok (["X"; "Y"], 3).
Proof. by vm_compute. Qed.

(** ** The evaluation of a selection *)

(** The part of [render_level] that comes before the check of the answers
    (lines 163-244); it completes with the answers of the level when the pass
    reaches the check. *)
Definition prepare_level (db : database) (inp : level_input) (level min_seasons : Z) :
    M (list string) :=
  Level.draw_player db inp level min_seasons ;;
  Level.init_selection level ;;
  level_answers ← Level.show_player db level;
  Level.read_selection db inp level ;;
  Level.reveal inp level level_answers ;;
  mret level_answers.

(** The verdicts among the messages of a pass. *)
Definition is_verdict (e : event) : bool :=
  match e with
  | ThatIsCorrect | Unlucky _ _ _ => true
  | _ => false
  end.

Definition verdicts {A} (r : run A) : list event := filter is_verdict (shown r).

Lemma bind_ext {A B} (m : M A) (f g : A → M B) s :
  (∀ a s', f a s' = g a s') → (m ≫= f) s = (m ≫= g) s.
Proof. intros H. rewrite !bind_run. destruct (outcome (m s)); by rewrite ?H. Qed.

Lemma ret_bind_run {A B} (a : A) (f : A → M B) s : (mret a ≫= f) s = f a s.
Proof. rewrite bind_run. cbn. by destruct (f a s). Qed.

Lemma render_level_split db inp level min_seasons start s :
  Level.render_level db inp level min_seasons start s =
  (prepare_level db inp level min_seasons ≫= Level.check_answers db inp level start) s.
Proof.
  symmetry. unfold prepare_level, Level.render_level.
  rewrite bind_assoc. apply bind_ext; intros _ s1.
  rewrite bind_assoc. apply bind_ext; intros _ s2.
  rewrite bind_assoc. apply bind_ext; intros answers s3.
  rewrite bind_assoc. apply bind_ext; intros _ s4.
  rewrite bind_assoc. apply bind_ext; intros _ s5.
  apply ret_bind_run.
Qed.

Lemma prepare_level_no_verdict db inp level min_seasons :
  shows (λ e, is_verdict e = false) (prepare_level db inp level min_seasons).
Proof.
  unfold prepare_level, Level.draw_player, Level.init_selection, Level.show_player,
    Level.read_selection, Level.reveal.
  showing; done.
Qed.

Lemma filter_no_verdict log :
  Forall (λ e, is_verdict e = false) log → filter is_verdict log = [].
Proof.
  induction 1 as [|e log He _ IH]; [done|].
  rewrite filter_cons_False; [done|]. rewrite He. by intros [].
Qed.

Lemma play_again_silent inp : shows (λ _, False) (Level.play_again inp).
Proof. unfold Level.play_again. showing. Qed.

Lemma restart_game_silent db inp start : shows (λ _, False) (Level.restart_game db inp start).
Proof. unfold Level.restart_game, Level.restart_level. showing. Qed.

Lemma silent_shown {A} (m : M A) s : shows (λ _, False) m → shown (m s) = [].
Proof. intros H. specialize (H s). destruct (shown (m s)); [done|]. by inversion H. Qed.

Lemma restart_game_not_done db inp start s : outcome (Level.restart_game db inp start s) ≠ Done ().
Proof. apply then_rerun_not_done. Qed.

(** Stepping through a script. *)
Definition prepend {A} (l : list event) (r : run A) : run A :=
  Run (outcome r) (state r) (l ++ shown r).

Lemma prepend_nil {A} (r : run A) : prepend [] r = r.
Proof. by destruct r. Qed.

Lemma bind_step {A B} (m : M A) (f : A → M B) s a s1 l1 :
  m s = Run (Done a) s1 l1 → (m ≫= f) s = prepend l1 (f a s1).
Proof. intros H. rewrite bind_run, H. reflexivity. Qed.

Lemma bind_stop {A B} (m : M A) (f : A → M B) s o s1 l1 :
  m s = Run o s1 l1 → (∀ a, o ≠ Done a) →
  outcome ((m ≫= f) s) = match o with Done _ => Rerun | Rerun => Rerun | Raise e => Raise e end
  ∧ state ((m ≫= f) s) = s1 ∧ shown ((m ≫= f) s) = l1.
Proof. intros H Ho. rewrite bind_run, H. destruct o; cbn; [by destruct (Ho a)|done..]. Qed.

Lemma lift_ok_bind {A B} (a : A) (f : A → M B) s : (lift (Ok a) ≫= f) s = f a s.
Proof. erewrite bind_step by reflexivity. apply prepend_nil. Qed.

Lemma get_bind {B} k v (f : value → M B) (s : session) :
  s !! k = Some v → (get k ≫= f) s = f v s.
Proof.
  intros Hk. erewrite bind_step; [apply prepend_nil|].
  unfold get, dict_get. by rewrite Hk.
Qed.

Lemma emit_bind {B} e (f : unit → M B) s : (emit e ≫= f) s = prepend [e] (f () s).
Proof. by erewrite bind_step by reflexivity. Qed.

Lemma put_bind {B} k v (f : unit → M B) s : (put k v ≫= f) s = f () (<[k:=v]> s).
Proof. erewrite bind_step by reflexivity. apply prepend_nil. Qed.

Lemma has_bind {B} k (f : bool → M B) (s : session) :
  (has k ≫= f) s = f (bool_decide (is_Some (s !! k))) s.
Proof. erewrite bind_step by reflexivity. apply prepend_nil. Qed.

Lemma values_bind {B} (f : list value → M B) s : (values ≫= f) s = f (session_values s) s.
Proof. erewrite bind_step by reflexivity. apply prepend_nil. Qed.

(** The three ways the check of the answers can go. *)
Lemma check_answers_short db inp level start answers s selection :
  s !! selection_key level = Some (VList selection) →
  length selection ≠ length answers →
  Level.check_answers db inp level start answers s = Run (Done false) s [].
Proof.
  intros Hsel Hlen. unfold Level.check_answers.
  rewrite (get_bind _ _ _ _ Hsel). cbn. rewrite lift_ok_bind.
  by rewrite decide_False by done.
Qed.

Lemma play_again_not_pressed inp s :
  play_again_pressed inp = false → Level.play_again inp s = Run (Done ()) s [].
Proof. intros H. unfold Level.play_again. by rewrite H. Qed.

Lemma play_again_pressed_not_done inp s :
  play_again_pressed inp = true → outcome (Level.play_again inp s) ≠ Done ().
Proof.
  intros H. unfold Level.play_again. rewrite H. cbn.
  rewrite bind_run; cbn. rewrite bind_run.
  by destruct (outcome (for_each _ _ _)).
Qed.

Lemma check_answers_correct db inp level start answers s selection :
  s !! selection_key level = Some (VList selection) →
  length selection = length answers →
  list_to_set selection =@{gset string} list_to_set answers →
  let r := Level.check_answers db inp level start answers s in
  verdicts r = [ThatIsCorrect]
  ∧ (outcome r = Done true ∧ state r = s
     ∨ level = 10 ∧ play_again_pressed inp = true ∧ outcome r ≠ Done true).
Proof.
  intros Hsel Hlen Hset. unfold Level.check_answers.
  rewrite (get_bind _ _ _ _ Hsel). cbn. rewrite lift_ok_bind.
  rewrite decide_True by done. rewrite decide_True by done.
  rewrite emit_bind. unfold verdicts. cbn.
  case_bool_decide as Hlevel; cbn; [|split; [done|by left]].
  rewrite bind_assoc, emit_bind. cbn. rewrite bind_run.
  pose proof (silent_shown (Level.play_again inp) s (play_again_silent inp)) as Hsilent.
  destruct (play_again_pressed inp) eqn:Hpressed.
  - pose proof (play_again_pressed_not_done inp s Hpressed) as Hnd.
    destruct (Level.play_again inp s) as [[[]| |e] s' l']; cbn in *; subst;
      [done|..]; (split; [done|]); right; done.
  - rewrite play_again_not_pressed by done. cbn. split; [done|]. by left.
Qed.

Lemma check_answers_incorrect db inp level start answers s selection :
  s !! selection_key level = Some (VList selection) →
  length selection = length answers →
  list_to_set selection ≠@{gset string} list_to_set answers →
  let r := Level.check_answers db inp level start answers s in
  let restart := Level.restart_game db inp start s in
  verdicts r = [Unlucky (size (list_to_set selection ∩ list_to_set answers : gset string))
                        (length answers)
                        (list_to_set selection ∖ list_to_set answers)]
  ∧ Restarting ∈ shown r
  ∧ state r = state restart
  ∧ (outcome restart = Rerun → outcome r = Rerun)
  ∧ (∀ e, outcome restart = Raise e → outcome r = Raise e)
  ∧ ∀ b, outcome r ≠ Done b.
Proof.
  intros Hsel Hlen Hset. unfold Level.check_answers.
  rewrite (get_bind _ _ _ _ Hsel). cbn. rewrite lift_ok_bind.
  rewrite decide_True by done. rewrite decide_False by done.
  rewrite !emit_bind. unfold verdicts. cbn.
  pose proof (silent_shown _ s (restart_game_silent db inp start)) as Hsilent.
  pose proof (restart_game_not_done db inp start s) as Hnd.
  rewrite bind_run.
  destruct (Level.restart_game db inp start s) as [[[]| |e] s' l']; cbn in *; subst;
    [done|..]; (split; [done|]); (split; [set_solver|]); intuition congruence.
Qed.


Lemma get_bind_none {B} k (f : value → M B) (s : session) :
  s !! k = None → (get k ≫= f) s = Run (Raise KeyError) s [].
Proof. intros Hk. rewrite bind_run. unfold get, dict_get. by rewrite Hk. Qed.

Lemma lift_err_bind {A B} e (f : A → M B) s :
  (lift (Err e) ≫= f) s = Run (Raise e) s [].
Proof. reflexivity. Qed.

Lemma load_unique_teams_ok db :
  Main.load_unique_teams db = Ok (sorted (remove_dups (team_name <$> db))).
Proof. reflexivity. Qed.

Lemma load_players_ok db minimum_seasons :
  ∃ players, Main.load_players db minimum_seasons = Ok players.
Proof. by eexists. Qed.

(** A reveal that lets the pass go on has changed nothing. *)
Lemma reveal_done inp level answers s s' log :
  Level.reveal inp level answers s = Run (Done ()) s' log → s' = s.
Proof.
  unfold Level.reveal.
  destruct (s !! "remaining_reveals") as [v|] eqn:Hv;
    [rewrite (get_bind _ _ _ _ Hv)|by rewrite get_bind_none].
  destruct v as [p|l|n]; cbn; [by rewrite lift_err_bind..|rewrite lift_ok_bind].
  destruct (decide (0 < n)); cbn; [|by intros [= <- _]].
  destruct (reveal_pressed inp); cbn; [|by intros [= <- _]].
  intros H. exfalso.
  repeat (apply bind_done_inv in H as (? & ? & ? & ? & _ & H & _)).
  discriminate H.
Qed.

(** When the pass reaches the check, the stored selection is the value of the
    picker. *)
Lemma prepare_level_done db inp level min_seasons s answers s1 log :
  prepare_level db inp level min_seasons s = Run (Done answers) s1 log →
  s1 !! selection_key level = Some (VList (picked inp))
  ∧ filter is_verdict log = [].
Proof.
  intros H. split.
  - unfold prepare_level in H.
    apply bind_done_inv in H as (? & sa & la & la' & _ & H & _).
    apply bind_done_inv in H as (? & sb & lb & lb' & _ & H & _).
    apply bind_done_inv in H as (level_answers & sc & lc & lc' & _ & H & _).
    apply bind_done_inv in H as (? & sd & ld & ld' & Hread & H & _).
    apply bind_done_inv in H as ([] & se & le & le' & Hreveal & H & _).
    unfold mret, M_ret in H. simplify_eq. apply reveal_done in Hreveal as ->.
    unfold Level.read_selection in Hread.
    rewrite load_unique_teams_ok, lift_ok_bind in Hread.
    unfold put in Hread. simplify_eq.
    apply lookup_insert_eq.
  - apply filter_no_verdict.
    pose proof (prepare_level_no_verdict db inp level min_seasons s) as Hs.
    by rewrite H in Hs.
Qed.

Lemma render_level_after_prepare db inp level min_seasons start s answers s1 log :
  prepare_level db inp level min_seasons s = Run (Done answers) s1 log →
  let r := Level.render_level db inp level min_seasons start s in
  let c := Level.check_answers db inp level start answers s1 in
  outcome r = outcome c ∧ state r = state c ∧ shown r = log ++ shown c
  ∧ verdicts r = verdicts c.
Proof.
  intros H. cbn. rewrite render_level_split, (bind_step _ _ _ _ _ _ H). cbn.
  repeat split. unfold verdicts; cbn.
  rewrite filter_app. destruct (prepare_level_done _ _ _ _ _ _ _ _ H) as [_ ->]. done.
Qed.

Definition dbH : database :=
  [ Row "A" "X" "Champions League" 12 100;
    Row "A" "Y" "Champions League" 12 120;
    Row "B" "X" "Champions League" 10 90 ].

Definition idle : level_input := LevelInput [] false false 0 0 0.
Definition pick (l : list string) : level_input := LevelInput l false false 0 0 0.
Definition pick_and_reveal (l : list string) : level_input := LevelInput l true false 0 0 0.

(** The session after a first pass on Hard over [dbH]: player "A" at level 1. *)
Definition sH : session :=
  state (App.create_streamlit_app dbH (AppInput false "Hard" (λ _, idle)) ∅).



(** The scenario of the specification: with the answers X and Y, the
    selection X, Z is incorrect, one club is right and Z is wrong. *)
Example evaluation_scenario :
  verdicts (Level.render_level dbH (pick ["X"; "Z"]) 1 10 10 sH) = [Unlucky 1 2 {["Z"]}]
  ∧ verdicts (Level.render_level dbH (pick ["Y"; "X"]) 1 10 10 sH) = [ThatIsCorrect].
Proof. by vm_compute. Qed.





(** ** The reset of the run *)

(** The keys of one level. *)
Definition level_keys (lvl : Z) : list string :=
  [selection_key lvl; multiselect_key lvl; player_key lvl].

(** A level is forgotten: its selection, its picker and its player go. *)
Definition forget_level (s : session) (lvl : Z) : session :=
  delete (player_key lvl) (delete (multiselect_key lvl) (delete (selection_key lvl) s)).

Lemma lookup_forget_level s lvl k :
  forget_level s lvl !! k = if decide (k ∈ level_keys lvl) then None else s !! k.
Proof.
  unfold forget_level, level_keys. rewrite !lookup_delete.
  repeat case_decide; try done; set_solver.
Qed.

Lemma lookup_forget_levels lvls s k :
  foldl forget_level s lvls !! k =
  if decide (k ∈ lvls ≫= level_keys) then None else s !! k.
Proof.
  revert s. induction lvls as [|lvl lvls IH]; intros s; cbn.
  - rewrite decide_False; [done|]. apply not_elem_of_nil.
  - rewrite IH, lookup_forget_level.
    repeat case_decide; try done; set_solver.
Qed.

Lemma elem_of_level_keys_player a lvls :
  player_key a ∈ lvls ≫= level_keys ↔ a ∈ lvls.
Proof.
  rewrite list_elem_of_bind. unfold level_keys. split.
  - intros (lvl & Hk & Hlvl). rewrite !elem_of_cons, elem_of_nil in Hk.
    destruct Hk as [Hk|[Hk|[Hk|[]]]].
    + by destruct (player_key_ne_selection_key a lvl).
    + by destruct (player_key_ne_multiselect_key a lvl).
    + by apply (inj player_key) in Hk as ->.
  - intros Ha. exists a. split; [|done]. set_solver.
Qed.

Lemma elem_of_level_keys_selection a lvls :
  selection_key a ∈ lvls ≫= level_keys ↔ a ∈ lvls.
Proof.
  rewrite list_elem_of_bind. unfold level_keys. split.
  - intros (lvl & Hk & Hlvl). rewrite !elem_of_cons, elem_of_nil in Hk.
    destruct Hk as [Hk|[Hk|[Hk|[]]]].
    + by apply (inj selection_key) in Hk as ->.
    + by destruct (selection_key_ne_multiselect_key a lvl).
    + by destruct (selection_key_ne_player_key a lvl).
  - intros Ha. exists a. split; [|done]. set_solver.
Qed.

Lemma del_if_present_bind {B} k (f : unit → M B) s :
  (has k ≫= λ stored, when stored (del k) ≫= f) s = f () (delete k s).
Proof.
  rewrite <- (bind_assoc (has k) (λ stored, when stored (del k)) f).
  erewrite bind_step by apply del_if_present. apply prepend_nil.
Qed.

Lemma restart_level_other db inp start lvl s :
  lvl ≠ 1 →
  Level.restart_level db inp start lvl s = Run (Done ()) (forget_level s lvl) [].
Proof.
  intros Hlvl. unfold Level.restart_level.
  rewrite !del_if_present_bind.
  rewrite decide_False by done. apply del_if_present.
Qed.

Lemma restart_level_first db inp start s pool :
  Main.load_players db start = Ok pool →
  Level.restart_level db inp start 1 s =
  match choice (restart_draw inp) pool with
  | Ok p =>
      Run (Done ())
          (<[player_key 1 := VStr p]> (delete (multiselect_key 1) (delete (selection_key 1) s))) []
  | Err e => Run (Raise e) (delete (multiselect_key 1) (delete (selection_key 1) s)) []
  end.
Proof.
  intros Hpool. unfold Level.restart_level.
  rewrite !del_if_present_bind.
  rewrite decide_True by done. rewrite Hpool, lift_ok_bind.
  by destruct (choice (restart_draw inp) pool) as [p|e].
Qed.

Lemma restart_levels_other db inp start lvls s :
  1 ∉ lvls →
  for_each lvls (Level.restart_level db inp start) s =
  Run (Done ()) (foldl forget_level s lvls) [].
Proof.
  revert s. induction lvls as [|lvl lvls IH]; intros s Hl; [done|]. cbn.
  erewrite bind_step; [rewrite prepend_nil|apply restart_level_other; set_solver].
  apply IH. set_solver.
Qed.

(** The whole reset: what [restart_game] leaves behind. *)
Lemma restart_game_run db inp start s pool :
  Main.load_players db start = Ok pool →
  Level.restart_game db inp start s =
  match choice (restart_draw inp) pool with
  | Ok p =>
      Run Rerun
        (foldl forget_level
           (<[player_key 1 := VStr p]> (delete (multiselect_key 1) (delete (selection_key 1) s)))
           (seqZ 2 9)) []
  | Err e => Run (Raise e) (delete (multiselect_key 1) (delete (selection_key 1) s)) []
  end.
Proof.
  intros Hpool. unfold Level.restart_game.
  change (seqZ 1 10) with (1 :: seqZ 2 9). cbn [for_each].
  rewrite bind_assoc, bind_run, (restart_level_first _ _ _ _ _ Hpool).
  destruct (choice (restart_draw inp) pool) as [p|e]; cbn; [|done].
  rewrite bind_run, restart_levels_other; [done|].
  intros H%elem_of_seqZ. lia.
Qed.

(** The session that a completed reset leaves, with [p] the new player. *)
Definition restarted (p : string) (s : session) : session :=
  foldl forget_level
    (<[player_key 1 := VStr p]> (delete (multiselect_key 1) (delete (selection_key 1) s)))
    (seqZ 2 9).

Lemma restarted_selection p s lvl :
  1 ≤ lvl ≤ 10 → restarted p s !! selection_key lvl = None.
Proof.
  intros Hlvl. unfold restarted. rewrite lookup_forget_levels.
  case_decide as Hin; [done|].
  rewrite elem_of_level_keys_selection, elem_of_seqZ in Hin.
  assert (lvl = 1) as -> by lia.
  rewrite lookup_insert_ne by key_ne. rewrite lookup_delete_ne by key_ne.
  apply lookup_delete_eq.
Qed.

Lemma restarted_first_player p s : restarted p s !! player_key 1 = Some (VStr p).
Proof.
  unfold restarted. rewrite lookup_forget_levels.
  case_decide as Hin; [|apply lookup_insert_eq].
  rewrite elem_of_level_keys_player, elem_of_seqZ in Hin. lia.
Qed.

Lemma restarted_other_player p s lvl :
  2 ≤ lvl ≤ 10 → restarted p s !! player_key lvl = None.
Proof.
  intros Hlvl. unfold restarted. rewrite lookup_forget_levels.
  case_decide as Hin; [done|]. destruct Hin.
  rewrite elem_of_level_keys_player, elem_of_seqZ. lia.
Qed.

(** Frame: a key that belongs to no level is left as it was. *)
Lemma restarted_frame p s k :
  (∀ lvl, 1 ≤ lvl ≤ 10 → k ∉ level_keys lvl) → restarted p s !! k = s !! k.
Proof.
  intros Hk. unfold restarted. rewrite lookup_forget_levels.
  case_decide as Hin.
  - apply list_elem_of_bind in Hin as (lvl & Hin & Hlvl%elem_of_seqZ).
    destruct (Hk lvl); [lia|done].
  - specialize (Hk 1 ltac:(lia)). unfold level_keys in Hk.
    rewrite !not_elem_of_cons in Hk. destruct Hk as (? & ? & ? & _).
    by rewrite lookup_insert_ne, !lookup_delete_ne by done.
Qed.

Lemma reveals_not_level_key lvl : "remaining_reveals" ∉ level_keys lvl.
Proof.
  unfold level_keys. rewrite !not_elem_of_cons. repeat split; try discriminate.
  apply not_elem_of_nil.
Qed.

(** Every element of a sequence can be drawn. *)
Lemma choice_any {A} (l : list A) x : x ∈ l → ∃ draw, choice draw l = Ok x.
Proof.
  intros [i Hi]%list_elem_of_lookup. exists i. unfold choice.
  rewrite Nat.mod_small by (by eapply lookup_lt_Some). by rewrite Hi.
Qed.

(** C3. A run reset caused by an incorrect submission, with a non-empty pool
    at the starting threshold: the pass ends with a rerun; the stored
    selection of each level 1..10 is gone; level 1 holds a player drawn from
    the whole pool of the starting threshold, any member of which can come
    out; no other level 2..10 holds a player; the reveal counter is what it
    was before the reset. *)
Theorem reset_after_wrong_answer db inp level start answers s selection pool :
  s !! selection_key level = Some (VList selection) →
  length selection = length answers →
  list_to_set selection ≠@{gset string} list_to_set answers →
  Main.load_players db start = Ok pool →
  pool ≠ [] →
  let r := Level.check_answers db inp level start answers s in
  outcome r = Rerun
  ∧ Restarting ∈ shown r
  ∧ (∀ lvl, 1 ≤ lvl ≤ 10 → state r !! selection_key lvl = None)
  ∧ (∃ p, choice (restart_draw inp) pool = Ok p ∧ p ∈ pool
          ∧ state r !! player_key 1 = Some (VStr p))
  ∧ (∀ q, q ∈ pool → ∃ draw,
       state (Level.check_answers db
                (LevelInput (picked inp) (reveal_pressed inp) (play_again_pressed inp)
                            (player_draw inp) (reveal_draw inp) draw)
                level start answers s) !! player_key 1 = Some (VStr q))
  ∧ (∀ lvl, 2 ≤ lvl ≤ 10 → state r !! player_key lvl = None)
  ∧ state r !! "remaining_reveals" = s !! "remaining_reveals".
Proof.
  intros Hsel Hlen Hne Hpool Hnonempty r.
  destruct (check_answers_incorrect db inp level start answers s _ Hsel Hlen Hne)
    as (_ & Hrestarting & Hstate & Hrerun & _). fold r in Hrestarting, Hstate, Hrerun.
  rewrite (restart_game_run _ _ _ _ _ Hpool) in Hstate, Hrerun.
  destruct (choice_nonempty (restart_draw inp) pool Hnonempty) as [p Hp].
  rewrite Hp in Hstate, Hrerun. cbn in Hstate, Hrerun. fold (restarted p s) in Hstate.
  rewrite Hstate.
  split; [by apply Hrerun|]. split; [done|].
  split; [intros lvl Hlvl; by apply restarted_selection|].
  split. { exists p. split; [done|]. split; [by eapply choice_elem|].
           apply restarted_first_player. }
  split.
  { intros q Hq. destruct (choice_any pool q Hq) as [draw Hdraw]. exists draw.
    destruct (check_answers_incorrect db (LevelInput (picked inp) (reveal_pressed inp)
                (play_again_pressed inp) (player_draw inp) (reveal_draw inp) draw)
                level start answers s _ Hsel Hlen Hne) as (_ & _ & -> & _).
    rewrite (restart_game_run _ _ _ _ _ Hpool). cbn. rewrite Hdraw. cbn.
    apply restarted_first_player. }
  split; [intros lvl Hlvl; by apply restarted_other_player|].
  apply restarted_frame. intros lvl _. apply reveals_not_level_key.
Qed.

(** The session of [sH] once the wrong selection X, Z is stored at level 1. *)
Definition sH_wrong : session := <[selection_key 1 := VList ["X"; "Z"]]> sH.

Lemma reset_after_wrong_answer_witness :
  outcome (Level.check_answers dbH (pick ["X"; "Z"]) 1 10 ["X"; "Y"] sH_wrong) = Rerun.
Proof.
  apply (reset_after_wrong_answer dbH (pick ["X"; "Z"]) 1 10 ["X"; "Y"] sH_wrong
           ["X"; "Z"] ["A"; "B"]).
  - by vm_compute.
  - reflexivity.
  - intros Heq. assert ("Z" ∈@{gset string} list_to_set ["X"; "Y"]) as Hin.
    { rewrite <- Heq. set_solver. }
    set_solver.
  - by vm_compute.
  - discriminate.
Defined.

(** ** Invariants of the application

    An invariant of the session state that survives deletions, writes of
    selections and difficulties, the assignment of an unused player to a level
    without one, a non-negative reveal counter and a completed reset, is
    preserved by every pass of the application. *)

Lemma load_players_eq db minimum_seasons :
  Main.load_players db minimum_seasons =
  Ok (sorted (remove_dups (player_name <$>
        filter (λ r, champions_league r = true ∧ minimum_seasons ≤ number_of_seasons r) db))).
Proof. reflexivity. Qed.

Lemma reveals_per_difficulty_nonneg difficulty :
  0 ≤ default 0 (App.reveals_per_difficulty !! difficulty).
Proof.
  destruct (App.reveals_per_difficulty !! difficulty) as [n|] eqn:Hn; [|done]. cbn.
  apply elem_of_list_to_map_2 in Hn. rewrite !elem_of_cons, elem_of_nil in Hn.
  destruct Hn as [[= _ ->]|[[= _ ->]|[[= _ ->]|[]]]]; lia.
Qed.

Section AppInvariant.

Variable I : session → Prop.

Hypothesis I_delete : ∀ k s, I s → I (delete k s).
Hypothesis I_selection : ∀ lvl v s, I s → I (<[selection_key lvl := v]> s).
Hypothesis I_difficulty : ∀ k v s,
  k = "previous_difficulty" ∨ k = "current_difficulty" → I s → I (<[k := v]> s).
Hypothesis I_player : ∀ lvl p s,
  1 ≤ lvl ≤ 10 → I s → s !! player_key lvl = None → VStr p ∉ session_values s →
  I (<[player_key lvl := VStr p]> s).
Hypothesis I_reveals : ∀ n s, 0 ≤ n → I s → I (<["remaining_reveals" := VInt n]> s).
Hypothesis I_restarted : ∀ p s, I s → I (restarted p s).

Variable db : database.

Lemma draw_player_invariant inp level min_seasons :
  1 ≤ level ≤ 10 → preserves I I (Level.draw_player db inp level min_seasons).
Proof.
  intros Hlevel s Hs. unfold Level.draw_player.
  rewrite load_players_eq, lift_ok_bind, values_bind, emit_bind, has_bind. cbn.
  destruct (s !! player_key level) as [v|] eqn:Hkey.
  - rewrite bool_decide_eq_true_2 by eauto. done.
  - rewrite bool_decide_eq_false_2 by (by intros [??]). cbn.
    destruct (choice _ _) as [p|e] eqn:Hp; [rewrite lift_ok_bind|by rewrite lift_err_bind].
    cbn. apply choice_elem, list_elem_of_filter in Hp as [Hp _]. by apply I_player.
Qed.

Lemma init_selection_invariant level : preserves I I (Level.init_selection level).
Proof. unfold Level.init_selection. preserving. apply preserves_put. auto. Qed.

Lemma show_player_invariant level : preserves I I (Level.show_player db level).
Proof. unfold Level.show_player. preserving. Qed.

Lemma read_selection_invariant inp level : preserves I I (Level.read_selection db inp level).
Proof. unfold Level.read_selection. preserving. apply preserves_put. auto. Qed.

Lemma reveal_invariant inp level answers : preserves I I (Level.reveal inp level answers).
Proof.
  intros s Hs. unfold Level.reveal.
  destruct (s !! "remaining_reveals") as [v|] eqn:Hv;
    [rewrite (get_bind _ _ _ _ Hv)|by rewrite get_bind_none].
  destruct v as [p|l|n]; cbn; [by rewrite lift_err_bind..|rewrite lift_ok_bind].
  destruct (decide (0 < n)); cbn; [|done].
  destruct (reveal_pressed inp); cbn; [|done].
  destruct (choice _ _) as [club|e]; [rewrite lift_ok_bind|by rewrite lift_err_bind].
  destruct (s !! selection_key level) as [w|] eqn:Hw;
    [rewrite (get_bind _ _ _ _ Hw)|by rewrite get_bind_none].
  destruct w as [p|selection|m]; cbn; [by rewrite lift_err_bind| |by rewrite lift_err_bind].
  rewrite lift_ok_bind, put_bind.
  erewrite get_bind by (rewrite lookup_insert_ne by key_ne; exact Hv). cbn.
  rewrite lift_ok_bind, put_bind, emit_bind. cbn.
  apply I_reveals; [lia|]. by apply I_selection.
Qed.

Lemma play_again_invariant inp : preserves I I (Level.play_again inp).
Proof.
  unfold Level.play_again. preserving.
  apply preserves_for_each. intros k _. apply preserves_del; auto.
Qed.

Lemma restart_game_invariant inp start : preserves I I (Level.restart_game db inp start).
Proof.
  intros s Hs. rewrite (restart_game_run db inp start s _ (load_players_eq db start)).
  destruct (choice _ _) as [p|e].
  - by apply (I_restarted p s).
  - cbn [outcome state]. auto.
Qed.

Lemma check_answers_invariant inp level start answers :
  preserves I I (Level.check_answers db inp level start answers).
Proof.
  unfold Level.check_answers. preserving.
  - apply play_again_invariant.
  - apply restart_game_invariant.
Qed.

Lemma render_level_invariant inp level min_seasons start :
  1 ≤ level ≤ 10 → preserves I I (Level.render_level db inp level min_seasons start).
Proof.
  intros Hlevel. unfold Level.render_level. preserving.
  - by apply draw_player_invariant.
  - apply init_selection_invariant.
  - apply show_player_invariant.
  - apply read_selection_invariant.
  - apply reveal_invariant.
  - apply check_answers_invariant.
Qed.

Lemma play_levels_invariant inp difficulty levels :
  (∀ level, level ∈ levels → 1 ≤ level ≤ 10) →
  preserves I I (App.play_levels db inp difficulty levels).
Proof.
  induction levels as [|level levels IH]; intros Hlevels; cbn; [apply preserves_ret|].
  preserving.
  - apply render_level_invariant, Hlevels. left.
  - apply IH. intros l Hl. apply Hlevels. by right.
Qed.

Lemma init_reveals_invariant difficulty : preserves I I (App.init_reveals difficulty).
Proof.
  unfold App.init_reveals. preserving.
  - apply preserves_put. intros s Hs. apply I_reveals; [|done].
    apply reveals_per_difficulty_nonneg.
  - apply preserves_put. intros s Hs. apply I_difficulty; auto.
Qed.

Lemma change_difficulty_invariant difficulty :
  preserves I I (App.change_difficulty difficulty).
Proof.
  unfold App.change_difficulty. preserving.
  - apply preserves_for_each. intros lvl _. preserving; apply preserves_pop; auto.
  - apply preserves_put. intros s Hs. apply I_difficulty; auto.
Qed.

Lemma create_streamlit_app_invariant inp :
  preserves I I (App.create_streamlit_app db inp).
Proof.
  unfold App.create_streamlit_app, App.show_latest_game_date. preserving.
  - apply init_reveals_invariant.
  - apply preserves_put. intros s Hs. apply I_difficulty; auto.
  - apply change_difficulty_invariant.
  - apply play_levels_invariant. intros level Hl%elem_of_seqZ. lia.
Qed.

End AppInvariant.

(** ** Sessions that the application can reach *)

(** A session is reachable when passes of the script lead to it from the
    empty session; the database and what the widgets hand back may differ
    from one pass to the next. *)
Inductive reachable : session → Prop :=
| reachable_start : reachable ∅
| reachable_pass db inp s :
    reachable s → reachable (state (App.create_streamlit_app db inp s)).

Lemma reachable_invariant (I : session → Prop) :
  I ∅ →
  (∀ db inp, preserves I I (App.create_streamlit_app db inp)) →
  ∀ s, reachable s → I s.
Proof.
  intros Hstart Hpass s. induction 1 as [|db inp s _ IH]; [done|].
  specialize (Hpass db inp s IH). by destruct (outcome _).
Qed.

(** ** The reveal budget *)

(** The reveal counter, when it is set, is a non-negative integer. *)
Definition budget_ok (s : session) : Prop :=
  ∀ v, s !! "remaining_reveals" = Some v → ∃ n, v = VInt n ∧ 0 ≤ n.

Lemma budget_ok_frame (s s' : session) :
  s' !! "remaining_reveals" = s !! "remaining_reveals" ∨ s' !! "remaining_reveals" = None →
  budget_ok s → budget_ok s'.
Proof. intros [H|H] Hs v; rewrite H; [apply Hs|done]. Qed.

Lemma create_streamlit_app_budget db inp :
  preserves budget_ok budget_ok (App.create_streamlit_app db inp).
Proof.
  apply create_streamlit_app_invariant.
  - intros k s. apply budget_ok_frame. rewrite lookup_delete. case_decide; auto.
  - intros lvl v s. apply budget_ok_frame. left. by rewrite lookup_insert_ne by key_ne.
  - intros k v s [-> | ->]; apply budget_ok_frame; left; by rewrite lookup_insert_ne.
  - intros lvl p s _ Hs _ _. revert Hs. apply budget_ok_frame. left.
    by rewrite lookup_insert_ne by key_ne.
  - intros n s Hn _ v. rewrite lookup_insert_eq. intros [= <-]. eauto.
  - intros p s. apply budget_ok_frame. left. apply restarted_frame.
    intros lvl _. apply reveals_not_level_key.
Qed.

Lemma reveal_with_budget inp level answers (s : session) n selection :
  s !! "remaining_reveals" = Some (VInt n) →
  0 < n →
  reveal_pressed inp = true →
  s !! selection_key level = Some (VList selection) →
  answers ≠ [] →
  ∃ club,
    choice (reveal_draw inp) answers = Ok club ∧ club ∈ answers
    ∧ Level.reveal inp level answers s =
      Run Rerun
          (<["remaining_reveals" := VInt (n - 1)]>
             (<[selection_key level := VList (selection ++ [club])]> s))
          [Revealed club].
Proof.
  intros Hn Hpos Hpressed Hsel Hanswers.
  destruct (choice_nonempty (reveal_draw inp) answers Hanswers) as [club Hclub].
  exists club. split; [done|]. split; [by eapply choice_elem|].
  unfold Level.reveal. rewrite (get_bind _ _ _ _ Hn). cbn. rewrite lift_ok_bind.
  rewrite decide_True by done. rewrite Hpressed. cbn.
  rewrite Hclub, lift_ok_bind, (get_bind _ _ _ _ Hsel). cbn.
  rewrite lift_ok_bind, put_bind.
  erewrite get_bind by (rewrite lookup_insert_ne by key_ne; exact Hn). cbn.
  by rewrite lift_ok_bind, put_bind, emit_bind.
Qed.

Lemma reveal_without_budget inp level answers (s : session) n :
  s !! "remaining_reveals" = Some (VInt n) →
  n ≤ 0 →
  Level.reveal inp level answers s = Run (Done ()) s [NoRevealsRemaining].
Proof.
  intros Hn Hle. unfold Level.reveal. rewrite (get_bind _ _ _ _ Hn). cbn.
  rewrite lift_ok_bind. by rewrite decide_False by lia.
Qed.

(** C5. With a budget above 0, a reveal appends to the stored selection one
    club of the answers, whether it is already selected or not, takes 1 off
    the counter and reruns the script; each of the answers can be the one
    that comes out. With a budget of 0 the reveal button changes nothing,
    pressed or not. In every session that the application can reach the
    counter is not negative. *)
Theorem reveal_budget :
  (∀ inp level answers (s : session) n selection,
     s !! "remaining_reveals" = Some (VInt n) →
     0 < n →
     reveal_pressed inp = true →
     s !! selection_key level = Some (VList selection) →
     answers ≠ [] →
     (∃ club,
        choice (reveal_draw inp) answers = Ok club ∧ club ∈ answers
        ∧ Level.reveal inp level answers s =
          Run Rerun
              (<["remaining_reveals" := VInt (n - 1)]>
                 (<[selection_key level := VList (selection ++ [club])]> s))
              [Revealed club])
     ∧ ∀ club, club ∈ answers → ∃ draw, choice draw answers = Ok club)
  ∧ (∀ inp level answers (s : session),
       s !! "remaining_reveals" = Some (VInt 0) →
       Level.reveal inp level answers s = Run (Done ()) s [NoRevealsRemaining])
  ∧ (∀ s, reachable s → budget_ok s).
Proof.
  split; [|split].
  - intros inp level answers s n selection Hn Hpos Hpressed Hsel Hanswers.
    split; [by apply reveal_with_budget|]. intros club. apply choice_any.
  - intros inp level answers s Hn. by eapply reveal_without_budget.
  - apply reachable_invariant; [by intros v ?|]. apply create_streamlit_app_budget.
Qed.

Lemma reveal_budget_witness :
  (∃ club,
     choice 1 ["X"; "Y"] = Ok club ∧ club ∈ ["X"; "Y"]
     ∧ Level.reveal (LevelInput ["Y"] true false 0 1 0) 1 ["X"; "Y"]
         (<[selection_key 1 := VList ["Y"]]> sH) =
       Run Rerun
           (<["remaining_reveals" := VInt (1 - 1)]>
              (<[selection_key 1 := VList (["Y"] ++ [club])]>
                 (<[selection_key 1 := VList ["Y"]]> sH)))
           [Revealed club])
  ∧ Level.reveal (pick_and_reveal ["X"]) 1 ["X"; "Y"] (<["remaining_reveals" := VInt 0]> sH)
    = Run (Done ()) (<["remaining_reveals" := VInt 0]> sH) [NoRevealsRemaining].
Proof.
  split.
  - apply (proj1 reveal_budget (LevelInput ["Y"] true false 0 1 0) 1 ["X"; "Y"]
             (<[selection_key 1 := VList ["Y"]]> sH) 1 ["Y"]);
      [by vm_compute|lia|reflexivity|by vm_compute|discriminate].
  - apply (proj1 (proj2 reveal_budget)). by vm_compute.
Defined.

(** The scenario of the specification: one reveal left on the answers X, Y. *)
Example reveal_scenario :
  let r := Level.reveal (pick_and_reveal []) 1 ["X"; "Y"]
             (<[selection_key 1 := VList []]> sH) in
  outcome r = Rerun
  ∧ state r !! selection_key 1 = Some (VList ["X"])
  ∧ state r !! "remaining_reveals" = Some (VInt 0)
  ∧ Level.reveal (pick_and_reveal []) 1 ["X"; "Y"] (state r)
    = Run (Done ()) (state r) [NoRevealsRemaining].
Proof. by vm_compute. Qed.

(** ** One player per level *)



(** What [draw_player] does on a level without a player. *)
Lemma draw_player_run db inp level min_seasons (s : session) pool :
  Main.load_players db min_seasons = Ok pool →
  s !! player_key level = None →
  let title := LevelTitle level min_seasons
    (if decide (level ≠ 1) then Z.of_nat (length pool) - level else Z.of_nat (length pool)) in
  Level.draw_player db inp level min_seasons s =
  match choice (player_draw inp) (filter (λ p, VStr p ∉ session_values s) pool) with
  | Ok p => Run (Done ()) (<[player_key level := VStr p]> s) [title]
  | Err e => Run (Raise e) s [title]
  end.
Proof.
  intros Hpool Hnone. unfold Level.draw_player.
  rewrite Hpool, lift_ok_bind, values_bind, emit_bind, has_bind. cbn.
  rewrite Hnone, bool_decide_eq_false_2 by (by intros [??]). cbn.
  destruct (choice _ _) as [p|e]; [by rewrite lift_ok_bind|by rewrite lift_err_bind].
Qed.

(** What [draw_player] does on a level that has its player. *)
Lemma draw_player_assigned db inp level min_seasons (s : session) v :
  s !! player_key level = Some v →
  state (Level.draw_player db inp level min_seasons s) = s
  ∧ outcome (Level.draw_player db inp level min_seasons s) = Done ().
Proof.
  intros Hsome. unfold Level.draw_player.
  rewrite load_players_eq, lift_ok_bind, values_bind, emit_bind, has_bind. cbn.
  by rewrite Hsome, bool_decide_eq_true_2 by eauto.
Qed.

(** Level [k] holds the player [v]. *)
Definition assigned (k : Z) (v : value) (s : session) : Prop :=
  s !! player_key k = Some v.

Section Sticky.

Variables (k : Z) (v : value).

Lemma assigned_put key w :
  (∀ lvl, key ≠ player_key lvl) →
  preserves (assigned k v) (λ _, True) (put key w).
Proof.
  intros Hkey. apply preserves_put. intros s Hs. unfold assigned.
  by rewrite lookup_insert_ne by apply Hkey.
Qed.

Lemma draw_player_sticky db inp level min_seasons :
  preserves (assigned k v) (λ _, True) (Level.draw_player db inp level min_seasons).
Proof.
  intros s Hs. destruct (s !! player_key level) as [w|] eqn:Hlevel.
  - destruct (draw_player_assigned db inp level min_seasons s w Hlevel) as [-> ->]. done.
  - rewrite (draw_player_run db inp level min_seasons s _ (load_players_eq db _) Hlevel).
    destruct (choice _ _) as [p|e]; cbn; [|done].
    unfold assigned. rewrite lookup_insert_ne; [done|]. intros Heq.
    apply (inj player_key) in Heq as ->. unfold assigned in Hs. congruence.
Qed.

Lemma init_selection_sticky level :
  preserves (assigned k v) (λ _, True) (Level.init_selection level).
Proof. unfold Level.init_selection. preserving. apply assigned_put. intros lvl. key_ne. Qed.

Lemma show_player_sticky db level :
  preserves (assigned k v) (λ _, True) (Level.show_player db level).
Proof. unfold Level.show_player. preserving. Qed.

Lemma read_selection_sticky db inp level :
  preserves (assigned k v) (λ _, True) (Level.read_selection db inp level).
Proof. unfold Level.read_selection. preserving. apply assigned_put. intros lvl. key_ne. Qed.

Lemma reveal_sticky inp level answers :
  preserves (assigned k v) (λ _, True) (Level.reveal inp level answers).
Proof. unfold Level.reveal. preserving; apply assigned_put; intros lvl; key_ne. Qed.

Lemma check_answers_sticky db inp level start answers :
  preserves (assigned k v) (λ _, True) (Level.check_answers db inp level start answers).
Proof.
  unfold Level.check_answers. preserving.
  - intros s Hs. destruct (play_again_pressed inp) eqn:Hpressed.
    + pose proof (play_again_pressed_not_done inp s Hpressed).
      by destruct (outcome (Level.play_again inp s)) as [[]| |].
    + by rewrite play_again_not_pressed.
  - intros s Hs. pose proof (restart_game_not_done db inp start s).
    by destruct (outcome (Level.restart_game db inp start s)) as [[]| |].
Qed.

Lemma render_level_sticky db inp level min_seasons start :
  preserves (assigned k v) (λ _, True) (Level.render_level db inp level min_seasons start).
Proof.
  unfold Level.render_level. preserving.
  - apply draw_player_sticky.
  - apply init_selection_sticky.
  - apply show_player_sticky.
  - apply read_selection_sticky.
  - apply reveal_sticky.
  - apply check_answers_sticky.
Qed.

End Sticky.


(** ** Drawing from an empty pool *)

Lemma passes_reachable db inps s : reachable s → reachable (App.passes db inps s).
Proof.
  revert s. induction inps as [|inp inps IH]; intros s Hs; [done|].
  cbn. apply IH. by constructor.
Qed.

(** One player, with a single season. *)
Definition db_one_season : database := [ Row "A" "X" "Champions League" 1 100 ].

(** One player, with twenty seasons. *)
Definition db_one_player : database := [ Row "A" "X" "Champions League" 20 100 ].

(** C8. When a level has no player and every eligible player of its
    threshold is a value of the session state, or there is none,
    [render_level] raises [IndexError] at the draw and leaves the session as
    it was. This happens in sessions that the application reaches: on Hard
    with a database whose only player has one season (the threshold excludes
    everyone), and on Easy with a single eligible player, once level 1 is
    passed (the player is taken by level 1 when level 2 draws). *)
Theorem draw_from_empty_pool_fails :
  (∀ db inp level min_seasons start (s : session) pool,
     Main.load_players db min_seasons = Ok pool →
     s !! player_key level = None →
     filter (λ p, VStr p ∉ session_values s) pool = [] →
     outcome (Level.render_level db inp level min_seasons start s) = Raise IndexError
     ∧ state (Level.render_level db inp level min_seasons start s) = s)
  ∧ (reachable ∅
     ∧ outcome (App.create_streamlit_app db_one_season (AppInput false "Hard" (λ _, idle)) ∅)
       = Raise IndexError)
  ∧ (let s := App.passes db_one_player [AppInput false "Easy" (λ _, idle)] ∅ in
     reachable s
     ∧ s !! player_key 1 = Some (VStr "A")
     ∧ Main.load_players db_one_player 16 = Ok ["A"]
     ∧ outcome (App.create_streamlit_app db_one_player
                  (AppInput false "Easy" (λ _, pick ["X"])) s)
       = Raise IndexError).
Proof.
  split; [|split].
  - intros db inp level min_seasons start s pool Hpool Hnone Hempty.
    unfold Level.render_level. rewrite bind_run.
    rewrite (draw_player_run _ _ _ _ _ _ Hpool Hnone), Hempty. done.
  - split; [constructor|by vm_compute].
  - cbv zeta. split; [apply passes_reachable; constructor|].
    split; [by vm_compute|]. split; by vm_compute.
Qed.

Lemma draw_from_empty_pool_fails_witness :
  outcome (Level.render_level db_one_season idle 1 10 10 ∅) = Raise IndexError
  ∧ state (Level.render_level db_one_season idle 1 10 10 ∅) = ∅.
Proof.
  apply (proj1 draw_from_empty_pool_fails db_one_season idle 1 10 10 ∅ []);
    by vm_compute.
Defined.


(** * Further properties of the script *)

(** ** The data-access layer *)

Lemma sorted_spec (l : list string) :
  StronglySorted String.le (sorted l) ∧ sorted l ≡ₚ l.
Proof.
  split; [|apply merge_sort_Permutation].
  apply StronglySorted_merge_sort; apply _.
Qed.

Lemma elem_of_sorted (l : list string) x : x ∈ sorted l ↔ x ∈ l.
Proof. by rewrite (proj2 (sorted_spec l)). Qed.

(** A Champions League row of [db] for which [P] holds. *)
Definition cl_row (db : database) (P : row → Prop) : Prop :=
  ∃ r, r ∈ db ∧ competition_name r = "Champions League" ∧ P r.

Lemma champions_league_true r :
  champions_league r = true ↔ competition_name r = "Champions League".
Proof. unfold champions_league. by rewrite bool_decide_eq_true. Qed.

Lemma load_players_pool (db : database) (minimum_seasons : Z) :
  ∃ players,
    Main.load_players db minimum_seasons = Ok players
    ∧ StronglySorted String.le players
    ∧ NoDup players
    ∧ ∀ p, p ∈ players ↔
        cl_row db (λ r, player_name r = p ∧ minimum_seasons ≤ number_of_seasons r).
Proof.
  eexists. split; [apply load_players_eq|]. split; [apply sorted_spec|]. split.
  - rewrite (proj2 (sorted_spec _)). apply NoDup_remove_dups.
  - intros p. rewrite elem_of_sorted, elem_of_remove_dups, list_elem_of_fmap.
    unfold cl_row. split.
    + intros (r & -> & (Hcl & Hmin)%list_elem_of_filter).
      destruct Hcl as [Hcl Hseasons]. exists r.
      by rewrite <- champions_league_true.
    + intros (r & Hr & Hcl & <- & Hseasons). exists r. split; [done|].
      apply list_elem_of_filter. by rewrite champions_league_true.
Qed.

(** [load_players] returns, in ascending order and without repetition,
    exactly the players that have a Champions League row with at least
    [minimum_seasons] seasons. *)
Theorem load_players_eligible (db : database) (minimum_seasons : Z) :
  ∃ players,
    Main.load_players db minimum_seasons = Ok players
    ∧ StronglySorted String.le players
    ∧ NoDup players
    ∧ ∀ p, p ∈ players ↔
        cl_row db (λ r, player_name r = p ∧ minimum_seasons ≤ number_of_seasons r).
Proof. exact (load_players_pool db minimum_seasons). Qed.

(** The pool of a level contains the pool of every higher threshold. *)
Theorem load_players_antitone (db : database) (low high : Z) pool_low pool_high :
  low ≤ high →
  Main.load_players db low = Ok pool_low →
  Main.load_players db high = Ok pool_high →
  pool_high ⊆ pool_low.
Proof.
  intros Hle Hlow Hhigh p Hp.
  destruct (load_players_pool db low) as (pl & Hpl & _ & _ & Hin_low).
  destruct (load_players_pool db high) as (ph & Hph & _ & _ & Hin_high).
  rewrite Hpl in Hlow. rewrite Hph in Hhigh. injection Hlow as <-. injection Hhigh as <-.
  apply Hin_low. apply Hin_high in Hp as (r & Hr & Hcl & Hname & Hs).
  exists r. repeat split; try done. lia.
Qed.

Lemma load_players_antitone_witness :
  ["A"] ⊆ ["A"; "B"].
Proof.
  apply (load_players_antitone dbH 10 12); [lia|by vm_compute..].
Defined.

Lemma elem_of_rows_of db player t n :
  (t, n) ∈ rows_of db player ↔
  cl_row db (λ r, player_name r = player ∧ team_name r = t ∧ number_of_seasons r = n).
Proof.
  unfold rows_of, cl_row. rewrite elem_of_remove_dups, list_elem_of_fmap. split.
  - intros (r & [= -> ->] & ([Hcl Hname] & Hr)%list_elem_of_filter).
    exists r. by rewrite <- champions_league_true.
  - intros (r & Hr & Hcl & Hname & <- & <-). exists r. split; [done|].
    apply list_elem_of_filter. by rewrite champions_league_true.
Qed.

Lemma rows_of_nonempty db player :
  rows_of db player ≠ [] ↔ cl_row db (λ r, player_name r = player).
Proof.
  split.
  - destruct (rows_of db player) as [|[t n] rows] eqn:Hrows; [done|]. intros _.
    assert ((t, n) ∈ rows_of db player) as Hin by (rewrite Hrows; left).
    apply elem_of_rows_of in Hin as (r & Hr & Hcl & Hname & _). by exists r.
  - intros (r & Hr & Hcl & Hname) Hnil.
    assert ((team_name r, number_of_seasons r) ∈ rows_of db player) as Hin.
    { apply elem_of_rows_of. by exists r. }
    rewrite Hnil in Hin. by apply elem_of_nil in Hin.
Qed.

Lemma load_players_data_spec (db : database) (player : string) :
  (cl_row db (λ r, player_name r = player) →
     ∃ teams n,
       Main.load_players_data db player = Ok (teams, n)
       ∧ teams ≠ []
       ∧ StronglySorted String.le teams
       ∧ (∀ t, t ∈ teams ↔ cl_row db (λ r, player_name r = player ∧ team_name r = t))
       ∧ cl_row db (λ r, player_name r = player ∧ number_of_seasons r = n))
  ∧ (¬ cl_row db (λ r, player_name r = player) →
       Main.load_players_data db player = Err IndexError).
Proof.
  rewrite load_players_data_rows. split.
  - intros Hrow. apply rows_of_nonempty in Hrow.
    destruct (proj1 (season_count_is_smallest_mode db player) Hrow) as (teams & n & Hload).
    destruct (proj2 (season_count_is_smallest_mode db player) teams n Hload) as [[Hn _] _].
    rewrite load_players_data_rows in Hload.
    destruct (iat0 _) as [n'|]; [|done]. cbn in *. injection Hload as <- ->.
    exists (sorted (rows_of db player).*1), n. split; [done|]. split; [|split; [|split]].
    + intros Hnil. apply (f_equal length) in Hnil.
      rewrite (proj2 (sorted_spec _)), length_fmap in Hnil.
      by destruct (rows_of db player).
    + apply sorted_spec.
    + intros t. rewrite elem_of_sorted, list_elem_of_fmap. split.
      * intros ([t' n'] & -> & Hin). apply elem_of_rows_of in Hin as (r & ? & ? & ? & ? & ?).
        by exists r.
      * intros (r & Hr & Hcl & Hname & Hteam). exists (t, number_of_seasons r).
        split; [done|]. apply elem_of_rows_of. by exists r.
    + apply list_elem_of_fmap in Hn as ([t n'] & -> & Hin).
      apply elem_of_rows_of in Hin as (r & ? & ? & ? & ? & ?). by exists r.
  - intros Hnone. destruct (rows_of db player) as [|row rows] eqn:Hrows; [done|].
    destruct Hnone. apply rows_of_nonempty. by rewrite Hrows.
Qed.

(** A player with a Champions League row has a record: a non-empty list of
    clubs in ascending order, holding exactly the clubs of the player's rows,
    and a season count taken from one of these rows. A player without such a
    row has none: [load_players_data] raises [IndexError]. *)
Theorem load_players_data_record (db : database) (player : string) :
  (cl_row db (λ r, player_name r = player) →
     ∃ teams n,
       Main.load_players_data db player = Ok (teams, n)
       ∧ teams ≠ []
       ∧ StronglySorted String.le teams
       ∧ (∀ t, t ∈ teams ↔ cl_row db (λ r, player_name r = player ∧ team_name r = t))
       ∧ cl_row db (λ r, player_name r = player ∧ number_of_seasons r = n))
  ∧ (¬ cl_row db (λ r, player_name r = player) →
       Main.load_players_data db player = Err IndexError).
Proof. exact (load_players_data_spec db player). Qed.

Lemma load_players_data_record_witness :
  ∃ teams n, Main.load_players_data dbH "A" = Ok (teams, n) ∧ teams ≠ [].
Proof.
  destruct (proj1 (load_players_data_record dbH "A")) as (teams & n & H1 & H2 & _).
  - eexists (Row "A" "X" "Champions League" 12 100). split; [left|done].
  - by exists teams, n.
Defined.

(** The options of the picker are the clubs of every row, whatever the
    competition, in ascending order and without repetition; the answers of
    every player are among them. *)
Theorem answers_are_options (db : database) :
  ∃ options,
    Main.load_unique_teams db = Ok options
    ∧ StronglySorted String.le options
    ∧ NoDup options
    ∧ (∀ t, t ∈ options ↔ ∃ r, r ∈ db ∧ team_name r = t)
    ∧ ∀ player teams n,
        Main.load_players_data db player = Ok (teams, n) → teams ⊆ options.
Proof.
  eexists. split; [apply load_unique_teams_ok|]. split; [apply sorted_spec|].
  assert (∀ t, t ∈ sorted (remove_dups (team_name <$> db)) ↔ ∃ r, r ∈ db ∧ team_name r = t)
    as Hoptions.
  { intros t. rewrite elem_of_sorted, elem_of_remove_dups, list_elem_of_fmap.
    split; intros (r & ? & ?); by exists r. }
  split; [|split; [done|]].
  - rewrite (proj2 (sorted_spec _)). apply NoDup_remove_dups.
  - intros player teams n Hload t Ht. apply Hoptions.
    destruct (decide (rows_of db player = [])) as [Hnil|Hrows].
    { rewrite load_players_data_rows, Hnil in Hload. done. }
    apply rows_of_nonempty in Hrows.
    destruct (proj1 (load_players_data_spec db player) Hrows)
      as (teams' & n' & Hload' & _ & _ & Hteams & _).
    rewrite Hload' in Hload. injection Hload as -> ->.
    apply Hteams in Ht as (r & Hr & _ & _ & Hteam). by exists r.
Qed.

(** The latest game date is the greatest date of the Champions League rows;
    without such a row the query gives no date. *)
Theorem latest_game_date_is_greatest (db : database) :
  (cl_row db (λ _, True) →
     ∃ d, Main.load_latest_game_date db = Ok (Some d)
          ∧ cl_row db (λ r, game_date r = d)
          ∧ ∀ r, r ∈ db → competition_name r = "Champions League" → game_date r ≤ d)
  ∧ (¬ cl_row db (λ _, True) → Main.load_latest_game_date db = Ok None).
Proof.
  assert (∀ (d : Z) ds, foldr Z.max d ds ∈ d :: ds ∧ ∀ x, x ∈ d :: ds → x ≤ foldr Z.max d ds)
    as Hmax.
  { intros d ds. induction ds as [|y ds [IHin IHle]]; cbn.
    - split; [left|]. intros x ->%list_elem_of_singleton. lia.
    - split.
      + destruct (Z.max_spec y (foldr Z.max d ds)) as [[_ ->]|[_ ->]].
        * apply elem_of_cons in IHin as [->|Hin]; [left|right; by right].
        * right. left.
      + intros x [->|[->|Hx]%elem_of_cons]%elem_of_cons.
        * specialize (IHle d ltac:(left)). lia.
        * lia.
        * specialize (IHle x ltac:(by right)). lia. }
  assert (∀ d, d ∈ game_date <$> filter (λ r, champions_league r = true) db ↔
               cl_row db (λ r, game_date r = d)) as Hdates.
  { intros d. rewrite list_elem_of_fmap. unfold cl_row. split.
    - intros (r & -> & [Hcl Hr]%list_elem_of_filter). exists r.
      by rewrite <- champions_league_true.
    - intros (r & Hr & Hcl & <-). exists r. split; [done|].
      apply list_elem_of_filter. by rewrite champions_league_true. }
  unfold Main.load_latest_game_date. cbn.
  destruct (game_date <$> filter (λ r, champions_league r = true) db) as [|d ds] eqn:Hl.
  - split; [|done]. intros (r & Hr & Hcl & _).
    assert (game_date r ∈ @nil Z) as Hin by (apply Hdates; by exists r).
    by apply elem_of_nil in Hin.
  - split; [|intros Hnone; destruct Hnone].
    + intros _. exists (foldr Z.max d ds). split; [done|].
      destruct (Hmax d ds) as [Hin Hle]. split; [by apply Hdates|].
      intros r Hr Hcl. apply Hle, Hdates. by exists r.
    + assert (d ∈ d :: ds) as Hin by left.
      apply Hdates in Hin as (r & Hr & Hcl & _). by exists r.
Qed.

Lemma latest_game_date_is_greatest_witness :
  ∃ d, Main.load_latest_game_date dbH = Ok (Some d).
Proof.
  destruct (proj1 (latest_game_date_is_greatest dbH)) as (d & Hd & _).
  - eexists (Row "A" "X" "Champions League" 12 100). split; [left|done].
  - by exists d.
Defined.

(** Every player of a pool has a record in the same database, so that the
    level of a drawn player can be shown; the season count of the record meets
    the threshold of the pool when all the rows of the player do, and can be
    below it otherwise. *)
Theorem drawn_player_has_record :
  (∀ (db : database) (minimum_seasons : Z) pool p,
     Main.load_players db minimum_seasons = Ok pool →
     p ∈ pool →
     ∃ teams n,
       Main.load_players_data db p = Ok (teams, n)
       ∧ teams ≠ []
       ∧ ((∀ r, r ∈ db → competition_name r = "Champions League" → player_name r = p →
                minimum_seasons ≤ number_of_seasons r) →
          minimum_seasons ≤ n))
  ∧ (∃ (db : database) (minimum_seasons : Z) p teams n,
       Main.load_players db minimum_seasons = Ok [p]
       ∧ Main.load_players_data db p = Ok (teams, n)
       ∧ n < minimum_seasons).
Proof.
  split.
  - intros db minimum_seasons pool p Hpool Hp.
    destruct (load_players_pool db minimum_seasons) as (pool' & Hpool' & _ & _ & Hin).
    rewrite Hpool' in Hpool. injection Hpool as <-.
    apply Hin in Hp as (r & Hr & Hcl & Hname & Hseasons).
    destruct (proj1 (load_players_data_spec db p)) as (teams & n & Hload & Hne & _ & _ & Hn).
    { by exists r. }
    exists teams, n. split; [done|]. split; [done|].
    intros Hall. destruct Hn as (r' & Hr' & Hcl' & Hname' & <-). by apply Hall.
  - exists [Row "A" "X" "Champions League" 5 100; Row "A" "Y" "Champions League" 3 120],
      4, "A", ["X"; "Y"], 3.
    split; [by vm_compute|]. split; [by vm_compute|lia].
Qed.

Lemma drawn_player_has_record_witness :
  ∃ teams n, Main.load_players_data dbH "B" = Ok (teams, n) ∧ teams ≠ [].
Proof.
  destruct (proj1 drawn_player_has_record dbH 10 ["A"; "B"] "B") as (teams & n & H1 & H2 & _).
  - by vm_compute.
  - set_solver.
  - by exists teams, n.
Defined.

(** ** Selections with and without repeated clubs *)

Lemma size_list_to_set_le (l : list string) :
  (size (list_to_set l : gset string) ≤ length l)%nat.
Proof.
  induction l as [|x l IH]; cbn; [by rewrite size_empty|].
  rewrite size_union_alt, size_singleton.
  pose proof (subseteq_size (list_to_set l ∖ {[x]}) (list_to_set l : gset string)) as Hle.
  specialize (Hle ltac:(set_solver)). lia.
Qed.

Lemma size_list_to_set_NoDup (l : list string) :
  size (list_to_set l : gset string) = length l → NoDup l.
Proof.
  induction l as [|x l IH]; cbn; [constructor|]. intros Hsize.
  destruct (decide (x ∈ l)) as [Hin|Hnotin].
  - pose proof (size_list_to_set_le l) as Hle.
    replace ({[x]} ∪ list_to_set l : gset string) with (list_to_set l : gset string) in Hsize
      by set_solver.
    lia.
  - rewrite size_union, size_singleton in Hsize by set_solver.
    constructor; [done|]. apply IH. lia.
Qed.

(** A selection without repetition that matches the answers in length and as
    a set shows that the answers are without repetition too. *)
Lemma matching_selection_NoDup (selection answers : list string) :
  NoDup selection →
  length selection = length answers →
  list_to_set selection =@{gset string} list_to_set answers →
  NoDup answers.
Proof.
  intros Hnd Hlen Hset. apply size_list_to_set_NoDup.
  rewrite <- Hset, <- Hlen. by apply size_list_to_set.
Qed.

(** A wrong selection of the right length and without repeated club is told
    at least one wrong club: the verdict counts fewer correct clubs than there
    are answers, the wrong clubs are those selected that are no answer, and the
    two numbers add up to the number of answers. *)
Theorem wrong_selection_names_a_wrong_club db inp level start answers (s : session) selection :
  s !! selection_key level = Some (VList selection) →
  NoDup selection →
  length selection = length answers →
  list_to_set selection ≠@{gset string} list_to_set answers →
  ∃ n_correct (wrong : gset string),
    verdicts (Level.check_answers db inp level start answers s)
      = [Unlucky n_correct (length answers) wrong]
    ∧ wrong ≠ ∅
    ∧ (n_correct + size wrong = length answers)%nat
    ∧ (n_correct < length answers)%nat
    ∧ ∀ c, c ∈ wrong ↔ c ∈ selection ∧ c ∉ answers.
Proof.
  intros Hsel Hnd Hlen Hne.
  destruct (check_answers_incorrect db inp level start answers s _ Hsel Hlen Hne)
    as (Hv & _).
  eexists _, _. split; [exact Hv|].
  set (S := list_to_set selection : gset string).
  set (A := list_to_set answers : gset string).
  assert (size S = length answers) as HS.
  { unfold S. rewrite size_list_to_set by done. done. }
  assert (size (S ∩ A) + size (S ∖ A) = size S)%nat as Hsplit.
  { rewrite <- size_union by set_solver. f_equal. apply set_eq. intros c.
    destruct (decide (c ∈ A)); set_solver. }
  assert (S ∖ A ≠ ∅) as Hwrong.
  { intros Hempty. apply Hne. fold S A.
    assert (S ⊆ A) as Hsub.
    { intros c Hc. destruct (decide (c ∈ A)); [done|]. set_solver. }
    apply set_eq. intros c. split; [apply Hsub|]. intros Hc.
    destruct (decide (c ∈ S)) as [|Hnot]; [done|]. exfalso.
    assert (S ⊂ A) as Hstrict.
    { split; [done|]. intros Hsup. apply Hnot. by apply Hsup. }
    apply subset_size in Hstrict. pose proof (size_list_to_set_le answers). fold A in H. lia. }
  split; [done|]. split; [lia|]. split.
  - assert (size (S ∖ A) ≠ 0)%nat by (by intros ?%size_empty_inv%leibniz_equiv). lia.
  - intros c. unfold S, A. set_solver.
Qed.

Lemma wrong_selection_names_a_wrong_club_witness :
  ∃ n_correct (wrong : gset string),
    verdicts (Level.check_answers dbH (pick ["X"; "Z"]) 1 10 ["X"; "Y"] sH_wrong)
      = [Unlucky n_correct (length ["X"; "Y"]) wrong]
    ∧ wrong ≠ ∅.
Proof.
  destruct (wrong_selection_names_a_wrong_club dbH (pick ["X"; "Z"]) 1 10 ["X"; "Y"]
              sH_wrong ["X"; "Z"]) as (n & w & Hv & Hw & _).
  - by vm_compute.
  - repeat constructor; set_solver.
  - reflexivity.
  - intros Heq. assert ("Z" ∈@{gset string} list_to_set ["X"; "Y"]) as Hin.
    { rewrite <- Heq. set_solver. }
    set_solver.
  - exists n, w. split; [exact Hv|exact Hw].
Defined.

(** ** Play Again *)

Lemma for_each_del (l : list string) (s : session) :
  NoDup l →
  (∀ k, k ∈ l → is_Some (s !! k)) →
  ∃ s', for_each l del s = Run (Done ()) s' []
        ∧ ∀ k, s' !! k = if decide (k ∈ l) then None else s !! k.
Proof.
  revert s. induction l as [|x l IH]; intros s Hnd Hin.
  - exists s. split; [done|]. intros k. rewrite decide_False; [done|]. apply not_elem_of_nil.
  - apply NoDup_cons in Hnd as [Hx Hnd].
    destruct (Hin x ltac:(left)) as [v Hv].
    destruct (IH (delete x s) Hnd) as (s' & Hrun & Hlookup).
    { intros k Hk. rewrite lookup_delete_ne by (intros ->; done). apply Hin. by right. }
    exists s'. split.
    + cbn [for_each]. erewrite bind_step; [rewrite prepend_nil; exact Hrun|].
      unfold del. by rewrite Hv.
    + intros k. rewrite Hlookup, lookup_delete.
      repeat case_decide; try done; set_solver.
Qed.

(** Deleting every key of the session leaves the empty session. *)
Lemma clear_session (s : session) :
  (ks ← keys; for_each ks del) s = Run (Done ()) ∅ [].
Proof.
  erewrite bind_step by reflexivity. rewrite prepend_nil.
  destruct (for_each_del ((map_to_list s).*1) s) as (s' & -> & Hlookup).
  - apply NoDup_fst_map_to_list.
  - intros k [v Hkv]%list_elem_of_fmap. destruct Hkv as [-> Hkv].
    destruct v as [k v]. apply elem_of_map_to_list in Hkv. by exists v.
  - f_equal. apply map_eq. intros k. rewrite Hlookup, lookup_empty.
    case_decide as Hk; [done|].
    destruct (s !! k) as [v|] eqn:Hv; [|done]. destruct Hk.
    apply list_elem_of_fmap. exists (k, v). split; [done|]. by apply elem_of_map_to_list.
Qed.

Lemma play_again_clears inp (s : session) :
  play_again_pressed inp = true → Level.play_again inp s = Run Rerun ∅ [].
Proof.
  intros Hpressed. unfold Level.play_again. rewrite Hpressed. cbn [when].
  rewrite <- (bind_assoc keys (λ ks, for_each ks del) (λ _, rerun)).
  erewrite bind_step by apply clear_session. by rewrite prepend_nil.
Qed.

Lemma check_answers_correct_run db inp level start answers (s : session) selection :
  s !! selection_key level = Some (VList selection) →
  length selection = length answers →
  list_to_set selection =@{gset string} list_to_set answers →
  (level = 10 → play_again_pressed inp = true →
     Level.check_answers db inp level start answers s
     = Run Rerun ∅ [ThatIsCorrect; GameCompleted])
  ∧ (level = 10 → play_again_pressed inp = false →
     Level.check_answers db inp level start answers s
     = Run (Done true) s [ThatIsCorrect; GameCompleted])
  ∧ (level ≠ 10 →
     Level.check_answers db inp level start answers s = Run (Done true) s [ThatIsCorrect]).
Proof.
  intros Hsel Hlen Hset. unfold Level.check_answers.
  rewrite (get_bind _ _ _ _ Hsel). cbn [as_list]. rewrite lift_ok_bind.
  rewrite decide_True by done. rewrite decide_True by done.
  rewrite emit_bind.
  split; [|split].
  - intros -> Hpressed. rewrite bool_decide_eq_true_2 by done. cbn [when].
    rewrite bind_assoc, emit_bind, bind_run, (play_again_clears _ _ Hpressed). done.
  - intros -> Hpressed. rewrite bool_decide_eq_true_2 by done. cbn [when].
    rewrite bind_assoc, emit_bind, bind_run, (play_again_not_pressed _ _ Hpressed). done.
  - intros Hlevel. rewrite bool_decide_eq_false_2 by done. done.
Qed.

(** On a correct answer at level 10 the game is completed, and the Play Again
    button, when pressed, deletes every key of the session state and reruns
    the script; at another level the button does not exist: what it hands
    back is ignored and [check_answers] returns [True] with the session
    untouched. *)
Theorem play_again_restarts_from_scratch db inp level start answers (s : session) selection :
  s !! selection_key level = Some (VList selection) →
  length selection = length answers →
  list_to_set selection =@{gset string} list_to_set answers →
  (level = 10 → play_again_pressed inp = true →
     Level.check_answers db inp level start answers s
     = Run Rerun ∅ [ThatIsCorrect; GameCompleted])
  ∧ (level = 10 → play_again_pressed inp = false →
     Level.check_answers db inp level start answers s
     = Run (Done true) s [ThatIsCorrect; GameCompleted])
  ∧ (level ≠ 10 →
     Level.check_answers db inp level start answers s = Run (Done true) s [ThatIsCorrect]).
Proof. exact (check_answers_correct_run db inp level start answers s selection). Qed.

Lemma play_again_restarts_from_scratch_witness :
  Level.check_answers dbH (LevelInput ["Y"; "X"] false true 0 0 0) 10 10 ["X"; "Y"]
    (<[selection_key 10 := VList ["Y"; "X"]]> sH)
  = Run Rerun ∅ [ThatIsCorrect; GameCompleted].
Proof.
  apply (proj1 (play_again_restarts_from_scratch dbH (LevelInput ["Y"; "X"] false true 0 0 0)
                  10 10 ["X"; "Y"] (<[selection_key 10 := VList ["Y"; "X"]]> sH) ["Y"; "X"]
                  ltac:(by vm_compute) eq_refl ltac:(set_solver))); reflexivity.
Defined.

(** ** What [render_level] returns *)

Lemma bind_outcome_done {A B} (m : M A) (f : A → M B) s b :
  outcome ((m ≫= f) s) = Done b →
  ∃ a s1 l1, m s = Run (Done a) s1 l1 ∧ outcome (f a s1) = Done b
             ∧ state ((m ≫= f) s) = state (f a s1).
Proof.
  rewrite bind_run. destruct (m s) as [[a| |e] s1 l1]; cbn; [|done..].
  intros H. by exists a, s1, l1.
Qed.

Lemma show_player_done db level (s s' : session) answers log :
  Level.show_player db level s = Run (Done answers) s' log →
  s' = s ∧ ∃ p n, s !! player_key level = Some (VStr p)
                  ∧ Main.load_players_data db p = Ok (answers, n).
Proof.
  unfold Level.show_player.
  destruct (s !! player_key level) as [v|] eqn:Hv;
    [rewrite (get_bind _ _ _ _ Hv)|by rewrite get_bind_none].
  destruct v as [p|l|n]; cbn [as_str]; [rewrite lift_ok_bind|by rewrite lift_err_bind..].
  destruct (Main.load_players_data db p) as [[teams n]|e] eqn:Hload;
    [rewrite lift_ok_bind|by rewrite lift_err_bind].
  rewrite emit_bind. intros H.
  assert (s' = s ∧ answers = teams) as [-> ->].
  { destruct (decide (length teams = 1%nat)); cbn in H;
      rewrite emit_bind in H; cbn in H; by injection H as -> ->. }
  split; [done|]. by exists p, n.
Qed.

Lemma render_level_result db inp level min_seasons start (s : session) :
  let r := Level.render_level db inp level min_seasons start s in
  (verdicts r = [] ∨ verdicts r = [ThatIsCorrect] ∨ ∃ c n w, verdicts r = [Unlucky c n w])
  ∧ (outcome r = Done true →
       verdicts r = [ThatIsCorrect]
       ∧ state r !! selection_key level = Some (VList (picked inp))
       ∧ ∃ p answers n,
           state r !! player_key level = Some (VStr p)
           ∧ Main.load_players_data db p = Ok (answers, n)
           ∧ length (picked inp) = length answers
           ∧ list_to_set (picked inp) =@{gset string} list_to_set answers)
  ∧ (outcome r = Done false → verdicts r = [])
  ∧ ((∃ c n w, verdicts r = [Unlucky c n w]) → ∀ b, outcome r ≠ Done b).
Proof.
  intros r.
  destruct (prepare_level db inp level min_seasons s) as [o s1 log] eqn:Hprep.
  destruct o as [answers| |e].
  - destruct (render_level_after_prepare db inp level min_seasons start _ _ _ _ Hprep)
      as (Ho & Hs & _ & Hv). fold r in Ho, Hs, Hv. rewrite Ho, Hv, Hs.
    destruct (prepare_level_done _ _ _ _ _ _ _ _ Hprep) as [Hsel _].
    assert (∃ p n, s1 !! player_key level = Some (VStr p)
                   ∧ Main.load_players_data db p = Ok (answers, n)) as (p & n & Hp & Hload).
    { unfold prepare_level in Hprep.
      apply bind_done_inv in Hprep as (? & sa & la & la' & _ & H & _).
      apply bind_done_inv in H as (? & sb & lb & lb' & _ & H & _).
      apply bind_done_inv in H as (level_answers & sc & lc & lc' & Hshow & H & _).
      apply bind_done_inv in H as (? & sd & ld & ld' & Hread & H & _).
      apply bind_done_inv in H as ([] & se & le & le' & Hreveal & H & _).
      unfold mret, M_ret in H. simplify_eq. apply reveal_done in Hreveal as ->.
      apply show_player_done in Hshow as (-> & p & n & Hp & Hload).
      unfold Level.read_selection in Hread.
      rewrite load_unique_teams_ok, lift_ok_bind in Hread.
      unfold put in Hread. simplify_eq.
      exists p, n. split; [|done]. by rewrite lookup_insert_ne by key_ne. }
    destruct (decide (length (picked inp) = length answers)) as [Hlen|Hlen].
    + destruct (decide (list_to_set (picked inp) =@{gset string} list_to_set answers))
        as [Heq|Hne].
      * destruct (check_answers_correct db inp level start answers s1 _ Hsel Hlen Heq)
          as [Hvc _]. cbv zeta in Hvc. rewrite Hvc.
        destruct (check_answers_correct_run db inp level start answers s1 _
                    Hsel Hlen Heq) as (Hpressed & Hidle & Hother).
        split; [right; by left|]. split; [|split; [|by intros (c & n' & w & [=])]].
        { intros Htrue. split; [done|].
          destruct (decide (level = 10)) as [Hlevel|Hlevel];
            [destruct (play_again_pressed inp) eqn:Hp'|].
          - rewrite Hpressed in Htrue by done. done.
          - rewrite Hidle by done. split; [done|]. by exists p, answers, n.
          - rewrite Hother by done. split; [done|]. by exists p, answers, n. }
        intros Hfalse.
        destruct (decide (level = 10)) as [Hlevel|Hlevel];
          [destruct (play_again_pressed inp) eqn:Hp'|].
        -- rewrite Hpressed in Hfalse by done. done.
        -- rewrite Hidle in Hfalse by done. done.
        -- rewrite Hother in Hfalse by done. done.
      * destruct (check_answers_incorrect db inp level start answers s1 _ Hsel Hlen Hne)
          as (Hvc & _ & _ & _ & _ & Hnd). cbv zeta in Hvc, Hnd. rewrite Hvc.
        split; [right; right; eauto|]. split; [intros H; by destruct (Hnd true)|].
        split; [intros H; by destruct (Hnd false)|]. intros _. exact Hnd.
    + rewrite (check_answers_short db inp level start answers s1 _ Hsel Hlen).
      unfold verdicts. cbn [shown outcome state filter list_filter].
      split; [by left|]. split; [done|]. split; [done|]. by intros (c & n' & w & [=]).
  - unfold r. rewrite render_level_split.
    destruct (bind_stop _ (Level.check_answers db inp level start) s _ _ _ Hprep)
      as (Ho & _ & Hshown); [done|].
    unfold verdicts. rewrite Ho, Hshown.
    pose proof (prepare_level_no_verdict db inp level min_seasons s) as Hnv.
    rewrite Hprep in Hnv. cbn [shown] in Hnv. rewrite (filter_no_verdict _ Hnv).
    split; [by left|]. split; [done|]. split; [done|]. by intros (c & n' & w & [=]).
  - unfold r. rewrite render_level_split.
    destruct (bind_stop _ (Level.check_answers db inp level start) s _ _ _ Hprep)
      as (Ho & _ & Hshown); [done|].
    unfold verdicts. rewrite Ho, Hshown.
    pose proof (prepare_level_no_verdict db inp level min_seasons s) as Hnv.
    rewrite Hprep in Hnv. cbn [shown] in Hnv. rewrite (filter_no_verdict _ Hnv).
    split; [by left|]. split; [done|]. split; [done|]. by intros (c & n' & w & [=]).
Qed.

(** The verdict of a pass of [render_level] and what it returns. There is at
    most one verdict. The pass returns [True] only on the verdict "correct",
    with the picker's clubs stored as the selection of the level, and these
    are then, in number and as a set, the clubs of the record of the level's
    player. It returns [False] only without verdict, and after the verdict
    "incorrect" it does not return. *)
Theorem render_level_returns db inp level min_seasons start (s : session) :
  let r := Level.render_level db inp level min_seasons start s in
  (verdicts r = [] ∨ verdicts r = [ThatIsCorrect] ∨ ∃ c n w, verdicts r = [Unlucky c n w])
  ∧ (outcome r = Done true →
       verdicts r = [ThatIsCorrect]
       ∧ state r !! selection_key level = Some (VList (picked inp))
       ∧ ∃ p answers n,
           state r !! player_key level = Some (VStr p)
           ∧ Main.load_players_data db p = Ok (answers, n)
           ∧ length (picked inp) = length answers
           ∧ list_to_set (picked inp) =@{gset string} list_to_set answers)
  ∧ (outcome r = Done false → verdicts r = [])
  ∧ ((∃ c n w, verdicts r = [Unlucky c n w]) → ∀ b, outcome r ≠ Done b).
Proof. exact (render_level_result db inp level min_seasons start s). Qed.

(** A record lists a club once for each season count that the rows of the
    player give it, so a club can be repeated among the answers. A level with
    a repeated answer is not passed by a selection without repetition. *)
Theorem repeated_answer_blocks_the_level :
  (∀ db inp level min_seasons start (s : session) p answers n,
     s !! player_key level = Some (VStr p) →
     Main.load_players_data db p = Ok (answers, n) →
     ¬ NoDup answers →
     NoDup (picked inp) →
     outcome (Level.render_level db inp level min_seasons start s) ≠ Done true)
  ∧ (∃ (db : database) p answers n,
       Main.load_players_data db p = Ok (answers, n) ∧ ¬ NoDup answers).
Proof.
  split.
  - intros db inp level min_seasons start s p answers n Hp Hload Hdup Hnd Htrue.
    destruct (render_level_result db inp level min_seasons start s)
      as (_ & Hret & _). cbv zeta in Hret.
    destruct (Hret Htrue) as (_ & _ & p' & answers' & n' & Hp' & Hload' & Hlen & Hset).
    pose proof (render_level_sticky level (VStr p) db inp level min_seasons start s Hp) as Hkeep.
    rewrite Htrue in Hkeep. unfold assigned in Hkeep.
    rewrite Hkeep in Hp'. injection Hp' as <-.
    rewrite Hload in Hload'. injection Hload' as <- <-.
    apply Hdup. by eapply matching_selection_NoDup.
  - exists [Row "A" "T" "Champions League" 5 100; Row "A" "T" "Champions League" 6 120],
      "A", ["T"; "T"], 5.
    split; [by vm_compute|]. intros Hnd. apply NoDup_cons in Hnd as [Hnotin _]. set_solver.
Qed.

Lemma repeated_answer_blocks_the_level_witness :
  outcome (Level.render_level
             [Row "A" "T" "Champions League" 5 100; Row "A" "T" "Champions League" 6 120]
             (pick ["T"]) 1 5 5 {[ player_key 1 := VStr "A"; "remaining_reveals" := VInt 0 ]})
  ≠ Done true.
Proof.
  apply (proj1 repeated_answer_blocks_the_level _ _ _ _ _ _ "A" ["T"; "T"] 5).
  - by vm_compute.
  - by vm_compute.
  - intros Hnd. apply NoDup_cons in Hnd as [Hnotin _]. set_solver.
  - repeat constructor. set_solver.
Defined.

(** ** What a pass of [render_level] writes *)

Section Frame.

Variables (level : Z) (key : string) (v0 : option value).
Hypothesis key_not_selection : key ≠ selection_key level.
Hypothesis key_not_player : key ≠ player_key level.

(** The value under [key] is [v0]. *)
Definition holds (s : session) : Prop := s !! key = v0.

Lemma holds_put k w :
  k ≠ key → preserves holds (λ _, True) (put k w).
Proof.
  intros Hk. apply preserves_put. intros s Hs. unfold holds.
  by rewrite lookup_insert_ne.
Qed.

Lemma draw_player_frame db inp min_seasons :
  preserves holds (λ _, True) (Level.draw_player db inp level min_seasons).
Proof.
  intros s Hs. destruct (s !! player_key level) as [w|] eqn:Hlevel.
  - destruct (draw_player_assigned db inp level min_seasons s w Hlevel) as [-> ->]. done.
  - rewrite (draw_player_run db inp level min_seasons s _ (load_players_eq db _) Hlevel).
    destruct (choice _ _) as [p|e]; cbn; [|done].
    unfold holds. by rewrite lookup_insert_ne.
Qed.

Lemma init_selection_frame : preserves holds (λ _, True) (Level.init_selection level).
Proof. unfold Level.init_selection. preserving. by apply holds_put. Qed.

Lemma show_player_frame db : preserves holds (λ _, True) (Level.show_player db level).
Proof. unfold Level.show_player. preserving. Qed.

Lemma read_selection_frame db inp :
  preserves holds (λ _, True) (Level.read_selection db inp level).
Proof. unfold Level.read_selection. preserving. by apply holds_put. Qed.

Lemma reveal_frame inp answers :
  preserves holds (λ _, True) (Level.reveal inp level answers).
Proof.
  intros s Hs. destruct (Level.reveal inp level answers s) as [[[]| |e] s' log] eqn:Hrun; [|done..].
  apply reveal_done in Hrun as ->. done.
Qed.

Lemma check_answers_frame db inp start answers :
  preserves holds (λ _, True) (Level.check_answers db inp level start answers).
Proof.
  unfold Level.check_answers. preserving.
  - intros s Hs. destruct (play_again_pressed inp) eqn:Hpressed.
    + by rewrite play_again_clears.
    + by rewrite play_again_not_pressed.
  - intros s Hs. pose proof (restart_game_not_done db inp start s).
    by destruct (outcome (Level.restart_game db inp start s)) as [[]| |].
Qed.

Lemma render_level_frame db inp min_seasons start :
  preserves holds (λ _, True) (Level.render_level db inp level min_seasons start).
Proof.
  unfold Level.render_level. preserving.
  - apply draw_player_frame.
  - apply init_selection_frame.
  - apply show_player_frame.
  - apply read_selection_frame.
  - apply reveal_frame.
  - apply check_answers_frame.
Qed.

End Frame.

(** The key under which Streamlit registers the reveal button of a level
    ([key=f"reveal_button_{level}"], line 234); the picker of the level is
    registered under [multiselect_key]. *)
Definition reveal_button_key (level : Z) : string := "reveal_button_" +:+ pretty level.

(** A pass of [render_level] that returns has written the selection of its
    level and, when the level had none, its player. Of the other keys, those
    that Streamlit keeps for the two keyed widgets of the level set aside,
    every one is as it was: the reveal counter, the difficulty, the players
    and selections of the other levels and the widget keys of the other
    levels. *)
Theorem render_level_writes_its_level db inp level min_seasons start (s : session) b :
  outcome (Level.render_level db inp level min_seasons start s) = Done b →
  state (Level.render_level db inp level min_seasons start s) !! selection_key level
    = Some (VList (picked inp))
  ∧ ∀ key,
      key ≠ selection_key level →
      key ≠ multiselect_key level →
      key ≠ reveal_button_key level →
      key ≠ player_key level ∨ is_Some (s !! key) →
      state (Level.render_level db inp level min_seasons start s) !! key = s !! key.
Proof.
  intros Hdone. split.
  - rewrite render_level_split in Hdone |- *.
    apply bind_outcome_done in Hdone as (answers & s1 & l1 & Hprep & Hcheck & ->).
    destruct (prepare_level_done _ _ _ _ _ _ _ _ Hprep) as [Hsel _].
    pose proof (check_answers_frame level (selection_key level) (Some (VList (picked inp)))
                  db inp start answers s1 Hsel) as Hkeep.
    by rewrite Hcheck in Hkeep.
  - intros key Hsel _ _ [Hplayer|[v Hv]].
    + pose proof (render_level_frame level key (s !! key) Hsel Hplayer
                    db inp min_seasons start s eq_refl) as Hkeep.
      by rewrite Hdone in Hkeep.
    + destruct (decide (key = player_key level)) as [->|Hplayer].
      * pose proof (render_level_sticky level v db inp level min_seasons start s Hv) as Hkeep.
        rewrite Hdone in Hkeep. unfold assigned in Hkeep. by rewrite Hkeep, Hv.
      * pose proof (render_level_frame level key (s !! key) Hsel Hplayer
                      db inp min_seasons start s eq_refl) as Hkeep.
        by rewrite Hdone in Hkeep.
Qed.

Lemma render_level_writes_its_level_witness :
  state (Level.render_level dbH (pick ["X"]) 1 10 10 sH) !! selection_key 1
  = Some (VList ["X"])
  ∧ state (Level.render_level dbH (pick ["X"]) 1 10 10 sH) !! "remaining_reveals"
    = sH !! "remaining_reveals".
Proof.
  destruct (render_level_writes_its_level dbH (pick ["X"]) 1 10 10 sH false
              ltac:(by vm_compute)) as [Hselection Hframe].
  split; [exact Hselection|].
  apply Hframe; [discriminate..|]. left. discriminate.
Defined.

(** ** The levels of a pass *)

(** The level that a title announces. *)
Definition title_of (e : event) : option Z :=
  match e with
  | LevelTitle k _ _ => Some k
  | _ => None
  end.

(** The levels rendered during a pass, in the order of their titles. *)
Definition titles {A} (r : run A) : list Z := omap title_of (shown r).

(** A message that is no title, no verdict and not the completion of the
    game. *)
Definition plain (e : event) : Prop :=
  title_of e = None ∧ is_verdict e = false ∧ e ≠ GameCompleted.

(** The messages [log] of the levels [L]: the first [m] levels were rendered,
    in order; all of them but the last got the verdict "correct", the last
    got at most one verdict; when the game is completed, level 10 is among
    them and all got the verdict "correct". *)
Definition levels_shape (L : list Z) (log : list event) : Prop :=
  ∃ m, (m ≤ length L)%nat
    ∧ omap title_of log = take m L
    ∧ (∃ tail, filter is_verdict log = replicate (pred m) ThatIsCorrect ++ tail
               ∧ (length tail ≤ Nat.min 1 m)%nat)
    ∧ (GameCompleted ∈ log →
         filter is_verdict log = replicate m ThatIsCorrect ∧ 10 ∈ take m L).

Lemma plain_prefix (l1 l2 : list event) :
  Forall plain l1 →
  omap title_of (l1 ++ l2) = omap title_of l2
  ∧ filter is_verdict (l1 ++ l2) = filter is_verdict l2
  ∧ (GameCompleted ∈ l1 ++ l2 → GameCompleted ∈ l2).
Proof.
  induction 1 as [|e l1 (Ht & Hv & Hg) _ (IHt & IHv & IHg)]; [done|].
  change ((e :: l1) ++ l2) with (e :: (l1 ++ l2)). split; [|split].
  - rewrite <- IHt. cbn. by rewrite Ht.
  - rewrite filter_cons_False; [done|]. rewrite Hv. by intros [].
  - intros [Heq|Hin]%elem_of_cons; [by destruct Hg|]. by apply IHg.
Qed.

Lemma levels_shape_nil L : levels_shape L [].
Proof.
  exists 0%nat. split; [lia|]. split; [done|]. split.
  - by exists [].
  - by intros ?%elem_of_nil.
Qed.

Lemma levels_shape_plain L l1 l2 :
  Forall plain l1 → levels_shape L l2 → levels_shape L (l1 ++ l2).
Proof.
  intros Hplain (m & Hm & Ht & Hv & Hg).
  destruct (plain_prefix l1 l2 Hplain) as (Ht' & Hv' & Hg').
  exists m. rewrite Ht', Hv'. split; [done|]. split; [done|]. split; [done|].
  intros Hin. by apply Hg, Hg'.
Qed.

(** [logs P m]: the messages of every run of [m] satisfy [P]. *)
Definition logs (P : list event → Prop) {A} (m : M A) : Prop := ∀ s, P (shown (m s)).

Lemma logs_bind_plain L {A B} (m : M A) (f : A → M B) :
  shows plain m → (∀ a, logs (levels_shape L) (f a)) → logs (levels_shape L) (m ≫= f).
Proof.
  intros Hm Hf s. rewrite bind_run. specialize (Hm s).
  destruct (outcome (m s)) as [a| |e]; cbn [shown].
  - apply levels_shape_plain; [done|]. apply Hf.
  - rewrite <- (right_id_L [] (++) (shown (m s))).
    apply levels_shape_plain; [done|apply levels_shape_nil].
  - rewrite <- (right_id_L [] (++) (shown (m s))).
    apply levels_shape_plain; [done|apply levels_shape_nil].
Qed.

Lemma draw_player_shown db inp level min_seasons (s : session) :
  ∃ n, shown (Level.draw_player db inp level min_seasons s) = [LevelTitle level min_seasons n].
Proof.
  unfold Level.draw_player.
  rewrite load_players_eq, lift_ok_bind, values_bind, emit_bind, has_bind.
  eexists. cbn [prepend shown].
  destruct (bool_decide _); cbn [negb when]; [done|].
  destruct (choice _ _) as [p|e]; [by rewrite lift_ok_bind|by rewrite lift_err_bind].
Qed.

Lemma render_level_titles db inp level min_seasons start (s : session) :
  titles (Level.render_level db inp level min_seasons start s) = [level].
Proof.
  unfold titles, Level.render_level. rewrite bind_run.
  destruct (draw_player_shown db inp level min_seasons s) as [n Hshown].
  assert (shows (λ e, title_of e = None)
            (Level.init_selection level ;;
             level_answers ← Level.show_player db level;
             Level.read_selection db inp level ;;
             Level.reveal inp level level_answers ;;
             Level.check_answers db inp level start level_answers)) as Hrest.
  { unfold Level.init_selection, Level.show_player, Level.read_selection, Level.reveal,
      Level.check_answers, Level.restart_game, Level.restart_level, Level.play_again.
    showing; done. }
  destruct (outcome (Level.draw_player db inp level min_seasons s)) as [[]| |e];
    cbn [shown]; rewrite Hshown; [|done..].
  cbn. f_equal.
  specialize (Hrest (state (Level.draw_player db inp level min_seasons s))).
  induction Hrest as [|e l He _ IH]; [done|]. cbn. by rewrite He.
Qed.

Lemma check_answers_incorrect_shown db inp level start answers (s : session) selection :
  s !! selection_key level = Some (VList selection) →
  length selection = length answers →
  list_to_set selection ≠@{gset string} list_to_set answers →
  GameCompleted ∉ shown (Level.check_answers db inp level start answers s).
Proof.
  intros Hsel Hlen Hne.
  assert (shows (λ e, e ≠ GameCompleted)
            (emit (Unlucky (size (list_to_set selection ∩ list_to_set answers : gset string))
                           (length answers)
                           (list_to_set selection ∖ list_to_set answers)) ;;
             emit Restarting ;;
             Level.restart_game db inp start ;;
             mret false)) as Hshows.
  { unfold Level.restart_game, Level.restart_level. showing; done. }
  unfold Level.check_answers.
  rewrite (get_bind _ _ _ _ Hsel). cbn [as_list]. rewrite lift_ok_bind.
  rewrite decide_True by done. rewrite decide_False by done.
  specialize (Hshows s). rewrite Forall_forall in Hshows.
  intros Hin. by apply (Hshows _ Hin).
Qed.

Lemma prepare_level_plain db inp level min_seasons (s : session) :
  GameCompleted ∉ shown (prepare_level db inp level min_seasons s).
Proof.
  assert (shows (λ e, e ≠ GameCompleted) (prepare_level db inp level min_seasons)) as Hshows.
  { unfold prepare_level, Level.draw_player, Level.init_selection, Level.show_player,
      Level.read_selection, Level.reveal.
    showing; done. }
  specialize (Hshows s). rewrite Forall_forall in Hshows.
  intros Hin. by apply (Hshows _ Hin).
Qed.

(** The game is only completed by a correct answer at level 10. *)
Lemma render_level_completed db inp level min_seasons start (s : session) :
  GameCompleted ∈ shown (Level.render_level db inp level min_seasons start s) →
  level = 10 ∧ verdicts (Level.render_level db inp level min_seasons start s) = [ThatIsCorrect].
Proof.
  intros Hin.
  pose proof (prepare_level_plain db inp level min_seasons s) as Hplain.
  destruct (prepare_level db inp level min_seasons s) as [o s1 log] eqn:Hprep.
  destruct o as [answers| |e].
  - destruct (render_level_after_prepare db inp level min_seasons start _ _ _ _ Hprep)
      as (_ & _ & Hshown & Hv). cbv zeta in Hshown, Hv. rewrite Hv. rewrite Hshown in Hin.
    apply elem_of_app in Hin as [Hin|Hin]; [done|].
    destruct (prepare_level_done _ _ _ _ _ _ _ _ Hprep) as [Hsel _].
    destruct (decide (length (picked inp) = length answers)) as [Hlen|Hlen].
    + destruct (decide (list_to_set (picked inp) =@{gset string} list_to_set answers))
        as [Heq|Hne].
      * destruct (check_answers_correct db inp level start answers s1 _ Hsel Hlen Heq)
          as [Hvc _]. split; [|exact Hvc].
        destruct (decide (level = 10)) as [|Hlevel]; [done|].
        destruct (check_answers_correct_run db inp level start answers s1 _
                    Hsel Hlen Heq) as (_ & _ & Hother).
        rewrite Hother in Hin by done. cbn [shown] in Hin.
        by apply list_elem_of_singleton in Hin.
      * by destruct (check_answers_incorrect_shown db inp level start answers s1 _
                       Hsel Hlen Hne).
    + rewrite (check_answers_short db inp level start answers s1 _ Hsel Hlen) in Hin.
      by apply elem_of_nil in Hin.
  - rewrite render_level_split in Hin.
    destruct (bind_stop _ (Level.check_answers db inp level start) s _ _ _ Hprep)
      as (_ & _ & Hshown); [done|]. by rewrite Hshown in Hin.
  - rewrite render_level_split in Hin.
    destruct (bind_stop _ (Level.check_answers db inp level start) s _ _ _ Hprep)
      as (_ & _ & Hshown); [done|]. by rewrite Hshown in Hin.
Qed.

Lemma filter_app_verdict (l1 l2 : list event) :
  filter is_verdict (l1 ++ l2) = filter is_verdict l1 ++ filter is_verdict l2.
Proof. apply filter_app. Qed.

Lemma play_levels_shape db inp difficulty L :
  (∀ i, L !! i = Some 10 → S i = length L) →
  logs (levels_shape L) (App.play_levels db inp difficulty L).
Proof.
  induction L as [|level rest IH]; intros Hten s; [apply levels_shape_nil|].
  cbn [App.play_levels]. rewrite bind_run.
  destruct (App.level_min_seasons difficulty level) as [min_seasons|e]; cbn;
    [|apply levels_shape_nil].
  rewrite bind_run. destruct (dict_get _ _) as [start|e]; cbn; [|apply levels_shape_nil].
  rewrite bind_run.
  pose proof (render_level_titles db (level_inputs inp level) level min_seasons start s) as Ht.
  pose proof (render_level_result db (level_inputs inp level) level min_seasons start s)
    as (Hone & Htrue & _). cbv zeta in Hone, Htrue.
  pose proof (render_level_completed db (level_inputs inp level) level min_seasons start s)
    as Hcompleted.
  unfold titles, verdicts in *.
  destruct (Level.render_level db (level_inputs inp level) level min_seasons start s)
    as [o s1 l1]. cbn [outcome state shown] in *.
  assert (o = Done true ∨ o ≠ Done true) as [->|Hother].
  { destruct o as [[]| |]; auto; right; done. }
  - (* the level is passed: the next ones follow *)
    destruct (Htrue eq_refl) as (Hv1 & _).
    assert (∀ i, rest !! i = Some 10 → S i = length rest) as Hten'.
    { intros i Hi. specialize (Hten (S i) Hi). cbn in Hten. lia. }
    destruct (IH Hten' s1) as (m & Hm & Htitles & (tail & Hverdicts & Htail) & Hgame).
    cbn [shown].
    exists (S m). split; [cbn; lia|]. split; [|split].
    + rewrite omap_app, Ht, Htitles. done.
    + rewrite filter_app_verdict, Hv1, Hverdicts. cbn [pred].
      destruct m as [|m].
      * destruct tail; [|cbn in Htail; lia]. exists [ThatIsCorrect]. split; [done|cbn; lia].
      * exists tail. split; [done|]. cbn in Htail |- *. lia.
    + rewrite filter_app_verdict, Hv1.
      intros [Hin|Hin]%elem_of_app.
      * destruct (Hcompleted Hin) as [-> _].
        specialize (Hten 0%nat eq_refl). cbn in Hten.
        destruct rest; [|cbn in Hten; lia].
        destruct m; [|cbn in Hm; lia].
        split; [done|]. cbn. set_solver.
      * destruct (Hgame Hin) as [-> Hin10]. split; [done|]. cbn. by right.
  - (* the level is not passed: the pass stops here *)
    assert (l1 = l1 ++ [] ∧
            shown (match o with
                   | Done a =>
                       Run (outcome ((if a then App.play_levels db inp difficulty rest
                                      else mret ()) s1))
                           (state ((if a then App.play_levels db inp difficulty rest
                                    else mret ()) s1))
                           (l1 ++ shown ((if a then App.play_levels db inp difficulty rest
                                          else mret ()) s1))
                   | Rerun => Run Rerun s1 l1
                   | Raise e => Run (Raise e) s1 l1
                   end) = l1) as [_ ->].
    { split; [by rewrite (right_id_L [] (++))|].
      destruct o as [[]| |]; cbn; try done. by rewrite (right_id_L [] (++)). }
    exists 1%nat. split; [cbn; lia|]. split; [done|]. split.
    + exists (filter is_verdict l1). split; [done|].
      destruct Hone as [->|[->|(c & n & w & ->)]]; cbn; lia.
    + intros Hin. destruct (Hcompleted Hin) as [-> ->]. split; [done|]. set_solver.
Qed.

(** During a pass the levels are rendered in order from level 1, each one
    only after the verdict "correct" on the one before, and at most one
    verdict follows on the last one; the game is completed only with the
    verdict "correct" on each of the ten levels during that pass. *)
Theorem levels_are_played_in_order db inp (s : session) :
  let r := App.create_streamlit_app db inp s in
  ∃ m, (m ≤ 10)%nat
    ∧ titles r = seqZ 1 (Z.of_nat m)
    ∧ (∃ tail, verdicts r = replicate (pred m) ThatIsCorrect ++ tail ∧ (length tail ≤ 1)%nat)
    ∧ (GameCompleted ∈ shown r → m = 10%nat ∧ verdicts r = replicate 10 ThatIsCorrect).
Proof.
  assert (logs (levels_shape (seqZ 1 10)) (App.create_streamlit_app db inp)) as Hlogs.
  { unfold App.create_streamlit_app.
    apply logs_bind_plain; [unfold App.show_latest_game_date; showing; done|]. intros _.
    apply logs_bind_plain; [showing|]. intros _.
    apply logs_bind_plain; [unfold App.init_reveals; showing|]. intros _.
    destruct (bool_decide _).
    - apply logs_bind_plain; [showing|]. intros tracked.
      apply logs_bind_plain; [showing|]. intros _.
      apply logs_bind_plain; [unfold App.change_difficulty; showing|]. intros _.
      apply play_levels_shape. intros i Hi.
      apply lookup_seqZ in Hi as [Hi Hlt]. rewrite length_seqZ. lia.
    - intros s'. cbn [shown emit].
      apply (levels_shape_plain _ [PleaseSelectDifficulty] []); [|apply levels_shape_nil].
      by repeat constructor. }
  intros r. destruct (Hlogs s) as (m & Hm & Htitles & (tail & Hverdicts & Htail) & Hgame).
  rewrite length_seqZ in Hm.
  assert (take m (seqZ 1 10) = seqZ 1 (Z.of_nat m)) as Htake.
  { do 11 (destruct m as [|m]; [reflexivity|]). lia. }
  exists m. split; [lia|]. split; [unfold titles, r; by rewrite Htitles, Htake|]. split.
  - exists tail. split; [exact Hverdicts|lia].
  - intros Hin. destruct (Hgame Hin) as [Hv Hin10]. rewrite Htake in Hin10.
    apply elem_of_seqZ in Hin10. assert (m = 10%nat) as -> by lia. split; [done|exact Hv].
Qed.

(** ** The difficulty and the reveal counter *)

(** The reveal budget of a difficulty; 0 for a name without budget, such as
    the placeholder of the selector. *)
Definition budget_of (difficulty : string) : Z :=
  default 0 (App.reveals_per_difficulty !! difficulty).

Lemma pop_bind {B} k (f : unit → M B) s : (pop k ≫= f) s = f () (delete k s).
Proof. erewrite bind_step by reflexivity. apply prepend_nil. Qed.

Lemma init_reveals_same difficulty (s : session) v :
  s !! "remaining_reveals" = Some v →
  s !! "previous_difficulty" = Some (VStr difficulty) →
  App.init_reveals difficulty s = Run (Done ()) s [].
Proof.
  intros Hreveals Hprevious. unfold App.init_reveals.
  rewrite !has_bind, Hreveals, Hprevious.
  rewrite !bool_decide_eq_true_2 by eauto. cbn [negb orb].
  rewrite bind_assoc, (get_bind _ _ _ _ Hprevious), ret_bind_run.
  by rewrite bool_decide_eq_false_2 by (by intros []).
Qed.

Lemma init_reveals_changed difficulty (s : session) :
  s !! "remaining_reveals" = None
  ∨ s !! "previous_difficulty" = None
  ∨ (∃ v, s !! "previous_difficulty" = Some v ∧ v ≠ VStr difficulty) →
  App.init_reveals difficulty s =
  Run (Done ())
      (<["previous_difficulty" := VStr difficulty]>
         (<["remaining_reveals" := VInt (budget_of difficulty)]> s)) [].
Proof.
  intros Hchanged. unfold App.init_reveals. rewrite !has_bind.
  assert (∀ (c : bool) (previous : option value),
            (c = true ∨ previous = None ∨ ∃ v, previous = Some v ∧ v ≠ VStr difficulty) →
            s !! "previous_difficulty" = previous →
            ((if c || negb (bool_decide (is_Some previous)) then mret true
              else previous ← get "previous_difficulty";
                   mret (bool_decide (previous ≠ VStr difficulty))) ≫=
             λ changed : bool,
               when changed
                 (put "remaining_reveals"
                    (VInt (default 0 (App.reveals_per_difficulty !! difficulty))) ;;
                  put "previous_difficulty" (VStr difficulty))) s
            = Run (Done ())
                (<["previous_difficulty" := VStr difficulty]>
                   (<["remaining_reveals" := VInt (budget_of difficulty)]> s)) []) as Hrun.
  { intros c previous Hc Hprevious.
    destruct c; cbn [orb]; [by rewrite ret_bind_run|].
    destruct previous as [v|].
    - rewrite bool_decide_eq_true_2 by eauto. cbn [negb].
      rewrite bind_assoc, (get_bind _ _ _ _ Hprevious), ret_bind_run.
      destruct Hc as [?|[?|(v' & [= <-] & Hv)]]; [done..|].
      by rewrite bool_decide_eq_true_2 by done.
    - rewrite bool_decide_eq_false_2 by (by intros [??]). cbn [negb].
      by rewrite ret_bind_run. }
  apply (Hrun (negb (bool_decide (is_Some (s !! "remaining_reveals"))))
              (s !! "previous_difficulty")); [|done].
  destruct Hchanged as [Hr|[Hp|Hp]]; [left|right; by left|right; by right].
  rewrite Hr. by rewrite bool_decide_eq_false_2 by (by intros [??]).
Qed.

Lemma show_latest_game_date_ok db date (s : session) :
  Main.load_latest_game_date db = Ok (Some date) →
  App.show_latest_game_date db s = Run (Done ()) s [LatestGameDate date].
Proof.
  intros Hdate. unfold App.show_latest_game_date. by rewrite Hdate, lift_ok_bind.
Qed.

Lemma pops_forget_levels lvls (s : session) :
  for_each lvls (λ lvl, pop (selection_key lvl) ;; pop (multiselect_key lvl) ;;
                        pop (player_key lvl)) s
  = Run (Done ()) (foldl forget_level s lvls) [].
Proof.
  revert s. induction lvls as [|lvl lvls IH]; intros s; [done|].
  cbn [for_each foldl]. rewrite bind_assoc, pop_bind, bind_assoc, pop_bind.
  erewrite bind_step by reflexivity. rewrite prepend_nil. apply IH.
Qed.

(** Selecting another difficulty while a run is on: the pass forgets the
    player and the selection of every level, records the new difficulty,
    sets the reveal counter to the budget of the new difficulty and reruns
    the script without rendering a level. *)
Theorem difficulty_change_resets_the_run db inp (s : session) previous date :
  Main.load_latest_game_date db = Ok (Some date) →
  check_updates_pressed inp = false →
  difficulty_selection inp ≠ "Select a difficulty level" →
  difficulty_selection inp ≠ previous →
  s !! "current_difficulty" = Some (VStr previous) →
  s !! "previous_difficulty" = Some (VStr previous) →
  let r := App.create_streamlit_app db inp s in
  outcome r = Rerun
  ∧ shown r = [LatestGameDate date]
  ∧ (∀ lvl, 1 ≤ lvl ≤ 10 →
       state r !! player_key lvl = None ∧ state r !! selection_key lvl = None)
  ∧ state r !! "current_difficulty" = Some (VStr (difficulty_selection inp))
  ∧ state r !! "previous_difficulty" = Some (VStr (difficulty_selection inp))
  ∧ state r !! "remaining_reveals" = Some (VInt (budget_of (difficulty_selection inp))).
Proof.
  intros Hdate Hupdates Hplaceholder Hother Hcurrent Hprevious.
  set (d := difficulty_selection inp) in *.
  set (s1 := <["previous_difficulty" := VStr d]>
               (<["remaining_reveals" := VInt (budget_of d)]> s)).
  assert (App.create_streamlit_app db inp s
          = Run Rerun (<["current_difficulty" := VStr d]> (foldl forget_level s1 (seqZ 1 10)))
                [LatestGameDate date]) as Hrun.
  { unfold App.create_streamlit_app. fold d.
    erewrite bind_step by (by apply show_latest_game_date_ok). rewrite Hupdates. cbn [when].
    rewrite ret_bind_run.
    erewrite bind_step.
    2:{ apply init_reveals_changed. right. right. exists (VStr previous).
        split; [done|]. intros [=]. congruence. }
    fold s1. rewrite prepend_nil, bool_decide_eq_true_2 by done.
    assert (s1 !! "current_difficulty" = Some (VStr previous)) as Hcurrent1.
    { unfold s1. by rewrite !lookup_insert_ne. }
    rewrite has_bind, Hcurrent1, bool_decide_eq_true_2 by eauto. cbn [negb when].
    rewrite ret_bind_run. unfold App.change_difficulty.
    rewrite bind_assoc, (get_bind _ _ _ _ Hcurrent1).
    rewrite bool_decide_eq_true_2 by (intros [=]; congruence). cbn [when].
    rewrite !bind_assoc. erewrite bind_step by apply pops_forget_levels.
    rewrite prepend_nil. cbn beta. rewrite bind_assoc, put_bind. reflexivity. }
  intros r. unfold r. rewrite Hrun. cbn [outcome state shown].
  split; [done|]. split; [done|]. split; [|split; [|split]].
  - intros lvl Hlvl. rewrite !lookup_insert_ne by key_ne. rewrite !lookup_forget_levels.
    split.
    + rewrite decide_True; [done|]. apply elem_of_level_keys_player, elem_of_seqZ. lia.
    + rewrite decide_True; [done|]. apply elem_of_level_keys_selection, elem_of_seqZ. lia.
  - apply lookup_insert_eq.
  - rewrite lookup_insert_ne by done. rewrite lookup_forget_levels.
    rewrite decide_False; [unfold s1; apply lookup_insert_eq|].
    intros (lvl & Hin & _)%list_elem_of_bind. unfold level_keys in Hin.
    rewrite !elem_of_cons, elem_of_nil in Hin. by destruct Hin as [|[|[|]]].
  - rewrite lookup_insert_ne by done. rewrite lookup_forget_levels.
    rewrite decide_False.
    + unfold s1. rewrite lookup_insert_ne by done. apply lookup_insert_eq.
    + intros (lvl & Hin & _)%list_elem_of_bind. by apply reveals_not_level_key in Hin.
Qed.

Definition sEasy : session :=
  state (App.create_streamlit_app dbH (AppInput false "Easy" (λ _, idle)) ∅).

Lemma difficulty_change_resets_the_run_witness :
  outcome (App.create_streamlit_app dbH (AppInput false "Hard" (λ _, idle)) sEasy) = Rerun.
Proof.
  apply (difficulty_change_resets_the_run dbH (AppInput false "Hard" (λ _, idle)) sEasy
           "Easy" 120); try done; by vm_compute.
Defined.

Lemma placeholder_pass db inp (s : session) v date :
  Main.load_latest_game_date db = Ok (Some date) →
  check_updates_pressed inp = false →
  difficulty_selection inp = "Select a difficulty level" →
  s !! "previous_difficulty" = Some v →
  v ≠ VStr "Select a difficulty level" →
  App.create_streamlit_app db inp s =
  Run (Done ())
      (<["previous_difficulty" := VStr "Select a difficulty level"]>
         (<["remaining_reveals" := VInt 0]> s))
      [LatestGameDate date; PleaseSelectDifficulty].
Proof.
  intros Hdate Hupdates Hselection Hprevious Hv. unfold App.create_streamlit_app.
  erewrite bind_step by (by apply show_latest_game_date_ok).
  rewrite Hupdates, Hselection. cbn [when]. rewrite ret_bind_run.
  erewrite bind_step by (apply init_reveals_changed; eauto).
  rewrite prepend_nil. rewrite bool_decide_eq_false_2 by (by intros []). reflexivity.
Qed.

(** Passing by the placeholder of the selector refills the reveal counter
    and keeps the run. With the difficulty [d] on, a pass with the
    placeholder selected renders no level, and the next pass with [d]
    selected again renders the levels from the session of before the two
    passes, with the counter back at the budget of [d]. *)
Theorem placeholder_refills_reveals db inp1 inp2 (s : session) date :
  Main.load_latest_game_date db = Ok (Some date) →
  check_updates_pressed inp1 = false →
  check_updates_pressed inp2 = false →
  difficulty_selection inp1 = "Select a difficulty level" →
  difficulty_selection inp2 ≠ "Select a difficulty level" →
  s !! "current_difficulty" = Some (VStr (difficulty_selection inp2)) →
  s !! "previous_difficulty" = Some (VStr (difficulty_selection inp2)) →
  let r1 := App.create_streamlit_app db inp1 s in
  outcome r1 = Done ()
  ∧ shown r1 = [LatestGameDate date; PleaseSelectDifficulty]
  ∧ App.create_streamlit_app db inp2 (state r1) =
    prepend [LatestGameDate date]
      (App.play_levels db inp2 (difficulty_selection inp2) (seqZ 1 10)
         (<["remaining_reveals" := VInt (budget_of (difficulty_selection inp2))]> s)).
Proof.
  intros Hdate Hupdates1 Hupdates2 Hselection1 Hselection2 Hcurrent Hprevious r1.
  set (d := difficulty_selection inp2) in *.
  unfold r1. erewrite placeholder_pass by (try done; intros [=]; congruence).
  cbn [outcome shown state]. split; [done|]. split; [done|].
  set (s1 := <["previous_difficulty" := VStr "Select a difficulty level"]>
               (<["remaining_reveals" := VInt 0]> s)).
  assert (<["previous_difficulty" := VStr d]> (<["remaining_reveals" := VInt (budget_of d)]> s1)
          = <["remaining_reveals" := VInt (budget_of d)]> s) as Hstate.
  { apply map_eq. intros k. unfold s1.
    destruct (decide (k = "previous_difficulty")) as [->|Hk1].
    { by rewrite lookup_insert_eq, lookup_insert_ne by done. }
    rewrite lookup_insert_ne by done.
    destruct (decide (k = "remaining_reveals")) as [->|Hk2].
    { by rewrite !lookup_insert_eq. }
    by rewrite !lookup_insert_ne by done. }
  unfold App.create_streamlit_app. fold d.
  erewrite bind_step by (by apply show_latest_game_date_ok). rewrite Hupdates2. cbn [when].
  rewrite ret_bind_run.
  erewrite bind_step.
  2:{ apply init_reveals_changed. right. right.
      exists (VStr "Select a difficulty level"). split; [apply lookup_insert_eq|].
      intros [=]. congruence. }
  rewrite Hstate, prepend_nil, bool_decide_eq_true_2 by done.
  assert ((<["remaining_reveals" := VInt (budget_of d)]> s) !! "current_difficulty"
          = Some (VStr d)) as Hcurrent1.
  { by rewrite lookup_insert_ne. }
  rewrite has_bind, Hcurrent1, bool_decide_eq_true_2 by eauto. cbn [negb when].
  rewrite ret_bind_run. unfold App.change_difficulty.
  rewrite bind_assoc, (get_bind _ _ _ _ Hcurrent1).
  rewrite bool_decide_eq_false_2 by (by intros []). cbn [when].
  by rewrite ret_bind_run.
Qed.

(** The session of the Hard run on which the one reveal has been spent. *)
Definition sH_spent : session := <["remaining_reveals" := VInt 0]> sH.

Lemma placeholder_refills_reveals_witness :
  App.create_streamlit_app dbH (AppInput false "Hard" (λ _, idle))
    (state (App.create_streamlit_app dbH
              (AppInput false "Select a difficulty level" (λ _, idle)) sH_spent)) =
  prepend [LatestGameDate 120]
    (App.play_levels dbH (AppInput false "Hard" (λ _, idle)) "Hard" (seqZ 1 10)
       (<["remaining_reveals" := VInt (budget_of "Hard")]> sH_spent)).
Proof.
  apply (placeholder_refills_reveals dbH
           (AppInput false "Select a difficulty level" (λ _, idle))
           (AppInput false "Hard" (λ _, idle)) sH_spent 120);
    [reflexivity|reflexivity|reflexivity|reflexivity|discriminate
    |vm_compute; reflexivity|vm_compute; reflexivity].
Defined.

(** ** The reveal counter during one pass *)

Section Counter.

Variable n : Z.

(** The counter stands at [n]. *)
Definition counter_is (s : session) : Prop :=
  s !! "remaining_reveals" = Some (VInt n).

(** What a pass that started with the counter at [n] can leave: the counter
    at [n], the counter at [n - 1] when [n] was above 0, or the empty
    session. *)
Definition counter_after (s : session) : Prop :=
  s !! "remaining_reveals" = Some (VInt n)
  ∨ (0 < n ∧ s !! "remaining_reveals" = Some (VInt (n - 1)))
  ∨ s = ∅.

Lemma counter_is_after s : counter_is s → counter_after s.
Proof. by left. Qed.

Local Hint Resolve counter_is_after : core.

Lemma counter_put k v :
  k ≠ "remaining_reveals" → preserves counter_is counter_after (put k v).
Proof.
  intros Hk. apply preserves_put. intros s Hs. unfold counter_is.
  by rewrite lookup_insert_ne.
Qed.

Lemma counter_pop k :
  k ≠ "remaining_reveals" → preserves counter_is counter_after (pop k).
Proof.
  intros Hk. apply preserves_pop. intros s Hs. unfold counter_is.
  by rewrite lookup_delete_ne.
Qed.

Lemma draw_player_counter db inp level min_seasons :
  preserves counter_is counter_after (Level.draw_player db inp level min_seasons).
Proof.
  intros s Hs. destruct (s !! player_key level) as [w|] eqn:Hlevel.
  - destruct (draw_player_assigned db inp level min_seasons s w Hlevel) as [-> ->]. done.
  - rewrite (draw_player_run db inp level min_seasons s _ (load_players_eq db _) Hlevel).
    destruct (choice _ _) as [p|e]; cbn [outcome state]; [|auto].
    unfold counter_is. by rewrite lookup_insert_ne by key_ne.
Qed.

Lemma init_selection_counter level :
  preserves counter_is counter_after (Level.init_selection level).
Proof. unfold Level.init_selection. preserving. apply counter_put. key_ne. Qed.

Lemma show_player_counter db level :
  preserves counter_is counter_after (Level.show_player db level).
Proof. unfold Level.show_player. preserving. Qed.

Lemma read_selection_counter db inp level :
  preserves counter_is counter_after (Level.read_selection db inp level).
Proof. unfold Level.read_selection. preserving. apply counter_put. key_ne. Qed.

Lemma reveal_counter inp level answers :
  preserves counter_is counter_after (Level.reveal inp level answers).
Proof.
  intros s Hs. unfold Level.reveal.
  rewrite (get_bind _ _ _ _ Hs). cbn [as_int]. rewrite lift_ok_bind.
  destruct (decide (0 < n)); cbn; [|done].
  destruct (reveal_pressed inp); cbn; [|done].
  destruct (choice _ _) as [club|e]; [rewrite lift_ok_bind|rewrite lift_err_bind; cbn; auto].
  destruct (s !! selection_key level) as [w|] eqn:Hw;
    [rewrite (get_bind _ _ _ _ Hw)|rewrite get_bind_none by done; cbn; auto].
  destruct w as [p|selection|m]; cbn [as_list];
    [rewrite lift_err_bind; cbn; auto| |rewrite lift_err_bind; cbn; auto].
  rewrite lift_ok_bind, put_bind.
  erewrite get_bind by (rewrite lookup_insert_ne by key_ne; exact Hs). cbn [as_int].
  rewrite lift_ok_bind, put_bind, emit_bind. cbn.
  right. left. split; [done|]. apply lookup_insert_eq.
Qed.

Lemma play_again_counter inp : preserves counter_is counter_after (Level.play_again inp).
Proof.
  intros s Hs. destruct (play_again_pressed inp) eqn:Hpressed.
  - rewrite play_again_clears by done. cbn. by right; right.
  - by rewrite play_again_not_pressed.
Qed.

Lemma restart_game_counter db inp start :
  preserves counter_is counter_after (Level.restart_game db inp start).
Proof.
  intros s Hs. rewrite (restart_game_run db inp start s _ (load_players_eq db start)).
  destruct (choice _ _) as [p|e]; cbn [outcome state]; left.
  - fold (restarted p s). rewrite restarted_frame; [done|].
    intros lvl _. apply reveals_not_level_key.
  - by rewrite !lookup_delete_ne by key_ne.
Qed.

Lemma check_answers_counter db inp level start answers :
  preserves counter_is counter_after (Level.check_answers db inp level start answers).
Proof.
  unfold Level.check_answers. preserving.
  - apply play_again_counter.
  - apply restart_game_counter.
Qed.

Lemma render_level_counter db inp level min_seasons start :
  preserves counter_is counter_after (Level.render_level db inp level min_seasons start).
Proof.
  unfold Level.render_level. preserving.
  - apply draw_player_counter.
  - apply init_selection_counter.
  - apply show_player_counter.
  - apply read_selection_counter.
  - apply reveal_counter.
  - apply check_answers_counter.
Qed.

Lemma play_levels_counter db inp difficulty levels :
  preserves counter_is counter_after (App.play_levels db inp difficulty levels).
Proof.
  induction levels as [|level levels IH]; cbn; [by apply preserves_ret|].
  preserving; [apply render_level_counter|apply IH].
Qed.

Lemma change_difficulty_counter difficulty :
  preserves counter_is counter_after (App.change_difficulty difficulty).
Proof.
  unfold App.change_difficulty. preserving.
  - apply preserves_for_each. intros lvl _. preserving; apply counter_pop; key_ne.
  - by apply counter_put.
Qed.

Lemma init_reveals_counter difficulty (s : session) :
  counter_is s →
  s !! "previous_difficulty" = Some (VStr difficulty) →
  App.init_reveals difficulty s = Run (Done ()) s [].
Proof. intros Hs Hprevious. by eapply init_reveals_same. Qed.

Lemma create_streamlit_app_counter db inp (s : session) :
  counter_is s →
  s !! "previous_difficulty" = Some (VStr (difficulty_selection inp)) →
  match outcome (App.create_streamlit_app db inp s) with
  | Done _ => counter_is (state (App.create_streamlit_app db inp s))
  | _ => counter_after (state (App.create_streamlit_app db inp s))
  end.
Proof.
  intros Hs Hprevious.
  assert (preserves counter_is counter_after
            (App.show_latest_game_date db ;; when (check_updates_pressed inp) rerun)) as Hhead.
  { unfold App.show_latest_game_date. preserving. }
  assert (preserves counter_is counter_after
            (if bool_decide (difficulty_selection inp ≠ "Select a difficulty level") then
               tracked ← has "current_difficulty";
               when (negb tracked) (put "current_difficulty" (VStr (difficulty_selection inp))) ;;
               App.change_difficulty (difficulty_selection inp) ;;
               App.play_levels db inp (difficulty_selection inp) (seqZ 1 10)
             else emit PleaseSelectDifficulty)) as Htail.
  { preserving.
    - by apply counter_put.
    - apply change_difficulty_counter.
    - apply play_levels_counter. }
  unfold App.create_streamlit_app.
  rewrite <- (bind_assoc (App.show_latest_game_date db)).
  rewrite bind_run. specialize (Hhead s Hs).
  destruct ((App.show_latest_game_date db ;; when (check_updates_pressed inp) rerun) s)
    as [[[]| |e] s0 l0] eqn:Hrun0; cbn [outcome state shown] in *; [|done..].
  assert (s0 = s) as ->.
  { unfold App.show_latest_game_date in Hrun0.
    destruct (Main.load_latest_game_date db) as [[date|]|e'];
      destruct (check_updates_pressed inp); vm_compute in Hrun0; congruence. }
  rewrite bind_run, init_reveals_counter by done. cbn [outcome state shown].
  specialize (Htail s Hs). by destruct (outcome _).
Qed.

End Counter.

(** During a pass in which the selected difficulty is the one of the pass
    before, the reveal counter is never raised and is lowered by at most 1,
    and only from a value above 0: a pass that runs to its end leaves the
    counter as it was, also after correct answers; a pass that stops (a
    reveal, the reset after a wrong answer, an exception) leaves it as it was
    or 1 lower, unless Play Again has emptied the session. *)
Theorem counter_during_a_pass db inp (s : session) n :
  s !! "remaining_reveals" = Some (VInt n) →
  s !! "previous_difficulty" = Some (VStr (difficulty_selection inp)) →
  let r := App.create_streamlit_app db inp s in
  (outcome r = Done () → state r !! "remaining_reveals" = Some (VInt n))
  ∧ (state r !! "remaining_reveals" = Some (VInt n)
     ∨ (0 < n ∧ state r !! "remaining_reveals" = Some (VInt (n - 1)))
     ∨ state r = ∅).
Proof.
  intros Hn Hprevious r.
  pose proof (create_streamlit_app_counter n db inp s Hn Hprevious) as Hpass.
  fold r in Hpass. destruct (outcome r) as [[]| |e]; (split; [done|]); try done.
  by left.
Qed.

Lemma counter_during_a_pass_witness :
  let r := App.create_streamlit_app dbH (AppInput false "Hard" (λ _, pick_and_reveal [])) sH in
  state r !! "remaining_reveals" = Some (VInt 1)
  ∨ (0 < 1 ∧ state r !! "remaining_reveals" = Some (VInt (1 - 1)))
  ∨ state r = ∅.
Proof.
  apply (proj2 (counter_during_a_pass dbH (AppInput false "Hard" (λ _, pick_and_reveal []))
                  sH 1 ltac:(vm_compute; reflexivity) ltac:(vm_compute; reflexivity))).
Defined.

(** ** What a pass can raise *)

(** The exceptions that come from the data: an empty pool or a player
    without record ([IndexError]), a table without date ([AttributeError]). *)
Definition data_error (e : exn) : Prop := e = IndexError ∨ e = AttributeError.

(** [hoare P m Q]: from a session in [P] the script [m] completes with a
    session in [Q], reruns, or raises an exception that comes from the data. *)
Definition hoare {A} (P : session → Prop) (m : M A) (Q : session → Prop) : Prop :=
  ∀ s, P s →
    match outcome (m s) with
    | Done _ => Q (state (m s))
    | Rerun => True
    | Raise e => data_error e
    end.

Lemma hoare_bind {A B} P Q R (m : M A) (f : A → M B) :
  hoare P m Q → (∀ a, hoare Q (f a) R) → hoare P (m ≫= f) R.
Proof.
  intros Hm Hf s Hs. rewrite bind_run. specialize (Hm s Hs).
  destruct (outcome (m s)) as [a| |e]; cbn [outcome state]; [|done..].
  apply (Hf a), Hm.
Qed.

(** The stored values have the types at which the script reads them: a
    player is a string, the reveal counter an integer. *)
Definition typed (s : session) : Prop :=
  (∀ lvl v, s !! player_key lvl = Some v → ∃ p, v = VStr p)
  ∧ (∀ v, s !! "remaining_reveals" = Some v → ∃ n, v = VInt n).

(** The session as the levels need it: typed, with the reveal counter set. *)
Definition ready (s : session) : Prop :=
  typed s ∧ is_Some (s !! "remaining_reveals").

Lemma typed_frame (s s' : session) :
  (∀ lvl, s' !! player_key lvl = s !! player_key lvl ∨ s' !! player_key lvl = None
          ∨ ∃ p, s' !! player_key lvl = Some (VStr p)) →
  (s' !! "remaining_reveals" = s !! "remaining_reveals" ∨ s' !! "remaining_reveals" = None
   ∨ ∃ n, s' !! "remaining_reveals" = Some (VInt n)) →
  typed s → typed s'.
Proof.
  intros Hplayers Hreveals [Hp Hr]. split.
  - intros lvl v Hv. destruct (Hplayers lvl) as [H|[H|[p H]]]; rewrite H in Hv.
    + by eapply Hp.
    + done.
    + injection Hv as <-. by exists p.
  - intros v Hv. destruct Hreveals as [H|[H|[n H]]]; rewrite H in Hv.
    + by apply Hr.
    + done.
    + injection Hv as <-. by exists n.
Qed.

Lemma typed_put k v (s : session) :
  (∀ lvl, k = player_key lvl → ∃ p, v = VStr p) →
  (k = "remaining_reveals" → ∃ n, v = VInt n) →
  typed s → typed (<[k := v]> s).
Proof.
  intros Hplayer Hreveals. apply typed_frame.
  - intros lvl. destruct (decide (k = player_key lvl)) as [->|Hk].
    + destruct (Hplayer lvl eq_refl) as [p ->]. right. right. exists p. apply lookup_insert_eq.
    + left. by rewrite lookup_insert_ne.
  - destruct (decide (k = "remaining_reveals")) as [->|Hk].
    + destruct (Hreveals eq_refl) as [n ->]. right. right. exists n. apply lookup_insert_eq.
    + left. by rewrite lookup_insert_ne.
Qed.

Lemma typed_delete k (s : session) : typed s → typed (delete k s).
Proof.
  apply typed_frame.
  - intros lvl. rewrite lookup_delete. case_decide; auto.
  - rewrite lookup_delete. case_decide; auto.
Qed.

Lemma typed_restarted p (s : session) : typed s → typed (restarted p s).
Proof.
  intros Hs. unfold restarted.
  assert (∀ lvls s0, typed s0 → typed (foldl forget_level s0 lvls)) as Hforget.
  { induction lvls as [|lvl lvls IH]; intros s0 Hs0; [done|]. cbn [foldl].
    apply IH. unfold forget_level. by do 3 apply typed_delete. }
  apply Hforget. apply typed_put; [by eauto|discriminate|].
  by do 2 apply typed_delete.
Qed.

(** Every session that the application can reach is typed. *)
Lemma reachable_typed s : reachable s → typed s.
Proof.
  apply reachable_invariant.
  - split; intros; by rewrite lookup_empty in *.
  - intros db inp. apply create_streamlit_app_invariant.
    + intros k s0. apply typed_delete.
    + intros lvl v s0. apply typed_put; [|discriminate].
      intros lvl' H. by destruct (selection_key_ne_player_key lvl lvl').
    + intros k v s0 [-> | ->]; (apply typed_put; [|discriminate]); intros lvl' H; discriminate H.
    + intros lvl p s0 _ Hs0 _ _. revert Hs0. apply typed_put; [by eauto|].
      intros H. discriminate H.
    + intros n s0 _. apply typed_put; [|by eauto]. intros lvl' H. discriminate H.
    + intros p s0. apply typed_restarted.
Qed.

Lemma choice_err {A} draw (l : list A) e : choice draw l = Err e → e = IndexError.
Proof. unfold choice. destruct (l !! _); congruence. Qed.

Lemma load_players_data_err db player e :
  Main.load_players_data db player = Err e → e = IndexError.
Proof.
  rewrite load_players_data_rows. destruct (series_mode _) as [|n l]; cbn; congruence.
Qed.

Section LevelSafety.

Variables (db : database) (inp : level_input) (level : Z).

(** The level has its player. *)
Definition staffed (s : session) : Prop :=
  ready s ∧ is_Some (s !! player_key level).

(** The level has its player and the picker's value as its selection. *)
Definition answered (s : session) : Prop :=
  ready s ∧ s !! selection_key level = Some (VList (picked inp)).

Lemma ready_put_selection lvl v (s : session) :
  ready s → ready (<[selection_key lvl := v]> s).
Proof.
  intros [Hs Hr]. split.
  - revert Hs. apply typed_put; [|discriminate].
    intros lvl' H. by destruct (selection_key_ne_player_key lvl lvl').
  - by rewrite lookup_insert_ne by key_ne.
Qed.

Lemma draw_player_hoare min_seasons :
  hoare ready (Level.draw_player db inp level min_seasons) staffed.
Proof.
  intros s Hs. destruct (s !! player_key level) as [w|] eqn:Hlevel.
  - destruct (draw_player_assigned db inp level min_seasons s w Hlevel) as [-> ->].
    split; [done|]. rewrite Hlevel. eauto.
  - rewrite (draw_player_run db inp level min_seasons s _ (load_players_eq db _) Hlevel).
    destruct (choice _ _) as [p|e] eqn:Hchoice; cbn [outcome state].
    + destruct Hs as [Hs Hr]. split; [split|].
      * revert Hs. apply typed_put; [by eauto|]. intros H. discriminate H.
      * by rewrite lookup_insert_ne by key_ne.
      * rewrite lookup_insert_eq. eauto.
    + left. by eapply choice_err.
Qed.

Lemma init_selection_hoare : hoare staffed (Level.init_selection level) staffed.
Proof.
  intros s [Hs Hp]. unfold Level.init_selection. rewrite has_bind.
  destruct (bool_decide _); cbn [negb when]; [done|]. cbn [put outcome state].
  split; [by apply ready_put_selection|]. by rewrite lookup_insert_ne by key_ne.
Qed.

Lemma show_player_hoare : hoare staffed (Level.show_player db level) ready.
Proof.
  intros s [[[Hplayers Hreveals] Hr] [v Hv]]. unfold Level.show_player.
  rewrite (get_bind _ _ _ _ Hv). destruct (Hplayers _ _ Hv) as [p ->]. cbn [as_str].
  rewrite lift_ok_bind.
  destruct (Main.load_players_data db p) as [[teams n]|e] eqn:Hload.
  - rewrite lift_ok_bind, emit_bind.
    destruct (decide (length teams = 1%nat)); by rewrite emit_bind.
  - rewrite lift_err_bind. left. by eapply load_players_data_err.
Qed.

Lemma read_selection_hoare : hoare ready (Level.read_selection db inp level) answered.
Proof.
  intros s Hs. unfold Level.read_selection.
  rewrite load_unique_teams_ok, lift_ok_bind. cbn [put outcome state].
  split; [by apply ready_put_selection|]. apply lookup_insert_eq.
Qed.

Lemma reveal_hoare answers : hoare answered (Level.reveal inp level answers) answered.
Proof.
  intros s [[[Hplayers Hreveals] [v Hv]] Hselection]. unfold Level.reveal.
  rewrite (get_bind _ _ _ _ Hv). destruct (Hreveals _ Hv) as [n ->]. cbn [as_int].
  rewrite lift_ok_bind.
  destruct (decide (0 < n)); [|by cbn].
  destruct (reveal_pressed inp); cbn [when]; [|by cbn].
  destruct (choice _ _) as [club|e] eqn:Hchoice;
    [rewrite lift_ok_bind|rewrite lift_err_bind; left; by eapply choice_err].
  rewrite (get_bind _ _ _ _ Hselection). cbn [as_list].
  rewrite lift_ok_bind, put_bind.
  erewrite get_bind by (rewrite lookup_insert_ne by key_ne; exact Hv). cbn [as_int].
  by rewrite lift_ok_bind, put_bind, emit_bind.
Qed.

Lemma check_answers_hoare start answers :
  hoare answered (Level.check_answers db inp level start answers) ready.
Proof.
  intros s [Hs Hselection].
  destruct (decide (length (picked inp) = length answers)) as [Hlen|Hlen].
  - destruct (decide (list_to_set (picked inp) =@{gset string} list_to_set answers))
      as [Hset|Hset].
    + destruct (check_answers_correct_run db inp level start answers s _ Hselection Hlen Hset)
        as (Hagain & Hlast & Hother).
      destruct (decide (level = 10)) as [Hlevel|Hlevel].
      * destruct (play_again_pressed inp) eqn:Hpressed.
        -- by rewrite Hagain.
        -- by rewrite Hlast.
      * by rewrite Hother.
    + destruct (check_answers_incorrect db inp level start answers s _ Hselection Hlen Hset)
        as (_ & _ & _ & _ & Hraise & Hnone).
      destruct (outcome (Level.check_answers db inp level start answers s))
        as [b| |e] eqn:Hout; [by destruct (Hnone b)|done|].
      pose proof (restart_game_run db inp start s _ (load_players_eq db start)) as Hrestart.
      destruct (choice _ _) as [p|e'] eqn:Hchoice.
      * assert (outcome (Level.restart_game db inp start s) = Rerun) as Hre
          by by rewrite Hrestart.
        pose proof (proj1 (proj2 (proj2 (proj2
          (check_answers_incorrect db inp level start answers s _ Hselection Hlen Hset)))) Hre).
        congruence.
      * assert (outcome (Level.restart_game db inp start s) = Raise e') as Hre
          by by rewrite Hrestart.
        specialize (Hraise e' Hre). injection Hraise as ->.
        left. by eapply choice_err.
  - by rewrite (check_answers_short db inp level start answers s _ Hselection Hlen).
Qed.

Lemma render_level_hoare min_seasons start :
  hoare ready (Level.render_level db inp level min_seasons start) ready.
Proof.
  unfold Level.render_level.
  eapply hoare_bind; [apply draw_player_hoare|intros _].
  eapply hoare_bind; [apply init_selection_hoare|intros _].
  eapply hoare_bind; [apply show_player_hoare|intros answers].
  eapply hoare_bind; [apply read_selection_hoare|intros _].
  eapply hoare_bind; [apply reveal_hoare|intros _].
  apply check_answers_hoare.
Qed.

End LevelSafety.

Lemma hoare_ret {A} (P : session → Prop) (a : A) : hoare P (mret a) P.
Proof. by intros s Hs. Qed.

Lemma play_levels_hoare db inp difficulty levels :
  is_Some (App.game_difficulty !! difficulty) →
  hoare ready (App.play_levels db inp difficulty levels) ready.
Proof.
  intros [start Hstart]. induction levels as [|level levels IH]; [apply hoare_ret|].
  intros s Hs. cbn [App.play_levels]. unfold App.level_min_seasons, dict_get.
  rewrite Hstart. cbn [mbind res_bind]. rewrite !lift_ok_bind.
  revert s Hs. eapply hoare_bind; [apply render_level_hoare|].
  intros [|]; [apply IH|apply hoare_ret].
Qed.

Lemma init_reveals_hoare difficulty : hoare typed (App.init_reveals difficulty) ready.
Proof.
  intros s Hs.
  assert (App.init_reveals difficulty s = Run (Done ()) s []
          ∧ is_Some (s !! "remaining_reveals")
          ∨ App.init_reveals difficulty s =
            Run (Done ())
                (<["previous_difficulty" := VStr difficulty]>
                   (<["remaining_reveals" := VInt (budget_of difficulty)]> s)) [])
    as [[-> Hr] | ->].
  { destruct (s !! "remaining_reveals") as [v|] eqn:Hreveals;
      [|right; apply init_reveals_changed; eauto].
    destruct (s !! "previous_difficulty") as [w|] eqn:Hprevious;
      [|right; apply init_reveals_changed; eauto].
    destruct (decide (w = VStr difficulty)) as [->|Hw];
      [|right; apply init_reveals_changed; eauto].
    left. split; [by eapply init_reveals_same|by eauto]. }
  - done.
  - cbn [outcome state]. split.
    + apply typed_put; [intros lvl H; discriminate H|discriminate|].
      revert Hs. apply typed_put; [intros lvl H; discriminate H|by eauto].
    + rewrite lookup_insert_ne, lookup_insert_eq by done. eauto.
Qed.

Lemma ready_put_difficulty v (s : session) :
  ready s → ready (<["current_difficulty" := v]> s).
Proof.
  intros [Hs Hr]. split.
  - revert Hs. apply typed_put; [intros lvl H; discriminate H|discriminate].
  - by rewrite lookup_insert_ne.
Qed.

Lemma hoare_post {A} (P Q Q' : session → Prop) (m : M A) :
  hoare P m Q → (∀ s, Q s → Q' s) → hoare P m Q'.
Proof.
  intros Hm HQ s Hs. specialize (Hm s Hs). destruct (outcome (m s)); auto.
Qed.

Lemma change_difficulty_hoare difficulty :
  hoare (λ s, ready s ∧ is_Some (s !! "current_difficulty"))
        (App.change_difficulty difficulty) ready.
Proof.
  intros s [Hs [v Hv]]. unfold App.change_difficulty.
  rewrite (get_bind _ _ _ _ Hv). case_bool_decide; cbn [when]; [|done].
  erewrite bind_step by apply pops_forget_levels.
  by rewrite prepend_nil, put_bind.
Qed.

Lemma create_streamlit_app_hoare db inp :
  is_Some (App.game_difficulty !! difficulty_selection inp) →
  hoare typed (App.create_streamlit_app db inp) (λ _, True).
Proof.
  intros Hdifficulty. unfold App.create_streamlit_app.
  eapply (hoare_bind _ typed).
  { intros s Hs. unfold App.show_latest_game_date.
    destruct (Main.load_latest_game_date db) as [[date|]|e] eqn:Hdate;
      [by rewrite lift_ok_bind|rewrite lift_ok_bind; by right|].
    discriminate Hdate. }
  intros _. eapply (hoare_bind _ typed).
  { intros s Hs. by destruct (check_updates_pressed inp). }
  intros _. eapply hoare_bind; [apply init_reveals_hoare|]. intros _.
  case_bool_decide; [|by intros s Hs].
  intros s Hs. rewrite has_bind.
  assert (∃ s2, when (negb (bool_decide (is_Some (s !! "current_difficulty"))))
                  (put "current_difficulty" (VStr (difficulty_selection inp))) s
                = Run (Done ()) s2 []
                ∧ ready s2 ∧ is_Some (s2 !! "current_difficulty")) as (s2 & Hput & Hs2).
  { destruct (s !! "current_difficulty") as [v|] eqn:Hv.
    - exists s. rewrite bool_decide_eq_true_2 by eauto. by eauto.
    - eexists. rewrite bool_decide_eq_false_2 by (by intros [??]).
      split; [reflexivity|]. split; [by apply ready_put_difficulty|].
      rewrite lookup_insert_eq. eauto. }
  erewrite bind_step by exact Hput. rewrite prepend_nil.
  assert (hoare (λ s, ready s ∧ is_Some (s !! "current_difficulty"))
            (App.change_difficulty (difficulty_selection inp) ;;
             App.play_levels db inp (difficulty_selection inp) (seqZ 1 10))
            (λ _, True)) as Htail.
  { eapply hoare_bind; [apply change_difficulty_hoare|]. intros _.
    eapply hoare_post; [by apply play_levels_hoare|done]. }
  apply Htail, Hs2.
Qed.

(** On a session that the application can reach, and with a difficulty of
    the selector, a pass never raises [KeyError] or [TypeError]: every read
    of the session state finds its key, with a value of the type at which
    the script reads it. What a pass can raise comes from the data. *)
Theorem session_reads_never_fail db inp (s : session) :
  reachable s →
  is_Some (App.game_difficulty !! difficulty_selection inp) →
  outcome (App.create_streamlit_app db inp s) ≠ Raise KeyError
  ∧ outcome (App.create_streamlit_app db inp s) ≠ Raise TypeError.
Proof.
  intros Hs Hdifficulty.
  pose proof (create_streamlit_app_hoare db inp Hdifficulty s (reachable_typed s Hs)) as Hpass.
  destruct (outcome (App.create_streamlit_app db inp s)) as [[]| |e]; [done..|].
  split; intros [= ->]; by destruct Hpass.
Qed.

Lemma session_reads_never_fail_witness :
  outcome (App.create_streamlit_app dbH (AppInput false "Hard" (λ _, pick_and_reveal ["X"])) sH)
  ≠ Raise KeyError.
Proof.
  apply (session_reads_never_fail dbH (AppInput false "Hard" (λ _, pick_and_reveal ["X"])) sH).
  - unfold sH. apply reachable_pass, reachable_start.
  - exists 10. reflexivity.
Defined.

(** ** A pass that ran to its end

    Each piece of [render_level] that completed from a session [t] completes
    in the same way, with the same messages, from a session [u] that holds
    what the piece left behind, and leaves [u] as it is; the widgets hand
    back the same values the second time, the random draws are free. *)

(** The widgets of a level hand back the same values. *)
Definition same_widgets (inp inp' : level_input) : Prop :=
  picked inp' = picked inp
  ∧ reveal_pressed inp' = reveal_pressed inp
  ∧ play_again_pressed inp' = play_again_pressed inp.

(** The widgets of the page hand back the same values. *)
Definition same_page (inp inp' : app_input) : Prop :=
  check_updates_pressed inp' = check_updates_pressed inp
  ∧ difficulty_selection inp' = difficulty_selection inp
  ∧ ∀ level, same_widgets (level_inputs inp level) (level_inputs inp' level).

Lemma prepend_run {A} l (o : result A) s l' : prepend l (Run o s l') = Run o s (l ++ l').
Proof. reflexivity. Qed.

Lemma draw_player_again db inp inp' level min_seasons (t t' u : session) log :
  Level.draw_player db inp level min_seasons t = Run (Done ()) t' log →
  is_Some (u !! player_key level) →
  Level.draw_player db inp' level min_seasons u = Run (Done ()) u log.
Proof.
  intros Hrun Hu. unfold Level.draw_player in *.
  rewrite load_players_eq, lift_ok_bind, values_bind, emit_bind, has_bind in Hrun.
  rewrite load_players_eq, lift_ok_bind, values_bind, emit_bind, has_bind.
  rewrite (bool_decide_eq_true_2 _ Hu). cbn [negb when].
  destruct (bool_decide (is_Some (t !! player_key level))); cbn [negb when] in Hrun.
  - unfold mret, M_ret in *. rewrite prepend_run in *. by injection Hrun as _ <-.
  - destruct (choice _ _) as [p|e]; [rewrite lift_ok_bind in Hrun|by rewrite lift_err_bind in Hrun].
    unfold put, mret, M_ret in *. rewrite prepend_run in *. by injection Hrun as _ <-.
Qed.

Lemma init_selection_again level (t t' u : session) log :
  Level.init_selection level t = Run (Done ()) t' log →
  is_Some (u !! selection_key level) →
  Level.init_selection level u = Run (Done ()) u log.
Proof.
  intros Hrun Hu. unfold Level.init_selection in *.
  rewrite has_bind in Hrun. rewrite has_bind, (bool_decide_eq_true_2 _ Hu).
  destruct (bool_decide _); cbn [negb when] in *;
    unfold put, mret, M_ret in *; by injection Hrun as _ <-.
Qed.

Lemma show_player_again db level (t t' u : session) answers log :
  Level.show_player db level t = Run (Done answers) t' log →
  u !! player_key level = t !! player_key level →
  Level.show_player db level u = Run (Done answers) u log.
Proof.
  intros Hrun Hu. unfold Level.show_player in *.
  destruct (t !! player_key level) as [v|] eqn:Hv;
    [rewrite (get_bind _ _ _ _ Hv) in Hrun; rewrite (get_bind _ _ _ _ Hu)
    |by rewrite get_bind_none in Hrun].
  destruct v as [p|l|n]; cbn [as_str] in *;
    [rewrite lift_ok_bind in Hrun; rewrite lift_ok_bind|by rewrite lift_err_bind in Hrun..].
  destruct (Main.load_players_data db p) as [[teams n]|e] eqn:Hload;
    [rewrite lift_ok_bind in Hrun; rewrite lift_ok_bind|by rewrite lift_err_bind in Hrun].
  rewrite emit_bind in Hrun. rewrite emit_bind.
  destruct (decide (length teams = 1%nat));
    rewrite emit_bind in Hrun; rewrite emit_bind;
    unfold mret, M_ret in *; rewrite !prepend_run in *; by injection Hrun as <- _ <-.
Qed.

Lemma read_selection_again db inp inp' level (t t' u : session) log :
  Level.read_selection db inp level t = Run (Done ()) t' log →
  picked inp' = picked inp →
  u !! selection_key level = Some (VList (picked inp)) →
  Level.read_selection db inp' level u = Run (Done ()) u log.
Proof.
  intros Hrun Hpicked Hu. unfold Level.read_selection in *. rewrite Hpicked.
  rewrite load_unique_teams_ok, lift_ok_bind in Hrun.
  rewrite load_unique_teams_ok, lift_ok_bind.
  unfold put in *. rewrite (insert_id _ _ _ Hu). by injection Hrun as _ <-.
Qed.

Lemma reveal_again inp inp' level answers (t t' u : session) log :
  Level.reveal inp level answers t = Run (Done ()) t' log →
  reveal_pressed inp' = reveal_pressed inp →
  u !! "remaining_reveals" = t !! "remaining_reveals" →
  Level.reveal inp' level answers u = Run (Done ()) u log.
Proof.
  intros Hrun Hpressed Hu. pose proof (reveal_done _ _ _ _ _ _ Hrun) as ->.
  unfold Level.reveal in *. rewrite Hpressed.
  destruct (t !! "remaining_reveals") as [v|] eqn:Hv;
    [rewrite (get_bind _ _ _ _ Hv) in Hrun; rewrite (get_bind _ _ _ _ Hu)
    |by rewrite get_bind_none in Hrun].
  destruct v as [p|l|n]; cbn [as_int] in *;
    [by rewrite lift_err_bind in Hrun..|rewrite lift_ok_bind in Hrun; rewrite lift_ok_bind].
  destruct (decide (0 < n)).
  - destruct (reveal_pressed inp); cbn [when] in *.
    + exfalso. repeat (apply bind_done_inv in Hrun as (? & ? & ? & ? & _ & Hrun & _)).
      discriminate Hrun.
    + unfold mret, M_ret in *. by injection Hrun as <-.
  - unfold emit in *. by injection Hrun as <-.
Qed.

Lemma check_answers_again db inp inp' level start answers (t t' u : session) b log :
  Level.check_answers db inp level start answers t = Run (Done b) t' log →
  play_again_pressed inp' = play_again_pressed inp →
  u !! selection_key level = t !! selection_key level →
  Level.check_answers db inp' level start answers u = Run (Done b) u log.
Proof.
  intros Hrun Hpressed' Hu.
  destruct (t !! selection_key level) as [v|] eqn:Hv;
    [|by unfold Level.check_answers in Hrun; rewrite get_bind_none in Hrun].
  destruct v as [p|selection|n];
    [unfold Level.check_answers in Hrun; rewrite (get_bind _ _ _ _ Hv) in Hrun;
     cbn [as_list] in Hrun; by rewrite lift_err_bind in Hrun|
    |unfold Level.check_answers in Hrun; rewrite (get_bind _ _ _ _ Hv) in Hrun;
     cbn [as_list] in Hrun; by rewrite lift_err_bind in Hrun].
  destruct (decide (length selection = length answers)) as [Hlen|Hlen].
  - destruct (decide (list_to_set selection =@{gset string} list_to_set answers))
      as [Hset|Hset].
    + destruct (check_answers_correct_run db inp level start answers t selection Hv Hlen Hset)
        as (Hagain & Hlast & Hother).
      destruct (check_answers_correct_run db inp' level start answers u selection Hu Hlen Hset)
        as (_ & Hlast' & Hother').
      destruct (decide (level = 10)) as [Hlevel|Hlevel].
      * destruct (play_again_pressed inp) eqn:Hpressed.
        -- rewrite Hagain in Hrun by done. discriminate Hrun.
        -- rewrite Hlast in Hrun by done. rewrite Hlast' by congruence.
           by injection Hrun as <- _ <-.
      * rewrite Hother in Hrun by done. rewrite Hother' by done. by injection Hrun as <- _ <-.
    + destruct (check_answers_incorrect db inp level start answers t selection Hv Hlen Hset)
        as (_ & _ & _ & _ & _ & Hnone).
      destruct (Hnone b). by rewrite Hrun.
  - rewrite (check_answers_short db inp level start answers t selection Hv Hlen) in Hrun.
    rewrite (check_answers_short db inp' level start answers u selection Hu Hlen).
    by injection Hrun as <- _ <-.
Qed.

(** A call of [check_answers] that returns leaves the session as it is. *)
Lemma check_answers_done db inp level start answers (t t' : session) b log :
  Level.check_answers db inp level start answers t = Run (Done b) t' log → t' = t.
Proof.
  intros Hrun.
  pose proof (check_answers_again _ _ inp _ _ _ _ _ t _ _ Hrun eq_refl eq_refl) as Hagain.
  rewrite Hrun in Hagain. by injection Hagain.
Qed.

Lemma render_level_again db inp inp' level min_seasons start (t t' u : session) b log :
  Level.render_level db inp level min_seasons start t = Run (Done b) t' log →
  same_widgets inp inp' →
  u !! player_key level = t' !! player_key level →
  u !! selection_key level = t' !! selection_key level →
  u !! "remaining_reveals" = t' !! "remaining_reveals" →
  Level.render_level db inp' level min_seasons start u = Run (Done b) u log.
Proof.
  intros Hrun (Hpicked & Hreveal_pressed & Hagain_pressed) Hplayer Hselection Hreveals.
  unfold Level.render_level in *.
  apply bind_done_inv in Hrun as ([] & ta & la & ? & Hdraw & Hrun & ->).
  apply bind_done_inv in Hrun as ([] & tb & lb & ? & Hinit & Hrun & ->).
  apply bind_done_inv in Hrun as (answers & tc & lc & ? & Hshow & Hrun & ->).
  apply bind_done_inv in Hrun as ([] & td & ld & ? & Hread & Hrun & ->).
  apply bind_done_inv in Hrun as ([] & te & le & lf & Hreveal & Hcheck & ->).
  pose proof (check_answers_done _ _ _ _ _ _ _ _ _ Hcheck) as ->.
  pose proof (reveal_done _ _ _ _ _ _ Hreveal) as ->.
  destruct (show_player_done _ _ _ _ _ _ Hshow) as (-> & p & n & Hp & _).
  assert (td = <[selection_key level := VList (picked inp)]> tb) as Htd.
  { unfold Level.read_selection in Hread.
    rewrite load_unique_teams_ok, lift_ok_bind in Hread. unfold put in Hread.
    by injection Hread as <-. }
  rewrite Htd in Hplayer, Hselection, Hreveals.
  rewrite lookup_insert_ne in Hplayer by key_ne.
  rewrite lookup_insert_eq in Hselection.
  rewrite lookup_insert_ne in Hreveals by key_ne.
  erewrite bind_step by (eapply draw_player_again; [exact Hdraw|rewrite Hplayer, Hp; eauto]).
  erewrite bind_step by (eapply init_selection_again; [exact Hinit|rewrite Hselection; eauto]).
  erewrite bind_step by (eapply show_player_again; [exact Hshow|congruence]).
  erewrite bind_step by (eapply read_selection_again; [exact Hread|done|done]).
  erewrite bind_step.
  2:{ eapply reveal_again; [exact Hreveal|done|].
      rewrite Htd. by rewrite lookup_insert_ne by key_ne. }
  erewrite check_answers_again; [|exact Hcheck|done|].
  2:{ rewrite Htd. by rewrite lookup_insert_eq. }
  by rewrite !prepend_run.
Qed.

Lemma lift_done {A} (r : res A) (s s' : session) a log :
  lift r s = Run (Done a) s' log → r = Ok a ∧ s' = s ∧ log = [].
Proof. destruct r; cbn; [|done]. by intros [= -> -> <-]. Qed.

(** The levels that a completed loop went through wrote their own players
    and selections only. *)
Lemma play_levels_done_frame db inp difficulty levels (t t' : session) log key :
  App.play_levels db inp difficulty levels t = Run (Done ()) t' log →
  (∀ k, k ∈ levels → key ≠ selection_key k ∧ key ≠ player_key k) →
  t' !! key = t !! key.
Proof.
  revert t log. induction levels as [|level levels IH]; intros t log Hrun Hkey.
  { cbn in Hrun. by injection Hrun as <-. }
  cbn [App.play_levels] in Hrun.
  apply bind_done_inv in Hrun as (min_seasons & ? & ? & ? & (_ & -> & _)%lift_done & Hrun & _).
  apply bind_done_inv in Hrun as (start & ? & ? & ? & (_ & -> & _)%lift_done & Hrun & _).
  apply bind_done_inv in Hrun as (b & t1 & l1 & l2 & Hlevel & Hrun & _).
  destruct (Hkey level) as [Hselection Hplayer]; [left|].
  pose proof (render_level_frame level key (t !! key) Hselection Hplayer
                db (level_inputs inp level) min_seasons start t eq_refl) as Hkeep.
  rewrite Hlevel in Hkeep. cbn [outcome state] in Hkeep. unfold holds in Hkeep.
  rewrite <- Hkeep. destruct b.
  - eapply IH; [exact Hrun|]. intros k Hk. apply Hkey. by right.
  - cbn in Hrun. by injection Hrun as <-.
Qed.

Lemma play_levels_again db inp inp' difficulty levels :
  (∀ level, same_widgets (level_inputs inp level) (level_inputs inp' level)) →
  NoDup levels →
  ∀ (t t' u : session) log,
    App.play_levels db inp difficulty levels t = Run (Done ()) t' log →
    (∀ k, k ∈ levels →
       u !! player_key k = t' !! player_key k
       ∧ u !! selection_key k = t' !! selection_key k) →
    u !! "remaining_reveals" = t' !! "remaining_reveals" →
    App.play_levels db inp' difficulty levels u = Run (Done ()) u log.
Proof.
  intros Hwidgets.
  induction 1 as [|level levels Hfresh Hlevels IH]; intros t t' u log Hrun Hkeys Hreveals.
  { cbn in Hrun |- *. by injection Hrun as _ <-. }
  cbn [App.play_levels] in Hrun |- *.
  apply bind_done_inv in Hrun as (min_seasons & ? & ? & ? & (Hmin & -> & ->)%lift_done & Hrun & ->).
  apply bind_done_inv in Hrun as (start & ? & ? & ? & (Hstart & -> & ->)%lift_done & Hrun & ->).
  apply bind_done_inv in Hrun as (b & t1 & l1 & l2 & Hlevel & Hrun & ->).
  rewrite Hmin, lift_ok_bind, Hstart, lift_ok_bind.
  assert (∀ key, (∀ k, k ∈ levels → key ≠ selection_key k ∧ key ≠ player_key k) →
                 t' !! key = t1 !! key) as Hframe.
  { intros key Hkey. destruct b.
    - by eapply play_levels_done_frame.
    - cbn in Hrun. by injection Hrun as <-. }
  destruct (Hkeys level) as [Hplayer Hselection]; [left|].
  erewrite bind_step.
  2:{ eapply render_level_again; [exact Hlevel|apply Hwidgets|..].
      - rewrite Hplayer. apply Hframe. intros k Hk. split; [key_ne|].
        apply player_key_ne. by intros ->.
      - rewrite Hselection. apply Hframe. intros k Hk. split; [|key_ne].
        apply selection_key_ne. by intros ->.
      - rewrite Hreveals. apply Hframe. intros k Hk. split; discriminate. }
  destruct b.
  - erewrite IH; [done|exact Hrun| |done].
    intros k Hk. apply Hkeys. by right.
  - cbn in Hrun |- *. by injection Hrun as _ <-.
Qed.

Lemma show_latest_game_date_done db (s s' : session) log :
  App.show_latest_game_date db s = Run (Done ()) s' log →
  ∃ date, Main.load_latest_game_date db = Ok (Some date) ∧ s' = s
          ∧ log = [LatestGameDate date].
Proof.
  unfold App.show_latest_game_date.
  destruct (Main.load_latest_game_date db) as [[date|]|e];
    [rewrite lift_ok_bind|rewrite lift_ok_bind|by rewrite lift_err_bind].
  - intros [= <- <-]. by exists date.
  - done.
Qed.

(** After the reveal counter has been looked after, the session holds the
    counter and the selected difficulty. *)
Lemma init_reveals_done difficulty (s : session) :
  ∃ s1, App.init_reveals difficulty s = Run (Done ()) s1 []
        ∧ s1 !! "previous_difficulty" = Some (VStr difficulty)
        ∧ is_Some (s1 !! "remaining_reveals").
Proof.
  destruct (s !! "remaining_reveals") as [v|] eqn:Hreveals.
  - destruct (s !! "previous_difficulty") as [w|] eqn:Hprevious.
    + destruct (decide (w = VStr difficulty)) as [->|Hw].
      * exists s. rewrite (init_reveals_same _ _ _ Hreveals Hprevious). eauto.
      * eexists. rewrite init_reveals_changed by eauto.
        split; [done|]. rewrite lookup_insert_eq, lookup_insert_ne, lookup_insert_eq by done.
        eauto.
    + eexists. rewrite init_reveals_changed by eauto.
      split; [done|]. rewrite lookup_insert_eq, lookup_insert_ne, lookup_insert_eq by done.
      eauto.
  - eexists. rewrite init_reveals_changed by eauto.
    split; [done|]. rewrite lookup_insert_eq, lookup_insert_ne, lookup_insert_eq by done.
    eauto.
Qed.

Lemma change_difficulty_done difficulty (s s' : session) log :
  App.change_difficulty difficulty s = Run (Done ()) s' log →
  s !! "current_difficulty" = Some (VStr difficulty) ∧ s' = s ∧ log = [].
Proof.
  unfold App.change_difficulty.
  destruct (s !! "current_difficulty") as [v|] eqn:Hv;
    [rewrite (get_bind _ _ _ _ Hv)|by rewrite get_bind_none].
  case_bool_decide as Hchanged; cbn [when].
  - intros Hrun. exfalso.
    repeat (apply bind_done_inv in Hrun as (? & ? & ? & ? & _ & Hrun & _)).
    discriminate Hrun.
  - subst v. by intros [= <- <-].
Qed.

(** A pass that ran to its end is stable: run again on the session that it
    left, with the same values of the widgets and whatever the random draws,
    the script shows the same page, runs to its end and leaves the session
    as it is. *)
Theorem completed_pass_is_stable db inp inp' (s : session) :
  outcome (App.create_streamlit_app db inp s) = Done () →
  same_page inp inp' →
  App.create_streamlit_app db inp' (state (App.create_streamlit_app db inp s))
  = App.create_streamlit_app db inp s.
Proof.
  destruct (App.create_streamlit_app db inp s) as [o s' log] eqn:Hrun.
  cbn [outcome state]. intros -> (Hupdates' & Hdifficulty' & Hwidgets).
  unfold App.create_streamlit_app in Hrun.
  apply bind_done_inv in Hrun as ([] & ? & ? & ? & Hdate & Hrun & ->).
  apply show_latest_game_date_done in Hdate as (date & Hdate & -> & ->).
  apply bind_done_inv in Hrun as ([] & s0 & l0 & ? & Hupdates & Hrun & ->).
  assert (check_updates_pressed inp = false ∧ s0 = s ∧ l0 = []) as (Hpressed & -> & ->).
  { destruct (check_updates_pressed inp); cbn in Hupdates; [done|].
    by injection Hupdates as <- <-. }
  apply bind_done_inv in Hrun as ([] & s1 & l1 & ltail & Hinit & Hrun & ->).
  destruct (init_reveals_done (difficulty_selection inp) s) as (s1' & Hinit' & Hprevious & Hreveals).
  rewrite Hinit' in Hinit. injection Hinit as -> <-.
  assert (∃ v, s' !! "remaining_reveals" = Some v
               ∧ s' !! "previous_difficulty" = Some (VStr (difficulty_selection inp))
               ∧ (if bool_decide (difficulty_selection inp ≠ "Select a difficulty level") then
                    tracked ← has "current_difficulty";
                    when (negb tracked)
                      (put "current_difficulty" (VStr (difficulty_selection inp))) ;;
                    App.change_difficulty (difficulty_selection inp) ;;
                    App.play_levels db inp' (difficulty_selection inp) (seqZ 1 10)
                  else emit PleaseSelectDifficulty) s' = Run (Done ()) s' ltail)
    as (v & Hreveals' & Hprevious' & Htail).
  { destruct Hreveals as [v Hreveals].
    case_bool_decide as Hselected.
    - rewrite has_bind in Hrun.
      apply bind_done_inv in Hrun as ([] & s2 & l2 & ? & Htracked & Hrun & ->).
      assert (l2 = [] ∧ s2 !! "remaining_reveals" = Some v
              ∧ s2 !! "previous_difficulty" = Some (VStr (difficulty_selection inp)))
        as (-> & Hreveals2 & Hprevious2).
      { destruct (bool_decide _); cbn [negb when] in Htracked;
          unfold put, mret, M_ret in Htracked; injection Htracked as <- <-; [done|].
        by rewrite !lookup_insert_ne by done. }
      apply bind_done_inv in Hrun as ([] & s3 & l3 & l4 & Hchange & Hlevels & ->).
      apply change_difficulty_done in Hchange as (Hcurrent & -> & ->).
      assert (∀ key, (∀ k, k ∈ seqZ 1 10 → key ≠ selection_key k ∧ key ≠ player_key k) →
                     s' !! key = s2 !! key) as Hframe.
      { intros key Hkey. by eapply play_levels_done_frame. }
      exists v. split; [|split].
      + rewrite Hframe; [done|]. intros k _. split; discriminate.
      + rewrite Hframe; [done|]. intros k _. split; discriminate.
      + assert (s' !! "current_difficulty" = Some (VStr (difficulty_selection inp)))
          as Hcurrent'.
        { rewrite Hframe; [done|]. intros k _. split; discriminate. }
        rewrite has_bind, Hcurrent', bool_decide_eq_true_2 by eauto. cbn [negb when].
        rewrite ret_bind_run. unfold App.change_difficulty.
        rewrite bind_assoc, (get_bind _ _ _ _ Hcurrent').
        rewrite bool_decide_eq_false_2 by (by intros []). cbn [when].
        rewrite ret_bind_run.
        eapply play_levels_again; [exact Hwidgets|apply NoDup_seqZ|exact Hlevels|done|done].
    - unfold emit in Hrun |- *. injection Hrun as <- <-. by exists v. }
  unfold App.create_streamlit_app.
  erewrite bind_step by (by apply show_latest_game_date_ok).
  rewrite Hupdates', Hdifficulty', Hpressed. cbn [when]. rewrite ret_bind_run.
  erewrite bind_step by (by eapply init_reveals_same).
  rewrite prepend_nil, Htail. reflexivity.
Qed.

Lemma completed_pass_is_stable_witness :
  App.create_streamlit_app dbH
    (AppInput false "Hard" (λ _, LevelInput ["X"; "Y"] false false 1 1 1))
    (state (App.create_streamlit_app dbH (AppInput false "Hard" (λ _, pick ["X"; "Y"])) ∅))
  = App.create_streamlit_app dbH (AppInput false "Hard" (λ _, pick ["X"; "Y"])) ∅.
Proof.
  apply (completed_pass_is_stable dbH (AppInput false "Hard" (λ _, pick ["X"; "Y"]))
           (AppInput false "Hard" (λ _, LevelInput ["X"; "Y"] false false 1 1 1)) ∅).
  - vm_compute. reflexivity.
  - split; [reflexivity|]. split; [reflexivity|]. intros level.
    split; [reflexivity|]. split; reflexivity.
Defined.

(** ** A reveal can duplicate a club, and the check never sees it *)

(** A selection without repeated club, as long as the list of answers and
    with another set of clubs, holds a club that is no answer. *)
Lemma distinct_selection_has_wrong_club (selection answers : list string) :
  NoDup selection →
  length selection = length answers →
  list_to_set selection ≠@{gset string} list_to_set answers →
  list_to_set selection ∖ list_to_set answers ≠@{gset string} ∅.
Proof.
  intros Hnd Hlen Hne Hempty. apply Hne.
  set (S := list_to_set selection : gset string) in *.
  set (A := list_to_set answers : gset string) in *.
  assert (S ⊆ A) as Hsub.
  { intros c Hc. destruct (decide (c ∈ A)); [done|]. set_solver. }
  apply set_eq. intros c. split; [apply Hsub|]. intros Hc.
  destruct (decide (c ∈ S)) as [|Hnot]; [done|]. exfalso.
  assert (S ⊂ A) as Hstrict.
  { split; [done|]. intros Hsup. apply Hnot. by apply Hsup. }
  apply subset_size in Hstrict.
  pose proof (size_list_to_set_le answers) as Hle. fold A in Hle.
  assert (size S = length selection) as HS by (by apply size_list_to_set).
  lia.
Qed.

(** The selection that a pass of [render_level] checks is the value that the
    picker handed back during this pass (line 226), whatever was stored
    under the selection key before. *)
Lemma render_level_checks_the_picker db inp level min_seasons start (s : session) :
  let r := Level.render_level db inp level min_seasons start s in
  verdicts r ≠ [] →
  ∃ answers s1 log,
    prepare_level db inp level min_seasons s = Run (Done answers) s1 log
    ∧ s1 !! selection_key level = Some (VList (picked inp))
    ∧ length (picked inp) = length answers
    ∧ verdicts r = verdicts (Level.check_answers db inp level start answers s1)
    ∧ (verdicts r = [ThatIsCorrect]
       ∧ list_to_set (picked inp) =@{gset string} list_to_set answers
       ∨ verdicts r
         = [Unlucky (size (list_to_set (picked inp) ∩ list_to_set answers : gset string))
                    (length answers)
                    (list_to_set (picked inp) ∖ list_to_set answers)]
         ∧ list_to_set (picked inp) ≠@{gset string} list_to_set answers).
Proof.
  intros r Hverdict.
  destruct (prepare_level db inp level min_seasons s) as [o s1 log] eqn:Hprep.
  destruct o as [answers| |e].
  - destruct (render_level_after_prepare db inp level min_seasons start _ _ _ _ Hprep)
      as (_ & _ & _ & Hv). fold r in Hv.
    destruct (prepare_level_done _ _ _ _ _ _ _ _ Hprep) as [Hsel _].
    exists answers, s1, log. split; [done|]. split; [done|].
    destruct (decide (length (picked inp) = length answers)) as [Hlen|Hlen].
    + split; [done|]. split; [done|]. rewrite Hv.
      destruct (decide (list_to_set (picked inp) =@{gset string} list_to_set answers))
        as [Heq|Hne].
      * left. split; [|done].
        by destruct (check_answers_correct db inp level start answers s1 _ Hsel Hlen Heq).
      * right. split; [|done].
        by destruct (check_answers_incorrect db inp level start answers s1 _ Hsel Hlen Hne).
    + rewrite (check_answers_short db inp level start answers s1 _ Hsel Hlen) in Hv.
      by destruct Hverdict.
  - destruct Hverdict. unfold r. rewrite render_level_split.
    destruct (bind_stop _ (Level.check_answers db inp level start) s _ _ _ Hprep)
      as (_ & _ & Hshown); [done|].
    unfold verdicts. rewrite Hshown.
    pose proof (prepare_level_no_verdict db inp level min_seasons s) as Hnv.
    rewrite Hprep in Hnv. cbn [shown] in Hnv. by rewrite (filter_no_verdict _ Hnv).
  - destruct Hverdict. unfold r. rewrite render_level_split.
    destruct (bind_stop _ (Level.check_answers db inp level start) s _ _ _ Hprep)
      as (_ & _ & Hshown); [done|].
    unfold verdicts. rewrite Hshown.
    pose proof (prepare_level_no_verdict db inp level min_seasons s) as Hnv.
    rewrite Hprep in Hnv. cbn [shown] in Hnv. by rewrite (filter_no_verdict _ Hnv).
Qed.

(** With a picker that hands back every club once, a verdict "incorrect"
    names a wrong club. *)
Lemma render_level_wrong_clubs db inp level min_seasons start (s : session) c n w :
  NoDup (picked inp) →
  verdicts (Level.render_level db inp level min_seasons start s) = [Unlucky c n w] →
  w ≠ ∅.
Proof.
  intros Hnd Hv.
  destruct (render_level_checks_the_picker db inp level min_seasons start s)
    as (answers & s1 & log & _ & _ & Hlen & _ & [[Hc _]|[Hu Hne]]).
  { by rewrite Hv. }
  - rewrite Hv in Hc. discriminate Hc.
  - rewrite Hv in Hu. injection Hu as _ _ ->.
    by apply distinct_selection_has_wrong_club.
Qed.

(** C9, as the specification words it, fails. [st.multiselect] hands back
    each selected option once, and then no pass of [render_level], from any
    session, gives the verdict "incorrect" with an empty set of wrong
    clubs. In the run of the specification (answers X, Y; X picked; X
    revealed) the stored selection is X, X when the pass reruns, and the pass
    that follows, the picker still at X, gives no verdict at all. *)
Lemma no_incorrect_verdict_without_wrong_club :
  (∀ db inp level min_seasons start (s : session) c n,
     NoDup (picked inp) →
     verdicts (Level.render_level db inp level min_seasons start s) ≠ [Unlucky c n ∅])
  ∧ (let r1 := App.create_streamlit_app dbH
                 (AppInput false "Hard" (λ _, pick_and_reveal ["X"])) sH in
     let r2 := App.create_streamlit_app dbH
                 (AppInput false "Hard" (λ _, pick ["X"])) (state r1) in
     outcome r1 = Rerun
     ∧ state r1 !! selection_key 1 = Some (VList ["X"; "X"])
     ∧ verdicts r1 = []
     ∧ outcome r2 = Done ()
     ∧ state r2 !! selection_key 1 = Some (VList ["X"])
     ∧ verdicts r2 = []).
Proof.
  split.
  - intros db inp level min_seasons start s c n Hnd Hv.
    by apply (render_level_wrong_clubs db inp level min_seasons start s c n ∅ Hnd Hv).
  - cbv zeta. repeat split; by vm_compute.
Qed.

(** C9, as the script behaves. A reveal can leave a stored selection that
    holds a club twice, is as long as the list of answers and only holds
    correct answers: on the answers X, Y with X picked, the reveal of X stores
    X, X. The pass stops there with a rerun and gives no verdict, and the
    next pass, the picker still at X, stores X again before it checks: the
    duplicate is never checked. Every selection that is checked is the value
    of the picker of that pass, and with a picker that hands back every club
    once a verdict "incorrect" names at least one wrong club. *)
Theorem duplicate_reveal_is_never_checked :
  (∃ (db : database) (s : session) (answers options : list string),
     let r1 := App.create_streamlit_app db (AppInput false "Hard" (λ _, pick_and_reveal ["X"])) s in
     let r2 := App.create_streamlit_app db (AppInput false "Hard" (λ _, pick ["X"])) (state r1) in
     reachable s
     ∧ s !! player_key 1 = Some (VStr "A")
     ∧ s !! "remaining_reveals" = Some (VInt 1)
     ∧ Main.load_players_data db "A" = Ok (answers, 12)
     ∧ Main.load_unique_teams db = Ok options
     ∧ "X" ∈ options
     ∧ outcome r1 = Rerun
     ∧ Revealed "X" ∈ shown r1
     ∧ verdicts r1 = []
     ∧ state r1 !! selection_key 1 = Some (VList ["X"; "X"])
     ∧ state r1 !! "remaining_reveals" = Some (VInt 0)
     ∧ length ["X"; "X"] = length answers
     ∧ (∀ c, c ∈ ["X"; "X"] → c ∈ answers)
     ∧ outcome r2 = Done ()
     ∧ verdicts r2 = []
     ∧ state r2 !! selection_key 1 = Some (VList ["X"]))
  ∧ (∀ db inp level min_seasons start (s : session),
       let r := Level.render_level db inp level min_seasons start s in
       verdicts r ≠ [] →
       ∃ answers s1 log,
         prepare_level db inp level min_seasons s = Run (Done answers) s1 log
         ∧ s1 !! selection_key level = Some (VList (picked inp))
         ∧ length (picked inp) = length answers
         ∧ verdicts r = verdicts (Level.check_answers db inp level start answers s1))
  ∧ (∀ db inp level min_seasons start (s : session) c n w,
       NoDup (picked inp) →
       verdicts (Level.render_level db inp level min_seasons start s) = [Unlucky c n w] →
       w ≠ ∅).
Proof.
  split; [|split].
  - exists dbH, sH, ["X"; "Y"], ["X"; "Y"]. cbv zeta.
    split; [unfold sH; apply reachable_pass, reachable_start|].
    split; [by vm_compute|]. split; [by vm_compute|]. split; [by vm_compute|].
    split; [by vm_compute|]. split; [set_solver|]. split; [by vm_compute|].
    split; [vm_compute; apply list_elem_of_In; cbn; tauto|].
    split; [by vm_compute|]. split; [by vm_compute|]. split; [by vm_compute|].
    split; [done|]. split; [set_solver|].
    split; [by vm_compute|]. split; by vm_compute.
  - intros db inp level min_seasons start s r Hverdict.
    destruct (render_level_checks_the_picker db inp level min_seasons start s Hverdict)
      as (answers & s1 & log & Hprep & Hsel & Hlen & Hv & _).
    by exists answers, s1, log.
  - intros db inp level min_seasons start s c n w. apply render_level_wrong_clubs.
Qed.

(** Level 2 of the Hard run over [dbH], player "B" with the one answer X, and
    the other club of the picker, Y, picked. *)
Lemma duplicate_reveal_is_never_checked_witness :
  let s := state (App.create_streamlit_app dbH (AppInput false "Hard" (λ _, pick ["X"; "Y"])) ∅) in
  s !! player_key 2 = Some (VStr "B")
  ∧ NoDup (picked (pick ["Y"]))
  ∧ verdicts (Level.render_level dbH (pick ["Y"]) 2 9 10 s) = [Unlucky 0 1 {["Y"]}]
  ∧ {["Y"]} ≠@{gset string} ∅.
Proof.
  cbv zeta.
  assert (NoDup (picked (pick ["Y"]))) as Hnd by (repeat constructor; set_solver).
  assert (verdicts (Level.render_level dbH (pick ["Y"]) 2 9 10
                      (state (App.create_streamlit_app dbH
                                (AppInput false "Hard" (λ _, pick ["X"; "Y"])) ∅)))
          = [Unlucky 0 1 {["Y"]}]) as Hv by (by vm_compute).
  split; [by vm_compute|]. split; [exact Hnd|]. split; [exact Hv|].
  exact (proj2 (proj2 duplicate_reveal_is_never_checked)
           dbH (pick ["Y"]) 2 9 10 _ 0%nat 1%nat {["Y"]} Hnd Hv).
Defined.

(** ** An assigned player is kept until the run is reset *)

Section Kept.

Variables (k : Z) (v : value).



















End Kept.




